(** * Invisible Wall: Kalman smoothing of pedestrian tracks and the pixel mapper

    A shallow embedding of [src/kalman.py] and of the [PixelMapper] part of
    [src/pixelmapper.py], with the parts of filterpy, numpy and pandas these
    functions call.

    Numbers.  Python floats are modelled as exact rationals extended with a
    NaN value ([num = option Q], [None] being NaN).  Arithmetic on them is
    exact, and NaN is absorbing, as it is for IEEE floats ([0 * nan = nan]).
    Rounding is not modelled. *)

From Stdlib Require Import String.
From Stdlib Require Import List ZArith QArith Qreduction Bool Lia Arith.
Import ListNotations.
Open Scope string_scope.
Open Scope list_scope.
Open Scope Z_scope.

Set Implicit Arguments.

(** ** Exceptions and results *)

(** A raised Python exception, identified by the name of its class. *)
Inductive exn : Type := Exn (cls : string).

Definition IndexError : exn := Exn "IndexError".
Definition ValueError : exn := Exn "ValueError".
Definition LinAlgError : exn := Exn "LinAlgError".
Definition AttributeError : exn := Exn "AttributeError".
Definition cv_error : exn := Exn "cv2.error".

(** A computation that returns a value or raises. *)
Definition result (A : Type) : Type := (exn + A)%type.

Definition ret {A} (a : A) : result A := inr a.
Definition raise {A} (e : exn) : result A := inl e.
Definition bind {A B} (m : result A) (k : A -> result B) : result B :=
  match m with
  | inl e => inl e
  | inr a => k a
  end.

Declare Scope result_scope.
Delimit Scope result_scope with result.
Notation "x <- m ;; k" := (bind m (fun x => k))
  (at level 61, m at next level, right associativity) : result_scope.
Notation "' p <- m ;; k" := (bind m (fun x => match x with p => k end))
  (at level 61, p pattern, m at next level, right associativity) : result_scope.
Open Scope result_scope.

(** ** Numbers with NaN *)

Definition num : Type := option Q.
Definition NaN : num := None.
(** A finite number, in lowest terms. *)
Definition fin (q : Q) : num := Some (Qred q).
(** A Python integer as a number. *)
Definition of_Z (z : Z) : num := Some (inject_Z z).

(** [pd.isna] on a scalar. *)
Definition isna (a : num) : bool :=
  match a with
  | None => true
  | Some _ => false
  end.

Definition nbin (f : Q -> Q -> Q) (a b : num) : num :=
  match a, b with
  | Some p, Some q => Some (Qred (f p q))
  | _, _ => None
  end.

Definition nadd : num -> num -> num := nbin Qplus.
Definition nsub : num -> num -> num := nbin Qminus.
Definition nmul : num -> num -> num := nbin Qmult.
Definition ndiv : num -> num -> num := nbin Qdiv.

(** Equality of numbers up to the representation of a rational. *)
Definition num_eq (a b : num) : Prop :=
  match a, b with
  | Some p, Some q => p == q
  | None, None => True
  | _, _ => False
  end.

(** ** Arrays: vectors and matrices as lists of rows *)

Definition vec : Type := list num.
Definition mat : Type := list vec.

Fixpoint map2 {A B C} (f : A -> B -> C) (l : list A) (l' : list B) : list C :=
  match l, l' with
  | a :: t, b :: t' => f a b :: map2 f t t'
  | _, _ => []
  end.

Definition dotv (a b : vec) : num :=
  fold_left nadd (map2 nmul a b) (of_Z 0).

Fixpoint transpose (m : mat) : mat :=
  match m with
  | [] => []
  | r :: rs =>
      match rs with
      | [] => map (fun a => [a]) r
      | _ :: _ => map2 cons r (transpose rs)
      end
  end.

(** [np.dot] on two 2-d arrays. *)
Definition dot (a b : mat) : mat :=
  map (fun row => map (dotv row) (transpose b)) a.

Definition madd (a b : mat) : mat := map2 (map2 nadd) a b.
Definition msub (a b : mat) : mat := map2 (map2 nsub) a b.
(** [m * k] for a scalar [k]. *)
Definition mscale (m : mat) (k : num) : mat := map (map (fun a => nmul a k)) m.

Definition unit_row (n i : nat) : vec :=
  map (fun j => if Nat.eqb i j then of_Z 1 else of_Z 0) (seq 0 n).
(** [np.eye n]. *)
Definition eye (n : nat) : mat := map (unit_row n) (seq 0 n).

Definition zeros (r c : nat) : mat := repeat (repeat (of_Z 0) c) r.

(** A column array built from the listed entries. *)
Definition column (v : vec) : mat := map (fun a => [a]) v.

(** [m[i, j]]. *)
Definition entry (m : mat) (i j : nat) : num := nth j (nth i m []) NaN.

(** [scipy.linalg.block_diag a b]. *)
Definition block_diag (a b : mat) : mat :=
  let ca := length (hd [] a) in
  let cb := length (hd [] b) in
  map (fun r => r ++ repeat (of_Z 0) cb) a ++
  map (fun r => repeat (of_Z 0) ca ++ r) b.

(** *** Matrix inverse

    [np.linalg.inv] in exact arithmetic, by Gauss-Jordan elimination on the
    matrix extended with the identity.  A singular matrix raises
    [LinAlgError], as numpy does.  A NaN entry is not zero, so it can serve
    as a pivot and spreads through the answer. *)

Definition is_zero (a : num) : bool :=
  match a with
  | Some q => Qeq_bool q 0
  | None => false
  end.

Fixpoint find_pivot (c : nat) (rows : list vec) : option (vec * list vec) :=
  match rows with
  | [] => None
  | r :: rs =>
      if is_zero (nth c r NaN)
      then match find_pivot c rs with
           | Some (p, rest) => Some (p, r :: rest)
           | None => None
           end
      else Some (r, rs)
  end.

Fixpoint gauss_jordan (fuel c : nat) (done rest : list vec) : result (list vec) :=
  match fuel with
  | O => ret done
  | S f =>
      match find_pivot c rest with
      | None => raise LinAlgError
      | Some (p, rest') =>
          let p' := map (fun a => ndiv a (nth c p NaN)) p in
          let elim := fun r => map2 nsub r (map (nmul (nth c r NaN)) p') in
          gauss_jordan f (S c) (map elim done ++ [p']) (map elim rest')
      end
  end.

Definition np_linalg_inv (m : mat) : result mat :=
  let n := length m in
  rows <- gauss_jordan n 0 [] (map2 (@app num) m (eye n)) ;;
  ret (map (skipn n) rows).

(** ** filterpy: the [KalmanFilter] object

    The object is mutable in Python; a method here takes the object and
    returns its next value.  Only the attributes that the methods called from
    this program read or write are kept ([u] is 0 and [B] is [None], so
    [predict] has no control term, and [alpha] is 1). *)

Record KalmanFilter : Type := mkKF {
  dim_x : nat;
  dim_z : nat;
  kf_F : mat;
  kf_H : mat;
  kf_R : mat;
  kf_Q : mat;
  kf_x : mat;
  kf_P : mat
}.

(** [KalmanFilter(dim_x, dim_z)]: the checks and the defaults of the
    constructor. *)
Definition KalmanFilter_init (dx dz : nat) : result KalmanFilter :=
  if (dx <? 1)%nat then raise ValueError
  else if (dz <? 1)%nat then raise ValueError
  else ret {| dim_x := dx; dim_z := dz;
              kf_F := eye dx; kf_H := zeros dz dx; kf_R := eye dz; kf_Q := eye dx;
              kf_x := zeros dx 1; kf_P := eye dx |}.

Definition set_F (k : KalmanFilter) (v : mat) : KalmanFilter :=
  mkKF (dim_x k) (dim_z k) v (kf_H k) (kf_R k) (kf_Q k) (kf_x k) (kf_P k).
Definition set_H (k : KalmanFilter) (v : mat) : KalmanFilter :=
  mkKF (dim_x k) (dim_z k) (kf_F k) v (kf_R k) (kf_Q k) (kf_x k) (kf_P k).
Definition set_R (k : KalmanFilter) (v : mat) : KalmanFilter :=
  mkKF (dim_x k) (dim_z k) (kf_F k) (kf_H k) v (kf_Q k) (kf_x k) (kf_P k).
Definition set_Q (k : KalmanFilter) (v : mat) : KalmanFilter :=
  mkKF (dim_x k) (dim_z k) (kf_F k) (kf_H k) (kf_R k) v (kf_x k) (kf_P k).
Definition set_x (k : KalmanFilter) (v : mat) : KalmanFilter :=
  mkKF (dim_x k) (dim_z k) (kf_F k) (kf_H k) (kf_R k) (kf_Q k) v (kf_P k).
Definition set_P (k : KalmanFilter) (v : mat) : KalmanFilter :=
  mkKF (dim_x k) (dim_z k) (kf_F k) (kf_H k) (kf_R k) (kf_Q k) (kf_x k) v.

(** [KalmanFilter.predict()]: [x = F x], [P = F P F' + Q]. *)
Definition predict (k : KalmanFilter) : KalmanFilter :=
  let x' := dot (kf_F k) (kf_x k) in
  let P' := madd (dot (dot (kf_F k) (kf_P k)) (transpose (kf_F k))) (kf_Q k) in
  set_P (set_x k x') P'.

(** [KalmanFilter.update(z)].  A measurement [None] leaves [x] and [P] as
    they are; anything else, NaN entries included, goes through the update
    equations. *)
Definition update (k : KalmanFilter) (z : option mat) : result KalmanFilter :=
  match z with
  | None => ret k
  | Some zc =>
      let H := kf_H k in
      let y := msub zc (dot H (kf_x k)) in
      let PHT := dot (kf_P k) (transpose H) in
      let S := madd (dot H PHT) (kf_R k) in
      SI <- np_linalg_inv S ;;
      let K := dot PHT SI in
      let x' := madd (kf_x k) (dot K y) in
      let I_KH := msub (eye (dim_x k)) (dot K H) in
      let P' := madd (dot (dot I_KH (kf_P k)) (transpose I_KH))
                     (dot (dot K (kf_R k)) (transpose K)) in
      ret (set_P (set_x k x') P')
  end.

(** [KalmanFilter.batch_filter(zs)]: for every [z], predict and then update,
    and record the state and covariance after the update.  The object keeps
    the state it ends with.  Returns the means, the covariances and the
    object. *)
Fixpoint batch_filter (k : KalmanFilter) (zs : list (option mat))
  : result (list mat * list mat * KalmanFilter) :=
  match zs with
  | [] => ret ([], [], k)
  | z :: rest =>
      k1 <- update (predict k) z ;;
      '(ms, cs, k2) <- batch_filter k1 rest ;;
      ret (kf_x k1 :: ms, kf_P k1 :: cs, k2)
  end.

(** [filterpy.common.Q_discrete_white_noise(dim=3, dt, var)]. *)
Definition Q_discrete_white_noise3 (dt var : num) : mat :=
  let dt2 := nmul dt dt in
  let dt3 := nmul dt2 dt in
  let dt4 := nmul dt3 dt in
  mscale
    [ [nmul (fin (1#4)) dt4; nmul (fin (1#2)) dt3; nmul (fin (1#2)) dt2];
      [nmul (fin (1#2)) dt3; dt2;                  dt];
      [nmul (fin (1#2)) dt2; dt;                   of_Z 1] ]
    var.

(** ** [kalman.py] *)

(** [kalman_filter(sx, sy, dt, nsensors)]. *)
Definition kalman_filter (sx sy dt : num) (nsensors : nat) : result KalmanFilter :=
  let R_std := of_Z 15 in
  let Q_std := of_Z 15 in
  kfilter <- KalmanFilter_init 6 (2 * nsensors) ;;
  let o := of_Z 0 in
  let i := of_Z 1 in
  let h := nmul (nmul (fin (1#2)) dt) dt in
  let kfilter := set_F kfilter
    [ [i; dt; h;  o; o;  o];
      [o; i;  dt; o; o;  o];
      [o; o;  i;  o; o;  o];
      [o; o;  o;  i; dt; h];
      [o; o;  o;  o; i;  dt];
      [o; o;  o;  o; o;  i] ] in
  let kfilter := set_H kfilter
    (concat (repeat [ [i; o; o; o; o; o];
                      [o; o; o; i; o; o] ] nsensors)) in
  let kfilter := set_R kfilter (mscale (eye (2 * nsensors)) (nmul R_std R_std)) in
  let q := Q_discrete_white_noise3 dt (nmul Q_std Q_std) in
  let kfilter := set_Q kfilter (block_diag q q) in
  let kfilter := set_x kfilter (column [sx; o; o; sy; o; o]) in
  let kfilter := set_P kfilter (mscale (eye 6) (of_Z 15)) in
  ret kfilter.

(** *** pandas: rows, grouping

    The columns that [kalman] reads are typed fields of a row: the index
    label, [trackingId] (an integer column), [x] and [y] (NaN where the
    measurement is missing).  Every other column of the dataframe (the frame
    number, and the columns [kalman] adds) is kept by name in [cols], in
    column order, one value per row.  The order of the rows is the order of
    the dataframe; nothing in [kalman.py] sorts by frame. *)

Record Row : Type := mkRow {
  row_index : Z;
  row_trackingId : Z;
  row_x : num;
  row_y : num
}.

Record DataFrame : Type := mkDF {
  rows : list Row;
  cols : list (string * list num)
}.

(** [s.iloc[0]]. *)
Definition iloc0 {A} (s : list A) : result A :=
  match s with
  | [] => raise IndexError
  | a :: _ => ret a
  end.

(** [s.shift()]: every value moves down one place and NaN enters on top. *)
Definition shift (s : list num) : list num :=
  match s with
  | [] => []
  | _ :: _ => NaN :: removelast s
  end.

(** [s.cumsum()] of a boolean series. *)
Fixpoint cumsum_from (acc : nat) (s : list bool) : list nat :=
  match s with
  | [] => []
  | b :: t =>
      let acc' := if b then S acc else acc in
      acc' :: cumsum_from acc' t
  end.
Definition cumsum (s : list bool) : list nat := cumsum_from 0 s.

(** The sorted distinct keys of a grouping. *)
Fixpoint insert_key (k : Z) (l : list Z) : list Z :=
  match l with
  | [] => [k]
  | h :: t =>
      if k <? h then k :: l
      else if k =? h then l
      else h :: insert_key k t
  end.
Definition sorted_keys (ks : list Z) : list Z := fold_right insert_key [] ks.

(** [groupby]: one group per distinct key, keys ascending, the members of a
    group in their original order. *)
Definition groupby {A} (key : A -> Z) (l : list A) : list (Z * list A) :=
  map (fun k => (k, filter (fun a => key a =? k) l)) (sorted_keys (map key l)).

(** [np.vstack]. *)
Definition vstack {A} (parts : list (list A)) : result (list A) :=
  match parts with
  | [] => raise ValueError
  | _ :: _ => ret (concat parts)
  end.

(** *** [run_filter] *)

(** [(pd.isna(df["x"]) != pd.isna(df["x"].shift())).cumsum()]. *)
Definition blocks (df : list Row) : list nat :=
  let xs := map row_x df in
  cumsum (map2 (fun a b => negb (Bool.eqb a b)) (map isna xs) (map isna (shift xs))).

(** [df.groupby(blocks)]: the sub-frames, in key order. *)
Definition block_groups (df : list Row) : list (list Row) :=
  map (fun g => map snd (snd g))
      (groupby (fun p => Z.of_nat (fst p)) (combine (blocks df) df)).

(** [gdf[["x", "y"]].values]: one measurement per row. *)
Definition xy_values (gdf : list Row) : list (option mat) :=
  map (fun r => Some (column [row_x r; row_y r])) gdf.

(** The body of the loop of [run_filter] for one group. *)
Definition run_block (kfilter : KalmanFilter) (gdf : list Row)
  : result (list mat * list mat * KalmanFilter) :=
  x0 <- iloc0 (map row_x gdf) ;;
  y0 <- iloc0 (map row_y gdf) ;;
  if isna x0 || isna y0
  then batch_filter kfilter (repeat None (length gdf))
  else batch_filter kfilter (xy_values gdf).

(** The loop of [run_filter]: the one filter object goes through all the
    groups. *)
Fixpoint run_blocks (kfilter : KalmanFilter) (groups : list (list Row))
  : result (list (list mat) * list (list mat) * KalmanFilter) :=
  match groups with
  | [] => ret ([], [], kfilter)
  | gdf :: rest =>
      '(m, c, kfilter1) <- run_block kfilter gdf ;;
      '(ms, cs, kfilter2) <- run_blocks kfilter1 rest ;;
      ret (m :: ms, c :: cs, kfilter2)
  end.

(** [run_filter(kfilter, df)]; the filter object as the call leaves it is
    returned with the two arrays. *)
Definition run_filter (kfilter : KalmanFilter) (df : list Row)
  : result (list mat * list mat * KalmanFilter) :=
  '(ms, cs, kfilter') <- run_blocks kfilter (block_groups df) ;;
  mu <- vstack ms ;;
  cov <- vstack cs ;;
  ret (mu, cov, kfilter').

(** *** filterpy: [rts_smoother] *)

Definition smoothed : Type := (mat * mat * mat * mat)%type.

(** The backward loop, for the entries from [(xk, Pk)] on: the entry [k + 1]
    is smoothed before the entry [k] is. *)
Fixpoint rts_loop (F Q : mat) (xk Pk : mat) (rest : list (mat * mat))
  : result (smoothed * list smoothed) :=
  match rest with
  | [] => ret ((xk, Pk, zeros (length xk) (length xk), Pk), [])
  | (xn, Pn) :: rest' =>
      '(next, tl) <- rts_loop F Q xn Pn rest' ;;
      let '(x1, P1, _, _) := next in
      let Pp := madd (dot (dot F Pk) (transpose F)) Q in
      PI <- np_linalg_inv Pp ;;
      let K := dot (dot Pk (transpose F)) PI in
      let x' := madd xk (dot K (msub x1 (dot F xk))) in
      let P' := madd Pk (dot (dot K (msub P1 Pp)) (transpose K)) in
      ret ((x', P', K, Pp), next :: tl)
  end.

(** [KalmanFilter.rts_smoother(Xs, Ps)]: returns [(x, P, K, Pp)]. *)
Definition rts_smoother (k : KalmanFilter) (Xs Ps : list mat)
  : result (list mat * list mat * list mat * list mat) :=
  if negb (Nat.eqb (length Xs) (length Ps)) then raise ValueError
  else
    match combine Xs Ps with
    | [] => ret ([], [], [], [])
    | (x0, P0) :: rest =>
        '(s, tl) <- rts_loop (kf_F k) (kf_Q k) x0 P0 rest ;;
        let all := s :: tl in
        ret (map (fun q => fst (fst (fst q))) all,
             map (fun q => snd (fst (fst q))) all,
             map (fun q => snd (fst q)) all,
             map (fun q => snd q) all)
    end.

(** *** The dataframe as shared state

    [kalman] writes into the dataframe it was given while it goes through
    the tracks.  A step of it is a function from the dataframe to a result
    and the dataframe after the step; what was written before an exception
    stays written. *)

Definition M (A : Type) : Type := DataFrame -> result A * DataFrame.

Definition retM {A} (a : A) : M A := fun df => (ret a, df).
Definition bindM {A B} (m : M A) (k : A -> M B) : M B :=
  fun df =>
    match m df with
    | (inl e, df') => (inl e, df')
    | (inr a, df') => k a df'
    end.
(** A computation that does not touch the dataframe. *)
Definition lift {A} (r : result A) : M A := fun df => (r, df).
Definition modify (f : DataFrame -> DataFrame) : M unit := fun df => (ret tt, f df).

Declare Scope df_scope.
Delimit Scope df_scope with df.
Notation "x <~ m ;; k" := (bindM m (fun x => k))
  (at level 61, m at next level, right associativity) : df_scope.
Notation "' p <~ m ;; k" := (bindM m (fun x => match x with p => k end))
  (at level 61, p pattern, m at next level, right associativity) : df_scope.
Notation "m ;;; k" := (bindM m (fun _ => k))
  (at level 61, right associativity) : df_scope.

Definition col_names (df : DataFrame) : list string := map fst (cols df).

Definition has_col (c : string) (df : DataFrame) : bool :=
  existsb (String.eqb c) (col_names df).

(** The value that an assignment of [values] at [labels] gives the row
    labelled [l], if it gives it one. *)
Fixpoint lookup_label (l : Z) (labels : list Z) (values : list num) : option num :=
  match labels, values with
  | k :: ks, v :: vs => if l =? k then Some v else lookup_label l ks vs
  | _, _ => None
  end.

Definition assign (labels : list Z) (values : list num) (rws : list Row) (old : list num)
  : list num :=
  map2 (fun r o => match lookup_label (row_index r) labels values with
                   | Some v => v
                   | None => o
                   end) rws old.

(** [df.loc[labels, c] = values], for a column [c] other than the typed
    ones and [values] as long as [labels]: a column that is not there yet is
    created, filled with NaN, after the existing ones; then the rows named
    by [labels] take [values].  This is what pandas does when the index
    labels are distinct. *)
Definition loc_set (labels : list Z) (c : string) (values : list num) (df : DataFrame)
  : DataFrame :=
  let cs := if has_col c df then cols df
            else cols df ++ [(c, repeat NaN (length (rows df)))] in
  mkDF (rows df)
       (map (fun nv => if String.eqb (fst nv) c
                       then (fst nv, assign labels values (rows df) (snd nv))
                       else nv) cs).

(** [mu[:, i, 0]]. *)
Definition comp (i : nat) (mu : list mat) : list num := map (fun m => entry m i 0) mu.

(** *** [kalman] *)

(** [~(pd.isna(gdf.x) | pd.isna(gdf.y))], row by row. *)
Definition start_idx (r : Row) : bool := negb (isna (row_x r) || isna (row_y r)).

(** Lines 77-80: the filter for one track. *)
Definition init_filter (gdf : list Row) : result KalmanFilter :=
  init_x <- iloc0 (map row_x (filter start_idx gdf)) ;;
  init_y <- iloc0 (map row_y (filter start_idx gdf)) ;;
  kalman_filter init_x init_y (ndiv (of_Z 1) (of_Z 30)) 1.

Definition kalman_columns : list string :=
  ["kalman_x"; "kalman_dx_dt"; "kalman_dx_dt_dt";
   "kalman_y"; "kalman_dy_dt"; "kalman_dy_dt_dt"].
Definition rts_columns : list string :=
  ["rts_x"; "rts_dx_dt"; "rts_dx_dt_dt";
   "rts_y"; "rts_dy_dt"; "rts_dy_dt_dt"].

(** The body of the loop of [kalman] for the group [gdf]. *)
Definition kalman_track (gdf : list Row) : M unit :=
  (let index := map row_index gdf in
   kfilter <~ lift (init_filter gdf) ;;
   '(mu, cov, kfilter) <~ lift (run_filter kfilter gdf) ;;
   modify (loc_set index "kalman_x" (comp 0 mu)) ;;;
   modify (loc_set index "kalman_dx_dt" (comp 1 mu)) ;;;
   modify (loc_set index "kalman_dx_dt_dt" (comp 2 mu)) ;;;
   modify (loc_set index "kalman_y" (comp 3 mu)) ;;;
   modify (loc_set index "kalman_dy_dt" (comp 4 mu)) ;;;
   modify (loc_set index "kalman_dy_dt_dt" (comp 5 mu)) ;;;
   '(mu_rts, cov_rts, _, _) <~ lift (rts_smoother kfilter mu cov) ;;
   modify (loc_set index "rts_x" (comp 0 mu_rts)) ;;;
   modify (loc_set index "rts_dx_dt" (comp 1 mu_rts)) ;;;
   modify (loc_set index "rts_dx_dt_dt" (comp 2 mu_rts)) ;;;
   modify (loc_set index "rts_y" (comp 3 mu_rts)) ;;;
   modify (loc_set index "rts_dy_dt" (comp 4 mu_rts)) ;;;
   modify (loc_set index "rts_dy_dt_dt" (comp 5 mu_rts)))%df.

(** The loop of [kalman] over the groups. *)
Fixpoint for_each_track (groups : list (Z * list Row)) : M unit :=
  match groups with
  | [] => retM tt
  | (_, gdf) :: rest => (kalman_track gdf ;;; for_each_track rest)%df
  end.

(** How a call of [kalman] ends: it returns the dataframe, or an exception
    leaves it, with the dataframe as it is at that moment. *)
Inductive outcome : Type :=
| Returned (df : DataFrame)
| Raised (e : exn) (df : DataFrame).

(** [kalman(df)]. *)
Definition kalman (df : DataFrame) : outcome :=
  match for_each_track (groupby row_trackingId (rows df)) df with
  | (inr _, df') => Returned df'
  | (inl e, df') => Raised e df'
  end.


(** ** [pixelmapper.py]

    OpenCV is outside the repository.  The functions of it that the pixel
    mapper calls are taken as an interface: each is a function of its
    arguments that returns an array or raises. *)

(** A batch of 2-d points (an array of shape [(n, 1, 2)]). *)
Definition points : Type := list (num * num).

Class OpenCV : Type := {
  (** [cv.findHomography(src, dst, method, ransacReprojThreshold)]: the
      fitted matrix, or [None] when no model is found, and the inlier mask. *)
  findHomography : points -> points -> Z -> num -> result (option mat * list bool);
  (** [cv.undistortPoints(X, K, D, None, P)]. *)
  undistortPoints : points -> mat -> option mat -> option mat -> result points;
  (** [cv.fisheye.undistortPoints(X, K, D, None, P)]. *)
  fisheye_undistortPoints : points -> mat -> option mat -> option mat -> result points;
  (** [cv.perspectiveTransform(X, M)]. *)
  perspectiveTransform : points -> option mat -> result points
}.

(** [cv.RANSAC]. *)
Definition RANSAC : Z := 8.

(** [_extrinsic_calibration(pts_src, pts_dst)]. *)
Definition _extrinsic_calibration `{OpenCV} (pts_src pts_dst : points)
  : result (option mat) :=
  '(h, _) <- findHomography pts_src pts_dst RANSAC (of_Z 5) ;;
  ret h.


(** The attributes that [PixelMapper.__init__] sets. *)
Record PixelMapper : Type := mkPixelMapper {
  intrinsic_mtx : option mat;
  distortion : option mat;
  newcameramtx : option mat;
  homography : option mat;
  fisheye : bool
}.

(** [PixelMapper(...)] with the defaults of [__init__]. *)
Definition PixelMapper_default : PixelMapper :=
  mkPixelMapper None None None None false.

(** A method of the object: it may read and assign the attributes of
    [self], so it takes the object and gives it back with its result. *)
Definition method (A : Type) : Type := PixelMapper -> result A * PixelMapper.

(** [PixelMapper.undistort(self, X)]. *)
Definition undistort `{OpenCV} (X : points) : method points :=
  fun self =>
    match intrinsic_mtx self with
    | Some K =>
        if fisheye self
        then (fisheye_undistortPoints X K (distortion self) (newcameramtx self), self)
        else (undistortPoints X K (distortion self) (newcameramtx self), self)
    | None => (ret X, self)
    end.

(** [PixelMapper.__call__(self, X)]. *)
Definition PixelMapper_call `{OpenCV} (X : points) : method points :=
  fun self =>
    match intrinsic_mtx self with
    | Some _ =>
        match undistort X self with
        | (inl e, self') => (inl e, self')
        | (inr X', self') => (perspectiveTransform X' (homography self'), self')
        end
    | None => (perspectiveTransform X (homography self), self)
    end.

(** The statement [pm.homography = h] of the command [extrinsic_calibration]. *)
Definition set_homography (h : option mat) : method unit :=
  fun self =>
    (ret tt, mkPixelMapper (intrinsic_mtx self) (distortion self) (newcameramtx self)
                           h (fisheye self)).

(** *** Attribute lookup on a [PixelMapper]

    The names that [pm.name] finds: the attributes set by [__init__] and
    the functions defined in the class body.  Any other name raises
    [AttributeError]. *)

Definition PixelMapper_attributes : list string :=
  ["intrinsic_mtx"; "distortion"; "newcameramtx"; "homography"; "fisheye"].

Definition PixelMapper_methods : list string :=
  ["__init__"; "undistort"; "__call__"].

Inductive attribute : Type :=
| InstanceAttribute (name : string)
| BoundMethod (name : string).

Definition getattr (self : PixelMapper) (name : string) : result attribute :=
  if existsb (String.eqb name) PixelMapper_attributes then ret (InstanceAttribute name)
  else if existsb (String.eqb name) PixelMapper_methods then ret (BoundMethod name)
  else raise AttributeError.

(** The functions that the module defines beside the class and the
    commands of the command line. *)
Definition pixelmapper_functions : list string :=
  ["pad"; "_extrinsic_calibration"; "pixels2world"; "_intrinsic_calibration";
   "_undistort_fisheye"].

(** ** The forward filter in the words of the specification

    The definitions below do not come from the code.  They say what the
    specification asks of the forward filter, and are compared with
    [run_filter] in the properties. *)

(** The maximal runs of neighbours that have the same status. *)
Fixpoint runs {A} (st : A -> bool) (l : list A) : list (list A) :=
  match l with
  | [] => []
  | a :: t =>
      match t with
      | [] => [[a]]
      | b :: _ =>
          if Bool.eqb (st a) (st b)
          then match runs st t with
               | run :: more => (a :: run) :: more
               | [] => [[a]]
               end
          else [a] :: runs st t
      end
  end.

(** A frame has a measurement when both coordinates are there. *)
Definition present (r : Row) : bool := negb (isna (row_x r)) && negb (isna (row_y r)).

(** The frames of one run, one step per frame: predict and update with the
    frame's [(x, y)] in a run of present measurements, predict only in a run
    of missing ones. *)
Fixpoint spec_run (is_present : bool) (k : KalmanFilter) (run : list Row)
  : result (list mat * list mat * KalmanFilter) :=
  match run with
  | [] => ret ([], [], k)
  | r :: rest =>
      k1 <- (if is_present
             then update (predict k) (Some (column [row_x r; row_y r]))
             else ret (predict k)) ;;
      '(ms, cs, k2) <- spec_run is_present k1 rest ;;
      ret (kf_x k1 :: ms, kf_P k1 :: cs, k2)
  end.

(** Run after run; the state and covariance a run ends with are what the
    next run starts from. *)
Fixpoint spec_runs (k : KalmanFilter) (rs : list (list Row))
  : result (list mat * list mat * KalmanFilter) :=
  match rs with
  | [] => ret ([], [], k)
  | run :: more =>
      '(m, c, k1) <- spec_run (forallb present run) k run ;;
      '(ms, cs, k2) <- spec_runs k1 more ;;
      ret (m ++ ms, c ++ cs, k2)
  end.

Definition spec_run_filter (k : KalmanFilter) (df : list Row)
  : result (list mat * list mat * KalmanFilter) :=
  spec_runs k (runs present df).

(** The same, frame by frame, with no mention of runs. *)
Fixpoint filter_frames (k : KalmanFilter) (df : list Row)
  : result (list mat * list mat * KalmanFilter) :=
  match df with
  | [] => ret ([], [], k)
  | r :: rest =>
      k1 <- (if present r
             then update (predict k) (Some (column [row_x r; row_y r]))
             else ret (predict k)) ;;
      '(ms, cs, k2) <- filter_frames k1 rest ;;
      ret (kf_x k1 :: ms, kf_P k1 :: cs, k2)
  end.

(** ** Notions used in the proofs *)

(** Equality of arrays, entry by entry. *)
Definition mat_eq : mat -> mat -> Prop := Forall2 (Forall2 num_eq).

(** The six-dimensional state [x, vx, ax, y, vy, ay] as filterpy keeps it. *)
Definition state (px vx ax py vy ay : Q) : mat :=
  column [Some px; Some vx; Some ax; Some py; Some vy; Some ay].

(** The two axes of the state: indices 0-2 and 3-5. *)
Definition axis_of (i : nat) : nat := i / 3.

(** [ascending l]: every element is below all the later ones. *)
Fixpoint ascending (l : list Z) : Prop :=
  match l with
  | [] => True
  | h :: t => Forall (Z.lt h) t /\ ascending t
  end.

(** [x] is missing in the row. *)
Definition x_missing (r : Row) : bool := isna (row_x r).

(** The block numbers of [run_filter], as a recursion over the rows: [acc]
    is the number reached so far and [prev] the status of the row before. *)
Fixpoint blocks_from (acc : nat) (prev : bool) (l : list Row) : list nat :=
  match l with
  | [] => []
  | r :: t =>
      let acc' := if negb (Bool.eqb (x_missing r) prev) then S acc else acc in
      acc' :: blocks_from acc' (x_missing r) t
  end.

Definition first_block (acc : nat) (prev : bool) (l : list Row) : nat :=
  match l with
  | [] => acc
  | r :: _ => if negb (Bool.eqb (x_missing r) prev) then S acc else acc
  end.

(** Runs numbered from [b] on, each member with the number of its run. *)
Fixpoint number (b : nat) (rs : list (list Row)) : list (Z * list (nat * Row)) :=
  match rs with
  | [] => []
  | run :: more => (Z.of_nat b, map (pair b) run) :: number (S b) more
  end.

(** Neighbouring runs differ in status. *)
Fixpoint boundaries_differ {A} (st : A -> bool) (rs : list (list A)) : Prop :=
  match rs with
  | [] => True
  | r1 :: more =>
      match more with
      | [] => True
      | r2 :: _ => (forall a b, In a r1 -> In b r2 -> st a <> st b)
      end /\ boundaries_differ st more
  end.

(** [rs] is the partition of [l] into maximal runs of constant status. *)
Definition maximal_runs {A} (st : A -> bool) (l : list A) (rs : list (list A)) : Prop :=
  concat rs = l
  /\ Forall (fun run => run <> [] /\ forall a b, In a run -> In b run -> st a = st b) rs
  /\ boundaries_differ st rs.

(** The arrays of the groups, stacked. *)
Definition stacked (res : result (list (list mat) * list (list mat) * KalmanFilter))
  : result (list mat * list mat * KalmanFilter) :=
  '(ms, cs, k') <- res ;; ret (concat ms, concat cs, k').

(** The twelve columns that [kalman] writes, in the order of writing. *)
Definition twelve : list string := kalman_columns ++ rts_columns.

(** The column names after an assignment to column [c]. *)
Definition add_name (c : string) (names : list string) : list string :=
  if existsb (String.eqb c) names then names else names ++ [c].

(** [df'] is [df] with the columns [names] added after the columns of [df]:
    same rows, same old columns, and one value per row in each new column. *)
Definition extends (df : DataFrame) (names : list string) (df' : DataFrame) : Prop :=
  rows df' = rows df
  /\ exists new,
       cols df' = cols df ++ new
       /\ map fst new = names
       /\ Forall (fun cv => length (snd cv) = length (rows df)) new.

(** ** Notions of the specification about homographies *)

(** The determinant of a 3 x 3 matrix. *)
Definition det3 (m : mat) : num :=
  let e := entry m in
  (nadd (nsub (nmul (e 0 0) (nsub (nmul (e 1 1) (e 2 2)) (nmul (e 1 2) (e 2 1))))
              (nmul (e 0 1) (nsub (nmul (e 1 0) (e 2 2)) (nmul (e 1 2) (e 2 0)))))
        (nmul (e 0 2) (nsub (nmul (e 1 0) (e 2 1)) (nmul (e 1 1) (e 2 0)))))%nat.

Definition non_invertible (m : mat) : bool := is_zero (det3 m).

(** [r] lies on the line through [p] and [q]. *)
Definition on_line (p q r : num * num) : bool :=
  is_zero (nsub (nmul (nsub (fst q) (fst p)) (nsub (snd r) (snd p)))
                (nmul (nsub (snd q) (snd p)) (nsub (fst r) (fst p)))).

(** All the points lie on the line through the first two. *)
Definition collinear (pts : points) : bool :=
  match pts with
  | p :: q :: rest => forallb (on_line p q) rest
  | _ => true
  end.

(** A fit is degenerate when the point configuration is collinear or the
    fitted matrix is not invertible. *)
Definition degenerate (pts_src : points) (fit : option mat) : bool :=
  collinear pts_src ||
  match fit with
  | Some h => non_invertible h
  | None => false
  end.

(** ** Further notions used in the properties *)

(** [df'] has the rows of [df], and every column of [df] that is not called
    by one of the twelve names is in [df'] at the same place with the same
    values. *)
Definition untouched (df df' : DataFrame) : Prop :=
  rows df' = rows df
  /\ forall i n v,
       nth_error (cols df) i = Some (n, v) -> ~ In n twelve ->
       nth_error (cols df') i = Some (n, v).

(** The column names after all twelve assignments of one round of the loop
    of [kalman]. *)
Definition names_after (names : list string) : list string :=
  fold_left (fun ns c => add_name c ns) twelve names.

(** The transition matrix of [kalman_filter] for the step [dt]. *)
Definition transition (dt : num) : mat :=
  let o := of_Z 0 in
  let i := of_Z 1 in
  let h := nmul (nmul (fin (1#2)) dt) dt in
  [ [i; dt; h;  o; o;  o];
    [o; i;  dt; o; o;  o];
    [o; o;  i;  o; o;  o];
    [o; o;  o;  i; dt; h];
    [o; o;  o;  o; i;  dt];
    [o; o;  o;  o; o;  i] ].

(** Motion at constant acceleration for [n] steps of length [dt], from
    position [p], velocity [v] and acceleration [a] on each axis. *)
Definition extrapolate (px vx ax py vy ay dt : Q) (n : nat) : mat :=
  let t := (inject_Z (Z.of_nat n) * dt)%Q in
  state (px + vx * t + (1 # 2) * ax * (t * t)) (vx + ax * t) ax
        (py + vy * t + (1 # 2) * ay * (t * t)) (vy + ay * t) ay.

(** Every column has one value per row. *)
Definition well_formed (df : DataFrame) : Prop :=
  Forall (fun cv => length (snd cv) = length (rows df)) (cols df).

(** The place of the first row labelled [l]. *)
Fixpoint position (l : Z) (rws : list Row) : option nat :=
  match rws with
  | [] => None
  | r :: t => if row_index r =? l then Some 0%nat else option_map S (position l t)
  end.

(** The values of the first column called [c]. *)
Fixpoint get_col (c : string) (cs : list (string * list num)) : option (list num) :=
  match cs with
  | [] => None
  | nv :: t => if String.eqb (fst nv) c then Some (snd nv) else get_col c t
  end.

(** [df.loc[l, c]]: the value in column [c] of the row labelled [l]. *)
Definition cell (df : DataFrame) (c : string) (l : Z) : option num :=
  match get_col c (cols df), position l (rows df) with
  | Some v, Some i => nth_error v i
  | _, _ => None
  end.

(** Assignments at the same labels to one column after the other. *)
Definition write_all (labels : list Z) (ws : list (string * list num)) (df : DataFrame)
  : DataFrame :=
  fold_left (fun d w => loc_set labels (fst w) (snd w) d) ws df.

(** The twelve assignments of one round of the loop of [kalman]. *)
Definition track_writes (mu mu_rts : list mat) : list (string * list num) :=
  combine twelve
    (map (fun t => comp t mu) (seq 0 6) ++ map (fun t => comp t mu_rts) (seq 0 6)).

Definition labels_of (g : Z * list Row) : list Z := map row_index (snd g).

(** No label of a group is a label of a later group. *)
Fixpoint separated (gs : list (Z * list Row)) : Prop :=
  match gs with
  | [] => True
  | g :: t =>
      (forall g' l, In g' t -> In l (labels_of g) -> ~ In l (labels_of g'))
      /\ separated t
  end.

(** The dataframe holds, in the rows of the track [gdf], the forward and the
    smoothed means that the loop body computes for the track: the row that
    is number [j] of the track has the components of the [j]-th means. *)
Definition track_written (gdf : list Row) (df' : DataFrame) : Prop :=
  exists kf mu cov kf' mu_rts cov_rts K Pp,
    init_filter gdf = ret kf
    /\ run_filter kf gdf = ret (mu, cov, kf')
    /\ rts_smoother kf' mu cov = ret (mu_rts, cov_rts, K, Pp)
    /\ forall j r, nth_error gdf j = Some r ->
       forall t, (t < 6)%nat ->
         cell df' (nth t kalman_columns "") (row_index r) = Some (entry (nth j mu []) t 0)
         /\ cell df' (nth t rts_columns "") (row_index r)
            = Some (entry (nth j mu_rts []) t 0).

(** A state in which every component is NaN. *)
Definition nan6 : mat := column (repeat NaN 6).

(** [m] has [n] rows of [w] entries. *)
Definition rect (n w : nat) (m : mat) : Prop :=
  length m = n /\ Forall (fun r => length r = w) m.

(** The measurement and noise matrices of [kalman_filter] for one sensor. *)
Definition H1 : mat :=
  [ [of_Z 1; of_Z 0; of_Z 0; of_Z 0; of_Z 0; of_Z 0];
    [of_Z 0; of_Z 0; of_Z 0; of_Z 1; of_Z 0; of_Z 0] ].
Definition R1 : mat := mscale (eye 2) (nmul (of_Z 15) (of_Z 15)).

(** A filter object as [kalman] builds it for the step [dt], at any moment
    of a forward pass: the matrices of the model are those of
    [kalman_filter], and the state is a column of six numbers. *)
Definition kalman_shaped (dt : num) (k : KalmanFilter) : Prop :=
  dim_x k = 6%nat
  /\ kf_F k = transition dt
  /\ kf_H k = H1
  /\ kf_R k = R1
  /\ rect 6 6 (kf_Q k)
  /\ rect 6 1 (kf_x k).



(** [pad(X, val)] of [pixelmapper.py]: [np.pad(X, ((0, 0), (0, 1)),
    constant_values=val).T], for a 2-d array [X] with at least one row (a
    list of rows cannot tell the arrays of shape [(0, w)] apart).  Every
    row gets [val] as a further entry, and the result is transposed.  The
    parameter [val] has the default 1. *)
Definition pad (X : mat) (val : num) : mat :=
  transpose (map (fun r => r ++ [val]) X).
Definition pad_default_val : num := of_Z 1.

(** Two filter objects that differ at most in the state [x]. *)
Definition same_model (k1 k2 : KalmanFilter) : Prop :=
  dim_x k1 = dim_x k2 /\ kf_F k1 = kf_F k2 /\ kf_H k1 = kf_H k2
  /\ kf_R k1 = kf_R k2 /\ kf_Q k1 = kf_Q k2 /\ kf_P k1 = kf_P k2.

(** Which of its two coordinates a row lacks. *)
Definition status (r : Row) : bool * bool := (isna (row_x r), isna (row_y r)).

(** Two runs of a filtering function end alike: with the same exception, or
    with the same covariances and filters that differ at most in the
    state. *)
Definition alike {A : Type} (r1 r2 : result (A * list mat * KalmanFilter)) : Prop :=
  match r1, r2 with
  | inr (_, c1, k1), inr (_, c2, k2) => c1 = c2 /\ same_model k1 k2
  | inl e1, inl e2 => e1 = e2
  | _, _ => False
  end.

(** * Example data *)

(** A track whose first rows lack a measurement. *)
Definition track_late_start : list Row :=
  [ mkRow 0 7 NaN NaN;
    mkRow 1 7 (of_Z 3) NaN;
    mkRow 2 7 (of_Z 4) (of_Z 9);
    mkRow 3 7 (of_Z 5) (of_Z 8) ].


(** Two tracks: track 1 never has a measurement, track 2 always has one. *)
Definition df_one_bad_track : DataFrame :=
  mkDF [ mkRow 0 1 NaN NaN;
         mkRow 1 2 (of_Z 1) (of_Z 1);
         mkRow 2 1 NaN (of_Z 5);
         mkRow 3 2 (of_Z 2) (of_Z 2) ]
       [("frame", [of_Z 0; of_Z 0; of_Z 1; of_Z 1])].

(** Three tracks, of which the second never has a measurement. *)
Definition df_middle_bad_track : DataFrame :=
  mkDF [ mkRow 0 1 (of_Z 1) (of_Z 1);
         mkRow 1 2 NaN NaN;
         mkRow 2 3 (of_Z 4) (of_Z 4) ]
       [].

(** A single track without any measurement. *)
Definition df_no_measurement : DataFrame :=
  mkDF [ mkRow 0 1 NaN NaN; mkRow 1 1 (of_Z 2) NaN; mkRow 2 1 NaN (of_Z 3) ] [].

(** A track whose second frame has [x] but not [y]. *)
Definition track_y_gap : list Row :=
  [ mkRow 0 1 (of_Z 1) (of_Z 1);
    mkRow 1 1 (of_Z 2) NaN;
    mkRow 2 1 (of_Z 3) (of_Z 3) ].

(** A track with a gap of two frames in which both coordinates are missing. *)
Definition track_xy_gap : list Row :=
  [ mkRow 0 1 (of_Z 1) (of_Z 1);
    mkRow 1 1 NaN NaN;
    mkRow 2 1 NaN NaN;
    mkRow 3 1 (of_Z 4) (of_Z 4) ].

(** A track whose first frame has [x] but not [y]. *)
Definition track_y_late : list Row :=
  [ mkRow 0 1 (of_Z 1) NaN;
    mkRow 1 1 (of_Z 2) (of_Z 2);
    mkRow 2 1 (of_Z 3) (of_Z 3) ].

(** The filter that [kalman] would build for a track starting at (1, 1). *)
Definition kfilter_11 : KalmanFilter :=
  match kalman_filter (of_Z 1) (of_Z 1) (ndiv (of_Z 1) (of_Z 30)) 1 with
  | inr kfilter => kfilter
  | inl _ => mkKF 0 0 [] [] [] [] [] []
  end.

(** A dataframe without rows. *)
Definition df_empty : DataFrame := mkDF [] [("frame", [])].

(** A dataframe that already has a column called [kalman_x]. *)
Definition df_with_kalman_x : DataFrame :=
  mkDF [ mkRow 0 1 (of_Z 1) (of_Z 1) ]
       [("frame", [of_Z 0]); ("kalman_x", [of_Z 42])].

(** Two tracks with measurements, interleaved, and a frame column. *)
Definition df_two_tracks : DataFrame :=
  mkDF [ mkRow 0 2 (of_Z 1) (of_Z 1);
         mkRow 1 1 (of_Z 5) (of_Z 5);
         mkRow 2 2 NaN NaN;
         mkRow 3 1 (of_Z 6) (of_Z 6);
         mkRow 4 2 (of_Z 3) (of_Z 3) ]
       [("frame", [of_Z 0; of_Z 0; of_Z 1; of_Z 1; of_Z 2])].

(** Four points on the diagonal, and the corners of the unit square. *)
Definition pts_on_a_line : points :=
  [ (of_Z 0, of_Z 0); (of_Z 100, of_Z 100); (of_Z 200, of_Z 200); (of_Z 300, of_Z 300) ].
Definition pts_unit_square : points :=
  [ (of_Z 0, of_Z 0); (of_Z 1, of_Z 0); (of_Z 1, of_Z 1); (of_Z 0, of_Z 1) ].

(** The matrix that sends every point to the line [y = x]; its determinant
    is zero. *)
Definition h_singular : mat :=
  [ [of_Z 1; of_Z 0; of_Z 0];
    [of_Z 1; of_Z 0; of_Z 0];
    [of_Z 0; of_Z 0; of_Z 1] ].

(** An OpenCV for the examples: its homography fit gives the answer [fit],
    its undistortion leaves the points where they are, and its projective
    transform refuses a missing matrix and otherwise divides by the third
    homogeneous coordinate. *)
Definition opencv_answering (fit : result (option mat * list bool)) : OpenCV :=
  {| findHomography := fun _ _ _ _ => fit;
     undistortPoints := fun X _ _ _ => ret X;
     fisheye_undistortPoints := fun X _ _ _ => ret X;
     perspectiveTransform := fun X M =>
       match M with
       | None => raise cv_error
       | Some m =>
           ret (map (fun p =>
                  let v := column [fst p; snd p; of_Z 1] in
                  let t := dot m v in
                  (ndiv (entry t 0 0) (entry t 2 0), ndiv (entry t 1 0) (entry t 2 0))) X)
       end |}.

(** A mapper with a homography and no intrinsic calibration. *)
Definition pm_scale : PixelMapper :=
  mkPixelMapper None None None
    (Some [ [fin (1 # 100); of_Z 0; of_Z 0];
            [of_Z 0; fin (1 # 100); of_Z 0];
            [of_Z 0; of_Z 0; of_Z 1] ])
    false.

(** Three tracks, the second without a measurement, in a dataframe that has a
    column [rts_x] from an earlier run and a frame column. *)
Definition df_middle_bad_track_frames : DataFrame :=
  mkDF [ mkRow 10 1 (of_Z 1) (of_Z 1);
         mkRow 11 2 NaN NaN;
         mkRow 12 3 (of_Z 4) (of_Z 4) ]
       [("rts_x", [of_Z 7; of_Z 8; of_Z 9]); ("frame", [of_Z 0; of_Z 0; of_Z 0])].

(** A track that begins with two frames without [x]. *)
Definition track_leading_gap : list Row :=
  [ mkRow 0 7 NaN NaN;
    mkRow 1 7 NaN (of_Z 3);
    mkRow 2 7 (of_Z 4) (of_Z 9);
    mkRow 3 7 (of_Z 5) (of_Z 8) ].

(** Two tracks, interleaved; the second frame of track 1 has [x] but not [y]. *)
Definition df_y_gap : DataFrame :=
  mkDF [ mkRow 0 1 (of_Z 1) (of_Z 1);
         mkRow 1 2 (of_Z 5) (of_Z 5);
         mkRow 2 1 (of_Z 2) NaN;
         mkRow 3 2 (of_Z 6) (of_Z 6);
         mkRow 4 1 (of_Z 3) (of_Z 3) ]
       [("frame", [of_Z 0; of_Z 0; of_Z 1; of_Z 1; of_Z 2])].

(** A track with the gap of [track_xy_gap] at other coordinates. *)
Definition track_xy_gap_far : list Row :=
  [ mkRow 0 1 (of_Z 10) (of_Z 20);
    mkRow 1 1 NaN NaN;
    mkRow 2 1 NaN NaN;
    mkRow 3 1 (of_Z 40) (of_Z 45) ].
(** * Properties *)

Unset Implicit Arguments.

(** ** The motion model *)

Lemma Qred_eq : forall q : Q, Qred q == q.
Proof. exact Qred_correct. Qed.

Lemma ret_inj : forall (A : Type) (a b : A), ret a = ret b -> a = b.
Proof. intros A a b H. injection H as ->. reflexivity. Qed.

(** C5.  The transition matrix built by [kalman_filter] is 6 x 6 and is
    the constant-acceleration kinematics for the step [dt]: one prediction takes
    a position to [p + v dt + a dt^2 / 2], a velocity to [v + a dt] and
    leaves an acceleration as it is, on each axis; and every entry of the
    matrix that links one axis to the other is zero. *)
Theorem transition_matrix_kinematics :
  forall (sx sy : num) (nsensors : nat) (k : KalmanFilter) (dt px vx ax py vy ay : Q),
    kalman_filter sx sy (Some dt) nsensors = ret k ->
    (length (kf_F k) = 6%nat /\ Forall (fun row => length row = 6%nat) (kf_F k))
    /\ mat_eq (kf_x (predict (set_x k (state px vx ax py vy ay))))
              (state (px + vx * dt + (1 # 2) * ax * (dt * dt)) (vx + ax * dt) ax
                     (py + vy * dt + (1 # 2) * ay * (dt * dt)) (vy + ay * dt) ay)
    /\ (forall i j, (i < 6)%nat -> (j < 6)%nat -> axis_of i <> axis_of j ->
          entry (kf_F k) i j = of_Z 0).
Proof.
  intros sx sy nsensors k dt px vx ax py vy ay Hk.
  unfold kalman_filter, KalmanFilter_init in Hk.
  destruct (2 * nsensors <? 1)%nat; [discriminate Hk|].
  change (6 <? 1)%nat with false in Hk. cbv beta iota delta [bind] in Hk.
  apply ret_inj in Hk. subst k.
  split; [split; [reflexivity | repeat constructor] | split].
  - unfold mat_eq, state, column, predict.
    cbn -[Qred Qplus Qmult Qminus].
    repeat constructor; cbn -[Qred Qplus Qmult Qminus];
      rewrite ?Qred_eq; ring.
  - intros i j Hi Hj Hax.
    do 6 (destruct i as [|i]; [ do 6 (destruct j as [|j]; [ first [ reflexivity | exfalso; apply Hax; reflexivity ] | ]); lia | ]).
    lia.
Qed.

Lemma transition_matrix_kinematics_witness :
  mat_eq (kf_x (predict (set_x kfilter_11 (state 10 30 60 0 (-30) 0))))
         (state (10 + 30 * (1 # 30) + (1 # 2) * 60 * ((1 # 30) * (1 # 30)))
                (30 + 60 * (1 # 30)) 60
                (0 + (-30) * (1 # 30) + (1 # 2) * 0 * ((1 # 30) * (1 # 30)))
                (-30 + 0 * (1 # 30)) 0)
  /\ entry (kf_F kfilter_11) 0 3 = of_Z 0.
Proof.
  destruct (transition_matrix_kinematics (of_Z 1) (of_Z 1) 1 kfilter_11
              (1 # 30) 10 30 60 0 (-30) 0 eq_refl) as [_ [Hstep Hzero]].
  split; [exact Hstep|].
  apply (Hzero 0%nat 3%nat); [lia | lia | vm_compute; discriminate].
Defined.

(** ** The initial state of a track's filter *)

Lemma iloc0_filter_find :
  forall (A B : Type) (f : A -> bool) (g : A -> B) (l : list A) (r : A),
    find f l = Some r -> iloc0 (map g (filter f l)) = ret (g r).
Proof.
  intros A B f g l r. induction l as [|a l IH]; simpl.
  - discriminate.
  - destruct (f a) eqn:Fa.
    + intros H. injection H as ->. reflexivity.
    + exact IH.
Qed.

Lemma iloc0_filter_none :
  forall (A B : Type) (f : A -> bool) (g : A -> B) (l : list A),
    find f l = None -> iloc0 (map g (filter f l)) = raise IndexError.
Proof.
  intros A B f g l. induction l as [|a l IH]; simpl.
  - reflexivity.
  - destruct (f a); [discriminate | exact IH].
Qed.

Lemma diag15_entries :
  forall i j, (i < 6)%nat -> (j < 6)%nat ->
    entry (mscale (eye 6) (of_Z 15)) i j = if Nat.eqb i j then of_Z 15 else of_Z 0.
Proof.
  intros i j Hi Hj.
  do 6 (destruct i as [|i]; [ do 6 (destruct j as [|j]; [ reflexivity | ]); lia | ]).
  lia.
Qed.

(** C7.  When [r] is the first row of the track in which both [x] and [y]
    are present, the filter that [kalman] builds for the track starts at
    position [(x r, y r)] with zero velocity and zero acceleration on both
    axes, and its covariance is diagonal (15 on the diagonal, 0 elsewhere). *)
Theorem initial_state_first_valid :
  forall (gdf : list Row) (r : Row),
    find start_idx gdf = Some r ->
    exists k,
      init_filter gdf = ret k
      /\ kf_x k = column [row_x r; of_Z 0; of_Z 0; row_y r; of_Z 0; of_Z 0]
      /\ (forall i j, (i < 6)%nat -> (j < 6)%nat ->
            entry (kf_P k) i j = if Nat.eqb i j then of_Z 15 else of_Z 0).
Proof.
  intros gdf r Hfind.
  unfold init_filter.
  rewrite (iloc0_filter_find _ _ start_idx row_x gdf r Hfind).
  rewrite (iloc0_filter_find _ _ start_idx row_y gdf r Hfind).
  cbn [bind ret].
  eexists. split; [reflexivity|]. split.
  - reflexivity.
  - intros i j Hi Hj. apply diag15_entries; assumption.
Qed.

Lemma initial_state_first_valid_witness :
  exists k,
    init_filter track_late_start = ret k
    /\ kf_x k = column [of_Z 4; of_Z 0; of_Z 0; of_Z 9; of_Z 0; of_Z 0]
    /\ (forall i j, (i < 6)%nat -> (j < 6)%nat ->
          entry (kf_P k) i j = if Nat.eqb i j then of_Z 15 else of_Z 0).
Proof.
  apply (initial_state_first_valid track_late_start (mkRow 2 7 (of_Z 4) (of_Z 9))).
  reflexivity.
Defined.

(** ** Failures in [kalman] *)

Lemma find_all_false :
  forall (A : Type) (f : A -> bool) (l : list A),
    (forall a, In a l -> f a = false) -> find f l = None.
Proof.
  intros A f l. induction l as [|a l IH]; intros H; simpl.
  - reflexivity.
  - rewrite (H a (or_introl eq_refl)). apply IH. intros b Hb. apply H. right. exact Hb.
Qed.

Lemma init_filter_no_measurement :
  forall gdf, (forall r, In r gdf -> start_idx r = false) ->
    init_filter gdf = raise IndexError.
Proof.
  intros gdf H. unfold init_filter.
  rewrite (iloc0_filter_none _ _ start_idx row_x gdf (find_all_false _ _ _ H)).
  reflexivity.
Qed.

Lemma kalman_track_no_measurement :
  forall gdf df, (forall r, In r gdf -> start_idx r = false) ->
    kalman_track gdf df = (raise IndexError, df).
Proof.
  intros gdf df H. unfold kalman_track, bindM, lift.
  rewrite (init_filter_no_measurement gdf H). reflexivity.
Qed.

Lemma sorted_keys_nonempty :
  forall ks, ks <> [] -> sorted_keys ks <> [].
Proof.
  intros [|k ks] H; [congruence|]. simpl.
  destruct (sorted_keys ks) as [|h t]; simpl; [discriminate|].
  destruct (k <? h); [discriminate|]. destruct (k =? h); discriminate.
Qed.

Lemma groupby_members :
  forall (A : Type) (key : A -> Z) (l : list A) (k : Z) (g : list A),
    In (k, g) (groupby key l) -> g = filter (fun a => key a =? k) l.
Proof.
  intros A key l k g H. unfold groupby in H.
  apply in_map_iff in H. destruct H as [k' [E _]].
  injection E as -> ->. reflexivity.
Qed.

Lemma groupby_nonempty :
  forall (A : Type) (key : A -> Z) (l : list A),
    l <> [] -> groupby key l <> [].
Proof.
  intros A key l H. unfold groupby.
  assert (K : sorted_keys (map key l) <> []).
  { apply sorted_keys_nonempty. destruct l; [congruence | discriminate]. }
  destruct (sorted_keys (map key l)); [congruence | discriminate].
Qed.

(** C3 (as the code has it).  A track in which no row has both [x] and [y]
    present makes the loop body of [kalman] raise [IndexError], before
    anything is written; and [kalman] on a dataframe of such rows alone ends
    with that [IndexError]. *)
Theorem no_measurement_raises_IndexError :
  forall gdf : list Row,
    (forall r, In r gdf -> start_idx r = false) ->
    (forall df, kalman_track gdf df = (raise IndexError, df))
    /\ (gdf <> [] -> forall cs, kalman (mkDF gdf cs) = Raised IndexError (mkDF gdf cs)).
Proof.
  intros gdf H. split.
  - intros df. apply kalman_track_no_measurement. exact H.
  - intros Hne cs. unfold kalman. cbn [rows].
    pose proof (groupby_nonempty _ row_trackingId gdf Hne) as G.
    destruct (groupby row_trackingId gdf) as [|[k g] rest] eqn:E; [congruence|].
    assert (Hg : g = filter (fun a => row_trackingId a =? k) gdf).
    { apply groupby_members. rewrite E. left. reflexivity. }
    cbn [for_each_track]. unfold bindM.
    rewrite kalman_track_no_measurement; [reflexivity|].
    intros r Hr. apply H. rewrite Hg in Hr. apply filter_In in Hr. tauto.
Qed.

Lemma no_measurement_raises_IndexError_witness :
  kalman df_no_measurement = Raised IndexError df_no_measurement.
Proof.
  apply (proj2 (no_measurement_raises_IndexError (rows df_no_measurement)
                  ltac:(intros r Hr; simpl in Hr;
                        repeat (destruct Hr as [<-|Hr]; [reflexivity|]);
                        contradiction))).
  discriminate.
Defined.

(** C3 as the specification words it fails: the exception is an
    [IndexError], not an [UninitializedTrackError]. *)
Lemma no_measurement_not_UninitializedTrackError :
  kalman df_no_measurement = Raised IndexError df_no_measurement
  /\ forall df', kalman df_no_measurement <> Raised (Exn "UninitializedTrackError") df'.
Proof.
  assert (E : kalman df_no_measurement = Raised IndexError df_no_measurement)
    by (vm_compute; reflexivity).
  split; [exact E|]. intros df' H. rewrite E in H. discriminate H.
Qed.

(** C2 (as the code has it).  Nothing in [kalman] catches an exception:
    when the tracks before [gdf] (in ascending [trackingId]) are processed
    and the body raises [e] on [gdf], [kalman] ends with [e], the dataframe
    staying as it was at that point; the tracks after [gdf] are not
    processed. *)
Theorem track_failure_aborts_batch :
  forall (df df1 df2 : DataFrame) (before after : list (Z * list Row))
         (tid : Z) (gdf : list Row) (e : exn),
    groupby row_trackingId (rows df) = before ++ (tid, gdf) :: after ->
    for_each_track before df = (ret tt, df1) ->
    kalman_track gdf df1 = (raise e, df2) ->
    kalman df = Raised e df2.
Proof.
  intros df df1 df2 before after tid gdf e Hg Hb Hf.
  unfold kalman. rewrite Hg. clear Hg.
  revert df Hb. induction before as [|[k g] before IH]; intros df Hb.
  - cbn in Hb. injection Hb as <-.
    cbn [app for_each_track]. unfold bindM. rewrite Hf. reflexivity.
  - cbn [app for_each_track] in *. unfold bindM in *.
    destruct (kalman_track g df) as [[e'|[]] df'] eqn:Ek.
    + discriminate Hb.
    + apply IH. exact Hb.
Qed.

Lemma track_failure_aborts_batch_witness :
  exists df1,
    kalman df_middle_bad_track = Raised IndexError df1
    /\ col_names df1 = kalman_columns ++ rts_columns
    /\ map (fun c => skipn 1 (snd c)) (cols df1) = repeat [NaN; NaN] 12.
Proof.
  eexists. split.
  - eapply (track_failure_aborts_batch df_middle_bad_track _ _
              [(1, [mkRow 0 1 (of_Z 1) (of_Z 1)])]
              [(3, [mkRow 2 3 (of_Z 4) (of_Z 4)])]
              2 [mkRow 1 2 NaN NaN] IndexError).
    + reflexivity.
    + vm_compute. reflexivity.
    + vm_compute. reflexivity.
  - split; reflexivity.
Defined.

(** In particular, one track without any measurement is enough for [kalman]
    to end with an exception, wherever the track comes in the order. *)
Lemma track_without_measurement_aborts_batch :
  forall (df : DataFrame) (tid : Z) (gdf : list Row),
    In (tid, gdf) (groupby row_trackingId (rows df)) ->
    (forall r, In r gdf -> start_idx r = false) ->
    exists e df', kalman df = Raised e df'.
Proof.
  intros df tid gdf Hin Hbad. unfold kalman.
  generalize df at 2. revert Hin.
  induction (groupby row_trackingId (rows df)) as [|[k g] gs IH]; intros Hin d.
  - contradiction.
  - cbn [for_each_track]. unfold bindM.
    destruct (kalman_track g d) as [[e|[]] d'] eqn:Ek.
    + exists e, d'. reflexivity.
    + destruct Hin as [E|Hin].
      * injection E as -> ->.
        rewrite (kalman_track_no_measurement gdf d Hbad) in Ek. discriminate Ek.
      * apply IH. exact Hin.
Qed.

(** C2 as the specification words it fails: with one track that cannot be
    initialised, [kalman] returns nothing, and the track that could be
    processed gets no output. *)
Lemma failure_is_not_isolated :
  kalman df_one_bad_track = Raised IndexError df_one_bad_track
  /\ ~ exists df', kalman df_one_bad_track = Returned df'.
Proof.
  assert (E : kalman df_one_bad_track = Raised IndexError df_one_bad_track)
    by (vm_compute; reflexivity).
  split; [exact E|]. intros [df' H]. rewrite E in H. discriminate H.
Qed.

(** ** Grouping by sorted keys *)

Lemma insert_key_In :
  forall k j l, In j (insert_key k l) <-> j = k \/ In j l.
Proof.
  intros k j l. induction l as [|h t IH]; simpl.
  - intuition congruence.
  - destruct (Z.ltb_spec k h).
    + simpl. intuition congruence.
    + destruct (Z.eqb_spec k h).
      * subst. simpl. intuition congruence.
      * simpl. rewrite IH. intuition congruence.
Qed.

Lemma sorted_keys_In :
  forall ks j, In j (sorted_keys ks) <-> In j ks.
Proof.
  intros ks j. induction ks as [|k ks IH]; simpl.
  - tauto.
  - rewrite insert_key_In, IH. intuition congruence.
Qed.

Lemma insert_key_ascending :
  forall k l, ascending l -> ascending (insert_key k l).
Proof.
  intros k l. induction l as [|h t IH]; simpl; intros H.
  - split; [constructor | exact I].
  - destruct H as [Hh Ht].
    destruct (Z.ltb_spec k h).
    + simpl. repeat split; try assumption.
      constructor; [assumption|].
      eapply Forall_impl; [|exact Hh]. intros a Ha. cbn beta in Ha. lia.
    + destruct (Z.eqb_spec k h).
      * simpl. tauto.
      * simpl. split; [|apply IH; exact Ht].
        apply Forall_forall. intros j Hj. apply insert_key_In in Hj.
        destruct Hj as [->|Hj]; [lia|].
        rewrite Forall_forall in Hh. apply Hh. exact Hj.
Qed.

Lemma sorted_keys_ascending : forall ks, ascending (sorted_keys ks).
Proof.
  induction ks as [|k ks IH]; simpl; [exact I|].
  apply insert_key_ascending. exact IH.
Qed.

(** Putting in front of a list an element whose key is not above any key of
    the list: it joins the first group when that group has its key, and is a
    new first group otherwise. *)
Lemma groupby_cons_min :
  forall (A : Type) (key : A -> Z) (a : A) (l : list A),
    (forall b, In b l -> key a <= key b) ->
    groupby key (a :: l) =
      match groupby key l with
      | [] => [(key a, [a])]
      | (k, g) :: more =>
          if k =? key a then (k, a :: g) :: more
          else (key a, [a]) :: (k, g) :: more
      end.
Proof.
  intros A key a l Hmin. unfold groupby. cbn [map sorted_keys fold_right].
  fold (sorted_keys (map key l)).
  pose proof (sorted_keys_In (map key l)) as HIn.
  pose proof (sorted_keys_ascending (map key l)) as Hasc.
  assert (Hge : forall j, In j (sorted_keys (map key l)) -> key a <= j).
  { intros j Hj. apply HIn in Hj. apply in_map_iff in Hj.
    destruct Hj as [b [<- Hb]]. apply Hmin. exact Hb. }
  destruct (sorted_keys (map key l)) as [|h t] eqn:E.
  - destruct l as [|b l].
    + cbn. rewrite Z.eqb_refl. reflexivity.
    + exfalso. assert (In (key b) []) as []. apply HIn. left. reflexivity.
  - cbn [insert_key].
    assert (Hh : key a <= h) by (apply Hge; left; reflexivity).
    destruct Hasc as [Hht Hasc].
    assert (Htail : forall j, In j t ->
              filter (fun b => key b =? j) (a :: l) = filter (fun b => key b =? j) l).
    { intros j Hj. cbn [filter].
      rewrite Forall_forall in Hht. specialize (Hht j Hj).
      destruct (Z.eqb_spec (key a) j); [lia | reflexivity]. }
    destruct (Z.ltb_spec (key a) h) as [Hlt|Hnlt].
    + cbn [map]. rewrite (proj2 (Z.eqb_neq h (key a))) by lia.
      f_equal.
      * cbn [filter]. rewrite Z.eqb_refl. f_equal. f_equal.
        assert (Hnone : forall b, In b l -> (key b =? key a) = false).
        { intros b Hb. apply Z.eqb_neq.
          assert (In (key b) (h :: t)) as Hk
            by (apply HIn; apply in_map; exact Hb).
          destruct Hk as [<-|Hk]; [lia|].
          rewrite Forall_forall in Hht. specialize (Hht _ Hk). lia. }
        clear - Hnone. induction l as [|b l IH]; [reflexivity|].
        cbn [filter]. rewrite (Hnone b (or_introl eq_refl)).
        apply IH. intros c Hc. apply Hnone. right. exact Hc.
      * f_equal.
        -- f_equal. cbn [filter].
           destruct (Z.eqb_spec (key a) h); [lia | reflexivity].
        -- apply map_ext_in. intros j Hj. rewrite Htail by exact Hj. reflexivity.
    + assert (key a = h) as Hk by lia.
      rewrite (proj2 (Z.eqb_eq (key a) h) Hk).
      cbn [map]. rewrite (proj2 (Z.eqb_eq h (key a))) by lia.
      f_equal.
      * f_equal. cbn [filter]. rewrite (proj2 (Z.eqb_eq (key a) h) Hk). reflexivity.
      * apply map_ext_in. intros j Hj. rewrite Htail by exact Hj. reflexivity.
Qed.

(** ** Runs *)

Section Runs.
Context {A : Type} (st : A -> bool).

Lemma runs_head :
  forall (b : A) (t : list A),
    exists run more, runs st (b :: t) = (b :: run) :: more.
Proof.
  intros b t. destruct t as [|c t'].
  - exists [], []. reflexivity.
  - cbn [runs]. destruct (Bool.eqb (st b) (st c)).
    + destruct (match t' with
                | [] => [[c]]
                | b0 :: _ =>
                    if Bool.eqb (st c) (st b0)
                    then match runs st t' with
                         | [] => [[c]]
                         | run :: more => (c :: run) :: more
                         end
                    else [c] :: runs st t'
                end) as [|run more].
      * exists [], []. reflexivity.
      * exists run, more. reflexivity.
    + eexists [], _. reflexivity.
Qed.

(** The recursion of [runs], one element at a time. *)
Lemma runs_cons :
  forall (a b : A) (t run : list A) (more : list (list A)),
    runs st (b :: t) = run :: more ->
    runs st (a :: b :: t) =
      if Bool.eqb (st a) (st b) then (a :: run) :: more else [a] :: run :: more.
Proof.
  intros a b t run more E.
  change (runs st (a :: b :: t))
    with (if Bool.eqb (st a) (st b)
          then match runs st (b :: t) with
               | run :: more => (a :: run) :: more
               | [] => [[a]]
               end
          else [a] :: runs st (b :: t)).
  rewrite E. reflexivity.
Qed.

Lemma runs_maximal : forall l : list A, maximal_runs st l (runs st l).
Proof.
  induction l as [|a t IH].
  - split; [reflexivity | split; [constructor | exact I]].
  - destruct t as [|b t'].
    + split; [reflexivity | split; [|split; exact I]].
      constructor; [|constructor]. split; [discriminate|].
      intros x y [<-|[]] [<-|[]]. reflexivity.
    + destruct (runs_head b t') as [run [more E]].
      rewrite (runs_cons a b t' _ _ E). rewrite E in IH.
      destruct IH as [Hc [Hf Hb]].
      apply Forall_cons_iff in Hf. destruct Hf as [[_ Hconst] Hf].
      destruct (Bool.eqb (st a) (st b)) eqn:Eab.
      * apply Bool.eqb_prop in Eab.
        assert (Hconst' : forall x y, In x (a :: b :: run) -> In y (a :: b :: run) ->
                                      st x = st y).
        { assert (Hb' : forall x, In x (a :: b :: run) -> st x = st b).
          { intros x [<-|Hx]; [exact Eab|].
            apply Hconst; [exact Hx | left; reflexivity]. }
          intros x y Hx Hy. rewrite (Hb' x Hx), (Hb' y Hy). reflexivity. }
        split; [|split].
        -- cbn [concat app] in *. rewrite Hc. reflexivity.
        -- constructor; [split; [discriminate | exact Hconst'] | exact Hf].
        -- cbn [boundaries_differ] in *. destruct Hb as [Hb1 Hb2]. split; [|exact Hb2].
           destruct more as [|r2 more']; [exact I|].
           intros x y Hx Hy. rewrite (Hconst' x b Hx (or_intror (or_introl eq_refl))).
           apply Hb1; [left; reflexivity | exact Hy].
      * split; [|split].
        -- cbn [concat app] in *. rewrite Hc. reflexivity.
        -- constructor.
           ++ split; [discriminate|]. intros x y [<-|[]] [<-|[]]. reflexivity.
           ++ constructor; [split; [discriminate | exact Hconst] | exact Hf].
        -- cbn [boundaries_differ]. split; [|exact Hb].
           intros x y [<-|[]] Hy.
           rewrite (Hconst y b Hy (or_introl eq_refl)).
           intros Heq. rewrite Heq, Bool.eqb_reflx in Eab. discriminate.
Qed.

(** A list of constant status is one run. *)
Lemma runs_single :
  forall l : list A,
    l <> [] -> (forall a b, In a l -> In b l -> st a = st b) -> runs st l = [l].
Proof.
  induction l as [|a t IH]; intros Hne Hconst; [congruence|].
  destruct t as [|b t']; [reflexivity|].
  assert (E : runs st (b :: t') = [b :: t']).
  { apply IH; [discriminate|]. intros x y Hx Hy. apply Hconst; right; assumption. }
  rewrite (runs_cons a b t' _ _ E).
  rewrite (Hconst a b (or_introl eq_refl) (or_intror (or_introl eq_refl))).
  rewrite Bool.eqb_reflx. reflexivity.
Qed.

(** Only the changes of status matter. *)
Lemma runs_negated :
  forall (st' : A -> bool) (l : list A),
    (forall a, In a l -> st' a = negb (st a)) -> runs st' l = runs st l.
Proof.
  intros st' l. induction l as [|a t IH]; intros H; [reflexivity|].
  destruct t as [|b t']; [reflexivity|].
  assert (IH' : runs st' (b :: t') = runs st (b :: t')).
  { apply IH. intros x Hx. apply H. right. exact Hx. }
  cbn [runs] in *. rewrite IH'.
  rewrite (H a (or_introl eq_refl)), (H b (or_intror (or_introl eq_refl))).
  destruct (st a), (st b); reflexivity.
Qed.
End Runs.

(** ** The blocks of [run_filter] are the runs of the status of [x] *)

Lemma cumsum_blocks_from :
  forall (l : list Row) (acc : nat) (prev : bool),
    cumsum_from acc
      (map2 (fun a b => negb (Bool.eqb a b))
            (map isna (map row_x l))
            (prev :: map isna (removelast (map row_x l))))
    = blocks_from acc prev l.
Proof.
  induction l as [|r t IH]; intros acc prev; [reflexivity|].
  cbn [map map2 cumsum_from blocks_from]. unfold x_missing at 1.
  f_equal.
  destruct t as [|r' t'].
  - reflexivity.
  - change (removelast (row_x r :: map row_x (r' :: t')))
      with (row_x r :: removelast (map row_x (r' :: t'))).
    cbn [map] in *. apply IH.
Qed.

Lemma blocks_unfold : forall df, blocks df = blocks_from 0 true df.
Proof.
  intros df. unfold blocks, cumsum, shift.
  destruct df as [|r t]; [reflexivity|].
  rewrite <- cumsum_blocks_from. reflexivity.
Qed.

Lemma blocks_from_ge :
  forall (l : list Row) (acc : nat) (prev : bool) (n : nat),
    In n (blocks_from acc prev l) -> (acc <= n)%nat.
Proof.
  induction l as [|r t IH]; intros acc prev n H; [contradiction|].
  cbn [blocks_from] in H. destruct H as [<-|H].
  - destruct (negb _); lia.
  - apply IH in H. destruct (negb _); lia.
Qed.

Lemma groupby_blocks_from :
  forall (l : list Row) (acc : nat) (prev : bool),
    groupby (fun p : nat * Row => Z.of_nat (fst p)) (combine (blocks_from acc prev l) l)
    = number (first_block acc prev l) (runs x_missing l).
Proof.
  induction l as [|a t IH]; intros acc prev; [reflexivity|].
  cbn [blocks_from combine first_block].
  set (acc' := if negb (Bool.eqb (x_missing a) prev) then S acc else acc).
  rewrite groupby_cons_min.
  2:{ intros [n r] Hin. cbn [fst]. apply in_combine_l in Hin.
      apply blocks_from_ge in Hin. lia. }
  rewrite IH. cbn [fst].
  destruct t as [|b t']; [reflexivity|].
  destruct (runs_head x_missing b t') as [run [more E]].
  rewrite (runs_cons x_missing a b t' _ _ E). rewrite E.
  cbn [first_block number].
  destruct (x_missing a), (x_missing b); cbn [Bool.eqb negb number map].
  1,4: rewrite Z.eqb_refl; reflexivity.
  all: rewrite (proj2 (Z.eqb_neq (Z.of_nat (S acc')) (Z.of_nat acc'))) by lia;
    reflexivity.
Qed.

Lemma unnumber :
  forall (rs : list (list Row)) (b : nat),
    map (fun g : Z * list (nat * Row) => map snd (snd g)) (number b rs) = rs.
Proof.
  induction rs as [|run more IH]; intros b; [reflexivity|].
  cbn [number map snd]. rewrite IH. f_equal.
  rewrite map_map. cbn [snd]. apply map_id.
Qed.

Lemma block_groups_runs : forall df, block_groups df = runs x_missing df.
Proof.
  intros df. unfold block_groups.
  rewrite blocks_unfold, groupby_blocks_from. apply unnumber.
Qed.

(** ** [run_filter] run by run *)

Lemma batch_filter_none :
  forall (run : list Row) (k : KalmanFilter),
    batch_filter k (repeat None (length run)) = spec_run false k run.
Proof.
  induction run as [|r rest IH]; intros k; [reflexivity|].
  cbn [length repeat batch_filter spec_run update bind ret].
  rewrite IH. reflexivity.
Qed.

Lemma batch_filter_xy :
  forall (run : list Row) (k : KalmanFilter),
    batch_filter k (xy_values run) = spec_run true k run.
Proof.
  induction run as [|r rest IH]; intros k; [reflexivity|].
  cbn [xy_values map batch_filter spec_run].
  destruct (update (predict k) (Some (column [row_x r; row_y r]))) as [e|k1];
    [reflexivity|].
  cbn [bind]. fold (xy_values rest). rewrite IH. reflexivity.
Qed.

(** What the loop body does with a group, from the group's first row. *)
Lemma run_block_first_row :
  forall (k : KalmanFilter) (r0 : Row) (rest : list Row),
    run_block k (r0 :: rest) =
      if isna (row_x r0) || isna (row_y r0)
      then spec_run false k (r0 :: rest)
      else spec_run true k (r0 :: rest).
Proof.
  intros k r0 rest. unfold run_block. cbn [map iloc0 bind ret].
  rewrite batch_filter_none, batch_filter_xy. reflexivity.
Qed.

(** In a track where [y] is missing exactly when [x] is, a run of constant
    [x] status is handled as the specification says. *)
Lemma run_block_spec :
  forall (k : KalmanFilter) (run : list Row),
    run <> [] ->
    (forall a b, In a run -> In b run -> x_missing a = x_missing b) ->
    (forall r, In r run -> isna (row_y r) = isna (row_x r)) ->
    run_block k run = spec_run (forallb present run) k run.
Proof.
  intros k [|r0 rest] Hne Hconst Hxy; [congruence|].
  rewrite run_block_first_row.
  rewrite (Hxy r0 (or_introl eq_refl)), Bool.orb_diag.
  destruct (isna (row_x r0)) eqn:E0.
  - assert (F : forallb present (r0 :: rest) = false).
    { cbn [forallb]. unfold present at 1. rewrite E0. reflexivity. }
    rewrite F. reflexivity.
  - assert (F : forallb present (r0 :: rest) = true).
    { apply forallb_forall. intros r Hr. unfold present.
      rewrite (Hxy r Hr).
      assert (X : x_missing r = false).
      { rewrite (Hconst r r0 Hr (or_introl eq_refl)). exact E0. }
      unfold x_missing in X. rewrite X. reflexivity. }
    rewrite F. reflexivity.
Qed.

Lemma run_blocks_spec :
  forall (rs : list (list Row)) (k : KalmanFilter),
    Forall (fun run => forall k', run_block k' run = spec_run (forallb present run) k' run) rs ->
    stacked (run_blocks k rs) = spec_runs k rs.
Proof.
  induction rs as [|run more IH]; intros k H; [reflexivity|].
  apply Forall_cons_iff in H. destruct H as [Hrun Hmore].
  cbn [run_blocks spec_runs]. rewrite Hrun.
  destruct (spec_run (forallb present run) k run) as [e|[[m c] k1]]; [reflexivity|].
  cbn [bind]. rewrite <- (IH k1 Hmore).
  unfold stacked.
  destruct (run_blocks k1 more) as [e|[[ms cs] k2]]; reflexivity.
Qed.

Lemma run_blocks_length :
  forall (rs : list (list Row)) (k k' : KalmanFilter) (ms cs : list (list mat)),
    run_blocks k rs = ret (ms, cs, k') -> length ms = length rs /\ length cs = length rs.
Proof.
  induction rs as [|run more IH]; intros k k' ms cs H.
  - cbn in H. injection H as <- <- _. split; reflexivity.
  - cbn [run_blocks] in H.
    destruct (run_block k run) as [e|[[m c] k1]]; [discriminate|].
    cbn [bind] in H.
    destruct (run_blocks k1 more) as [e|[[ms' cs'] k2]] eqn:E; [discriminate|].
    cbn [bind ret] in H. injection H as <- <- _.
    destruct (IH _ _ _ _ E) as [L1 L2]. cbn [length]. split; congruence.
Qed.

(** For a track with at least one row, [np.vstack] has something to stack. *)
Lemma run_filter_stacked :
  forall (k : KalmanFilter) (df : list Row),
    df <> [] -> run_filter k df = stacked (run_blocks k (runs x_missing df)).
Proof.
  intros k df Hne. unfold run_filter, stacked. rewrite block_groups_runs.
  destruct (run_blocks k (runs x_missing df)) as [e|[[ms cs] k']] eqn:E; [reflexivity|].
  destruct (run_blocks_length _ _ _ _ _ E) as [L1 L2].
  assert (Hr : runs x_missing df <> []).
  { destruct df as [|r t]; [congruence|].
    destruct (runs_head x_missing r t) as [run [more ->]]. discriminate. }
  destruct (runs x_missing df) as [|run more]; [congruence|].
  destruct ms as [|m ms]; [discriminate|]. destruct cs as [|c cs]; [discriminate|].
  reflexivity.
Qed.

(** ** The specification's filter, frame by frame *)

Lemma spec_run_frames :
  forall (b : bool) (run : list Row) (k : KalmanFilter),
    (forall r, In r run -> present r = b) -> spec_run b k run = filter_frames k run.
Proof.
  intros b run. induction run as [|r rest IH]; intros k H; [reflexivity|].
  cbn [spec_run filter_frames]. rewrite (H r (or_introl eq_refl)).
  destruct (if b then update (predict k) (Some (column [row_x r; row_y r]))
            else ret (predict k)) as [e|k1]; [reflexivity|].
  cbn [bind]. rewrite IH; [reflexivity|].
  intros q Hq. apply H. right. exact Hq.
Qed.

Lemma filter_frames_app :
  forall (l1 l2 : list Row) (k : KalmanFilter),
    filter_frames k (l1 ++ l2) =
      ('(m, c, k1) <- filter_frames k l1 ;;
       '(ms, cs, k2) <- filter_frames k1 l2 ;;
       ret (m ++ ms, c ++ cs, k2)).
Proof.
  induction l1 as [|r rest IH]; intros l2 k.
  - cbn [app filter_frames bind ret].
    destruct (filter_frames k l2) as [e|[[ms cs] k2]]; reflexivity.
  - cbn [app filter_frames].
    destruct (if present r then update (predict k) (Some (column [row_x r; row_y r]))
              else ret (predict k)) as [e|k1]; [reflexivity|].
    cbn [bind]. rewrite IH.
    destruct (filter_frames k1 rest) as [e|[[m c] k2]]; [reflexivity|].
    cbn [bind ret].
    destruct (filter_frames k2 l2) as [e|[[ms cs] k3]]; reflexivity.
Qed.

Lemma constant_run_status :
  forall run : list Row,
    (forall a b, In a run -> In b run -> present a = present b) ->
    forall r, In r run -> present r = forallb present run.
Proof.
  intros run Hconst r Hr.
  destruct (forallb present run) eqn:F.
  - rewrite forallb_forall in F. apply F. exact Hr.
  - destruct (present r) eqn:Pr; [|reflexivity].
    assert (forallb present run = true); [|congruence].
    apply forallb_forall. intros q Hq. rewrite (Hconst q r Hq Hr). exact Pr.
Qed.

Lemma spec_runs_frames :
  forall (rs : list (list Row)) (k : KalmanFilter),
    Forall (fun run => run <> [] /\
                       forall a b, In a run -> In b run -> present a = present b) rs ->
    spec_runs k rs = filter_frames k (concat rs).
Proof.
  induction rs as [|run more IH]; intros k H; [reflexivity|].
  apply Forall_cons_iff in H. destruct H as [[_ Hconst] Hmore].
  cbn [spec_runs concat]. rewrite filter_frames_app.
  rewrite (spec_run_frames _ run k (constant_run_status run Hconst)).
  destruct (filter_frames k run) as [e|[[m c] k1]]; [reflexivity|].
  cbn [bind]. rewrite (IH k1 Hmore). reflexivity.
Qed.

(** The run-by-run filter of the specification is the frame-by-frame one. *)
Lemma spec_run_filter_frames :
  forall (k : KalmanFilter) (df : list Row),
    spec_run_filter k df = filter_frames k df.
Proof.
  intros k df. unfold spec_run_filter.
  destruct (runs_maximal present df) as [Hc [Hf _]].
  rewrite (spec_runs_frames _ k Hf), Hc. reflexivity.
Qed.

Lemma present_not_missing :
  forall r : Row, isna (row_y r) = isna (row_x r) -> present r = negb (x_missing r).
Proof.
  intros r H. unfold present, x_missing. rewrite H. destruct (isna (row_x r)); reflexivity.
Qed.

(** Where no frame has one coordinate without the other, the code and the
    specification agree.  On a track with at least one row in which [y] is
    missing exactly in the rows where [x] is missing, the groups that
    [run_filter] iterates over are the maximal runs of constant measurement
    presence; [run_filter] does what the specification describes (a predict
    and update step per frame of a present run, a predict-only step per frame
    of a missing run, the state and covariance at the end of a run being the
    start of the next run); and that is one step per frame, in order, from
    the first frame to the last. *)
Theorem run_filter_follows_runs :
  forall (k : KalmanFilter) (df : list Row),
    df <> [] ->
    (forall r, In r df -> isna (row_y r) = isna (row_x r)) ->
    block_groups df = runs present df
    /\ maximal_runs present df (block_groups df)
    /\ run_filter k df = spec_run_filter k df
    /\ run_filter k df = filter_frames k df.
Proof.
  intros k df Hne Hxy.
  assert (Hruns : runs present df = runs x_missing df).
  { apply runs_negated. intros r Hr. apply present_not_missing. apply Hxy. exact Hr. }
  assert (Hgroups : block_groups df = runs present df).
  { rewrite block_groups_runs. symmetry. exact Hruns. }
  assert (Hrun : run_filter k df = spec_run_filter k df).
  { rewrite (run_filter_stacked k df Hne). unfold spec_run_filter. rewrite Hruns.
    apply run_blocks_spec.
    destruct (runs_maximal x_missing df) as [Hc [Hf _]].
    apply Forall_forall. intros run Hin k'.
    rewrite Forall_forall in Hf. destruct (Hf run Hin) as [Hn Hconst].
    apply run_block_spec; [exact Hn | exact Hconst |].
    intros r Hr. apply Hxy. rewrite <- Hc. apply in_concat.
    exists run. split; assumption. }
  split; [exact Hgroups|]. split.
  - rewrite Hgroups. apply runs_maximal.
  - split; [exact Hrun|]. rewrite Hrun. apply spec_run_filter_frames.
Qed.

Lemma run_filter_follows_runs_witness :
  block_groups track_xy_gap = runs present track_xy_gap
  /\ maximal_runs present track_xy_gap (block_groups track_xy_gap)
  /\ run_filter kfilter_11 track_xy_gap = spec_run_filter kfilter_11 track_xy_gap
  /\ run_filter kfilter_11 track_xy_gap = filter_frames kfilter_11 track_xy_gap.
Proof.
  apply (run_filter_follows_runs kfilter_11 track_xy_gap).
  - discriminate.
  - intros r Hr. simpl in Hr.
    repeat (destruct Hr as [<-|Hr]; [reflexivity|]). contradiction.
Defined.

(** C1.  The forward filter does not follow the runs of measurement
    presence on a track in which a frame has [x] but not [y]: the three
    frames of [track_y_gap] (present, missing, present) are one group for
    [run_filter], which sends all three to the measurement update, and its
    result differs from that of the filter the specification describes. *)
Lemma run_filter_not_by_presence :
  block_groups track_y_gap = [track_y_gap]
  /\ map (map present) (runs present track_y_gap) = [[true]; [false]; [true]]
  /\ (exists mu cov k,
        run_filter kfilter_11 track_y_gap = ret (mu, cov, k)
        /\ comp 0 mu = [of_Z 1; NaN; NaN]
        /\ comp 3 mu = [of_Z 1; NaN; NaN])
  /\ (exists mu cov k,
        spec_run_filter kfilter_11 track_y_gap = ret (mu, cov, k)
        /\ comp 0 mu = [of_Z 1; of_Z 1; Some (6243946254723 # 5580759498241)%Q]
        /\ comp 3 mu = [of_Z 1; of_Z 1; Some (6243946254723 # 5580759498241)%Q])
  /\ run_filter kfilter_11 track_y_gap <> spec_run_filter kfilter_11 track_y_gap.
Proof.
  split; [reflexivity|]. split; [reflexivity|]. split; [|split].
  - do 3 eexists. split; [vm_compute; reflexivity|]. split; reflexivity.
  - do 3 eexists. split; [vm_compute; reflexivity|]. split; reflexivity.
  - intros H. vm_compute in H. discriminate H.
Qed.

(** A track in which [x] is never missing is one group, and what is done
    with the group is what is done with the track. *)
Lemma run_filter_one_block :
  forall (k : KalmanFilter) (df : list Row),
    df <> [] ->
    (forall r, In r df -> isna (row_x r) = false) ->
    run_filter k df = run_block k df.
Proof.
  intros k df Hne Hx.
  rewrite run_filter_stacked by exact Hne.
  rewrite runs_single.
  - unfold stacked. cbn [run_blocks].
    destruct (run_block k df) as [e|[[m c] k1]]; [reflexivity|].
    cbn [bind ret concat]. rewrite !app_nil_r. reflexivity.
  - exact Hne.
  - intros a b Ha Hb. unfold x_missing. rewrite (Hx a Ha), (Hx b Hb). reflexivity.
Qed.

(** C10.  The groups of [run_filter] are the maximal runs of the missing
    status of [x] alone; the first row of a group decides for the whole
    group whether its rows are measurements or gaps; so in a track whose [x]
    is never missing, when the first row has a [y] every row goes to the
    measurement update with its [(x, y)], whether its [y] is missing or not,
    and when the first row has no [y] every row is a predict-only step,
    whether it has a [y] or not. *)
Theorem x_status_and_first_row_decide :
  forall (k : KalmanFilter) (df : list Row),
    block_groups df = runs x_missing df
    /\ (forall r0 rest,
          run_block k (r0 :: rest) =
            batch_filter k (if isna (row_x r0) || isna (row_y r0)
                            then repeat None (length (r0 :: rest))
                            else xy_values (r0 :: rest)))
    /\ (forall r0 rest,
          df = r0 :: rest ->
          (forall r, In r df -> isna (row_x r) = false) ->
          run_filter k df =
            batch_filter k (if isna (row_y r0)
                            then repeat None (length df)
                            else xy_values df)).
Proof.
  intros k df. split; [apply block_groups_runs|].
  assert (Hblock : forall r0 rest,
            run_block k (r0 :: rest) =
              batch_filter k (if isna (row_x r0) || isna (row_y r0)
                              then repeat None (length (r0 :: rest))
                              else xy_values (r0 :: rest))).
  { intros r0 rest. unfold run_block. cbn [map iloc0 bind ret].
    destruct (isna (row_x r0) || isna (row_y r0)); reflexivity. }
  split; [exact Hblock|].
  intros r0 rest -> Hx.
  rewrite run_filter_one_block; [|discriminate|exact Hx].
  rewrite Hblock, (Hx r0 (or_introl eq_refl)). reflexivity.
Qed.

Lemma x_status_and_first_row_decide_witness :
  run_filter kfilter_11 track_y_gap = batch_filter kfilter_11 (xy_values track_y_gap)
  /\ nth 1 (xy_values track_y_gap) None = Some (column [of_Z 2; NaN])
  /\ run_filter kfilter_11 track_y_late = batch_filter kfilter_11 [None; None; None].
Proof.
  split; [|split; [reflexivity|]].
  - apply (proj2 (proj2 (x_status_and_first_row_decide kfilter_11 track_y_gap))
             (mkRow 0 1 (of_Z 1) (of_Z 1))
             [mkRow 1 1 (of_Z 2) NaN; mkRow 2 1 (of_Z 3) (of_Z 3)]).
    + reflexivity.
    + intros r Hr. simpl in Hr.
      repeat (destruct Hr as [<-|Hr]; [reflexivity|]). contradiction.
  - apply (proj2 (proj2 (x_status_and_first_row_decide kfilter_11 track_y_late))
             (mkRow 0 1 (of_Z 1) NaN)
             [mkRow 1 1 (of_Z 2) (of_Z 2); mkRow 2 1 (of_Z 3) (of_Z 3)]).
    + reflexivity.
    + intros r Hr. simpl in Hr.
      repeat (destruct Hr as [<-|Hr]; [reflexivity|]). contradiction.
Defined.

(** ** What [kalman] does to the dataframe *)

Lemma map2_length :
  forall (A B C : Type) (f : A -> B -> C) (l : list A) (l' : list B),
    length l = length l' -> length (map2 f l l') = length l.
Proof.
  intros A B C f l. induction l as [|a t IH]; intros [|b t'] H; cbn in *;
    try reflexivity; try discriminate.
  f_equal. apply IH. congruence.
Qed.

Lemma existsb_eqb_In :
  forall (c : string) (l : list string), existsb (String.eqb c) l = true <-> In c l.
Proof.
  intros c l. rewrite existsb_exists. split.
  - intros [x [Hx E]]. apply String.eqb_eq in E. subst. exact Hx.
  - intros H. exists c. split; [exact H | apply String.eqb_refl].
Qed.

Lemma existsb_eqb_not_In :
  forall (c : string) (l : list string), ~ In c l -> existsb (String.eqb c) l = false.
Proof.
  intros c l H. destruct (existsb (String.eqb c) l) eqn:E; [|reflexivity].
  apply existsb_eqb_In in E. contradiction.
Qed.

(** An assignment to [c] leaves a list of columns none of which is called
    [c] as it is. *)
Lemma update_other_columns :
  forall (c : string) (g : list num -> list num) (cs : list (string * list num)),
    ~ In c (map fst cs) ->
    map (fun nv => if String.eqb (fst nv) c then (fst nv, g (snd nv)) else nv) cs = cs.
Proof.
  intros c g cs. induction cs as [|[n v] cs IH]; intros H; [reflexivity|].
  cbn [map fst snd] in *.
  destruct (String.eqb_spec n c) as [->|Hn].
  - exfalso. apply H. left. reflexivity.
  - rewrite IH; [reflexivity|]. intros Hc. apply H. right. exact Hc.
Qed.

Lemma loc_set_extends :
  forall (df df' : DataFrame) (names : list string)
         (labels : list Z) (c : string) (values : list num),
    extends df names df' ->
    ~ In c (col_names df) ->
    extends df (add_name c names) (loc_set labels c values df').
Proof.
  intros df df' names labels c values [Hrows [new [Hcols [Hnames Hlen]]]] Hc.
  split; [exact Hrows|].
  assert (Hhas : has_col c df' = existsb (String.eqb c) names).
  { unfold has_col, col_names. rewrite Hcols, map_app, existsb_app, Hnames.
    rewrite (existsb_eqb_not_In c (map fst (cols df)) Hc). reflexivity. }
  unfold loc_set, add_name. cbn [cols]. rewrite Hhas, Hcols, Hrows.
  set (g := assign labels values (rows df)).
  set (f := fun nv : string * list num =>
              if String.eqb (fst nv) c then (fst nv, g (snd nv)) else nv).
  assert (Hold : map f (cols df) = cols df) by (apply update_other_columns; exact Hc).
  assert (Hfst : forall l, map fst (map f l) = map fst l).
  { intros l. rewrite map_map. apply map_ext. intros [n v]. unfold f. cbn [fst].
    destruct (String.eqb n c); reflexivity. }
  assert (Hg : forall v, length v = length (rows df) -> length (g v) = length (rows df)).
  { intros v Hv. unfold g, assign. apply map2_length. symmetry. exact Hv. }
  assert (Hlen' : Forall (fun cv => length (snd cv) = length (rows df)) (map f new)).
  { apply Forall_forall. intros cv Hin. apply in_map_iff in Hin.
    destruct Hin as [[n v] [<- Hin]].
    rewrite Forall_forall in Hlen. specialize (Hlen _ Hin). cbn [snd] in Hlen.
    unfold f. cbn [fst snd]. destruct (String.eqb n c); cbn [snd]; auto. }
  destruct (existsb (String.eqb c) names) eqn:E.
  - exists (map f new). rewrite map_app, Hold, Hfst. auto.
  - exists (map f new ++ [(c, g (repeat NaN (length (rows df))))]).
    rewrite !map_app, Hold, Hfst, Hnames. cbn [map fst].
    unfold f at 2. cbn [fst snd]. rewrite String.eqb_refl.
    rewrite <- app_assoc. split; [reflexivity|]. split; [reflexivity|].
    apply Forall_app. split; [exact Hlen'|].
    constructor; [|constructor]. cbn [snd]. apply Hg. apply repeat_length.
Qed.

Lemma fresh_name :
  forall (df : DataFrame) (c : string),
    (forall n, In n twelve -> ~ In n (col_names df)) ->
    existsb (String.eqb c) twelve = true -> ~ In c (col_names df).
Proof.
  intros df c H E. apply H. apply existsb_eqb_In. exact E.
Qed.

(** One round of the loop body: the columns grow to the twelve if it goes
    through, and whatever happens the rows and the old columns stay. *)
Lemma kalman_track_extends :
  forall (df df1 df2 : DataFrame) (names : list string) (gdf : list Row) (r : result unit),
    (forall n, In n twelve -> ~ In n (col_names df)) ->
    names = [] \/ names = twelve ->
    extends df names df1 ->
    kalman_track gdf df1 = (r, df2) ->
    exists names', extends df names' df2 /\ (forall u, r = ret u -> names' = twelve).
Proof.
  intros df df1 df2 names gdf r Hfresh Hnames Hext Hrun.
  unfold kalman_track, bindM, lift, modify in Hrun.
  destruct (init_filter gdf) as [e|kf].
  { injection Hrun as Hr Hd; subst r df2. exists names. split; [exact Hext | discriminate]. }
  destruct (run_filter kf gdf) as [e|[[mu cov] kf']].
  { injection Hrun as Hr Hd; subst r df2. exists names. split; [exact Hext | discriminate]. }
  set (index := map row_index gdf) in *.
  destruct (rts_smoother kf' mu cov) as [e|[[[mu_rts cov_rts] K] Pp]].
  - injection Hrun as Hr Hd; subst r df2. eexists. split; [|discriminate].
    do 6 (apply loc_set_extends; [|apply fresh_name; [exact Hfresh | reflexivity]]).
    exact Hext.
  - injection Hrun as Hr Hd; subst r df2. eexists. split.
    + do 12 (apply loc_set_extends; [|apply fresh_name; [exact Hfresh | reflexivity]]).
      exact Hext.
    + intros u _. destruct Hnames as [->| ->]; reflexivity.
Qed.

Lemma for_each_track_extends :
  forall (gs : list (Z * list Row)) (df df1 df2 : DataFrame) (names : list string)
         (r : result unit),
    (forall n, In n twelve -> ~ In n (col_names df)) ->
    names = [] \/ names = twelve ->
    extends df names df1 ->
    for_each_track gs df1 = (r, df2) ->
    exists names',
      extends df names' df2
      /\ (forall u, r = ret u -> names' = match gs with [] => names | _ :: _ => twelve end).
Proof.
  induction gs as [|[tid gdf] gs IH]; intros df df1 df2 names r Hfresh Hnames Hext Hrun.
  - cbn in Hrun. injection Hrun as Hr Hd; subst r df2. exists names. split; [exact Hext | reflexivity].
  - cbn [for_each_track] in Hrun. unfold bindM in Hrun.
    destruct (kalman_track gdf df1) as [[e|[]] dfm] eqn:Ek.
    + injection Hrun as Hr Hd; subst r df2.
      destruct (kalman_track_extends _ _ _ _ _ _ Hfresh Hnames Hext Ek) as [n' [He _]].
      exists n'. split; [exact He | discriminate].
    + destruct (kalman_track_extends _ _ _ _ _ _ Hfresh Hnames Hext Ek) as [n' [He Hn]].
      rewrite (Hn tt eq_refl) in He.
      destruct (IH df dfm df2 twelve r Hfresh (or_intror eq_refl) He Hrun)
        as [n'' [He' Hn']].
      exists n''. split; [exact He'|].
      intros u Hu. rewrite (Hn' u Hu). destruct gs; reflexivity.
Qed.

Lemma extends_refl : forall df, extends df [] df.
Proof.
  intros df. split; [reflexivity|]. exists []. rewrite app_nil_r.
  repeat split. constructor.
Qed.

(** C9 (for the dataframes on which it holds).  For a dataframe with at
    least one row and with no column already called by one of the twelve
    names, a call of [kalman] that returns gives back the dataframe with the
    rows (index, [trackingId], [x], [y]) as they were, the columns it had,
    with their values, followed by exactly the twelve new columns in the
    order in which the code writes them, each with one value per row. *)
Theorem kalman_adds_twelve_columns :
  forall df df' : DataFrame,
    rows df <> [] ->
    (forall n, In n (kalman_columns ++ rts_columns) -> ~ In n (col_names df)) ->
    kalman df = Returned df' ->
    rows df' = rows df
    /\ exists new,
         cols df' = cols df ++ new
         /\ map fst new = kalman_columns ++ rts_columns
         /\ Forall (fun cv => length (snd cv) = length (rows df)) new.
Proof.
  intros df df' Hne Hfresh Hk. unfold kalman in Hk.
  destruct (for_each_track (groupby row_trackingId (rows df)) df) as [[e|u] d] eqn:E;
    [discriminate|].
  injection Hk as ->.
  destruct (for_each_track_extends _ df df df' [] (inr u) Hfresh (or_introl eq_refl)
              (extends_refl df) E) as [names [Hext Hn]].
  specialize (Hn u eq_refl).
  pose proof (groupby_nonempty _ row_trackingId (rows df) Hne) as G.
  destruct (groupby row_trackingId (rows df)); [congruence|].
  subst names. exact Hext.
Qed.

(** Whatever way [kalman] ends, the rows and the columns the dataframe had
    are as they were. *)
Lemma kalman_keeps_old_columns :
  forall (df df' : DataFrame),
    (forall n, In n twelve -> ~ In n (col_names df)) ->
    (kalman df = Returned df' \/ exists e, kalman df = Raised e df') ->
    rows df' = rows df /\ firstn (length (cols df)) (cols df') = cols df.
Proof.
  intros df df' Hfresh Hk. unfold kalman in Hk.
  destruct (for_each_track (groupby row_trackingId (rows df)) df) as [r d] eqn:E.
  assert (d = df') as ->.
  { destruct Hk as [Hk|[e Hk]]; destruct r; congruence. }
  destruct (for_each_track_extends _ df df df' [] r Hfresh (or_introl eq_refl)
              (extends_refl df) E) as [names [[Hrows [new [Hcols _]]] _]].
  split; [exact Hrows|]. rewrite Hcols.
  rewrite firstn_app, firstn_all, Nat.sub_diag. cbn [firstn]. apply app_nil_r.
Qed.

Lemma kalman_adds_twelve_columns_witness :
  exists df',
    kalman df_two_tracks = Returned df'
    /\ rows df' = rows df_two_tracks
    /\ exists new,
         cols df' = cols df_two_tracks ++ new
         /\ map fst new = kalman_columns ++ rts_columns
         /\ Forall (fun cv => length (snd cv) = length (rows df_two_tracks)) new.
Proof.
  eexists. split.
  - vm_compute. reflexivity.
  - apply (kalman_adds_twelve_columns df_two_tracks).
    + discriminate.
    + intros n Hn [E|[]]. subst n. simpl in Hn.
      repeat (destruct Hn as [Hn|Hn]; [discriminate Hn|]). contradiction.
    + vm_compute. reflexivity.
Defined.

(** C9 as worded fails in two ways: a dataframe without rows comes back
    with no new column, and a column that is already called [kalman_x] is
    overwritten (42 becomes 1), so that only eleven columns are new. *)
Lemma kalman_columns_not_always_new :
  kalman df_empty = Returned df_empty
  /\ exists df',
       kalman df_with_kalman_x = Returned df'
       /\ col_names df' =
            ["frame"; "kalman_x"; "kalman_dx_dt"; "kalman_dx_dt_dt";
             "kalman_y"; "kalman_dy_dt"; "kalman_dy_dt_dt";
             "rts_x"; "rts_dx_dt"; "rts_dx_dt_dt"; "rts_y"; "rts_dy_dt"; "rts_dy_dt_dt"]
       /\ nth 1 (cols df_with_kalman_x) ("", []) = ("kalman_x", [of_Z 42])
       /\ nth 1 (cols df') ("", []) = ("kalman_x", [of_Z 1]).
Proof.
  split; [reflexivity|].
  eexists. split; [vm_compute; reflexivity|].
  repeat split.
Qed.

(** ** The pixel mapper *)

(** C4 (as the code has it).  [_extrinsic_calibration] hands on what
    OpenCV's fit answers, a matrix (invertible or not) or [None], and raises
    only what the fit raised. *)
Theorem extrinsic_calibration_returns_the_fit :
  forall (cv : OpenCV) (pts_src pts_dst : points),
    _extrinsic_calibration pts_src pts_dst =
      match findHomography pts_src pts_dst RANSAC (of_Z 5) with
      | inl e => raise e
      | inr (h, _) => ret h
      end
    /\ (forall e, _extrinsic_calibration pts_src pts_dst = raise e ->
                  findHomography pts_src pts_dst RANSAC (of_Z 5) = raise e).
Proof.
  intros cv pts_src pts_dst. unfold _extrinsic_calibration.
  destruct (findHomography pts_src pts_dst RANSAC (of_Z 5)) as [e|[h mask]].
  - split; [reflexivity|]. intros e' H. cbn in H. injection H as ->. reflexivity.
  - split; [reflexivity|]. intros e' H. discriminate H.
Qed.

Lemma extrinsic_calibration_returns_the_fit_witness :
  @_extrinsic_calibration (opencv_answering (ret (Some h_singular, [])))
     pts_on_a_line pts_unit_square = ret (Some h_singular)
  /\ @_extrinsic_calibration (opencv_answering (raise cv_error))
       pts_on_a_line pts_unit_square = raise cv_error.
Proof.
  split.
  - exact (proj1 (extrinsic_calibration_returns_the_fit
                    (opencv_answering (ret (Some h_singular, [])))
                    pts_on_a_line pts_unit_square)).
  - exact (proj1 (extrinsic_calibration_returns_the_fit
                    (opencv_answering (raise cv_error))
                    pts_on_a_line pts_unit_square)).
Defined.

(** C4 as the specification words it fails: with collinear points for
    which the fit answers a matrix of determinant zero, that matrix is
    returned and no [DegenerateHomographyError] is raised; and when the fit
    finds no model, [None] is returned. *)
Lemma degenerate_fit_is_returned :
  degenerate pts_on_a_line (Some h_singular) = true
  /\ collinear pts_on_a_line = true
  /\ non_invertible h_singular = true
  /\ @_extrinsic_calibration (opencv_answering (ret (Some h_singular, [])))
       pts_on_a_line pts_unit_square = ret (Some h_singular)
  /\ @_extrinsic_calibration (opencv_answering (ret (Some h_singular, [])))
       pts_on_a_line pts_unit_square <> raise (Exn "DegenerateHomographyError")
  /\ @_extrinsic_calibration (opencv_answering (ret (None, [])))
       pts_on_a_line pts_unit_square = ret None.
Proof.
  repeat split; try reflexivity. discriminate.
Qed.

(** C8.  A call of the mapper leaves every attribute of the mapper as it
    was, and a second call on the same batch gives the result of the first
    (an array or an exception). *)
Theorem forward_is_pure :
  forall (cv : OpenCV) (self : PixelMapper) (X : points),
    let (r1, self1) := PixelMapper_call X self in
    let (r2, self2) := PixelMapper_call X self1 in
    self1 = self /\ self2 = self /\ r1 = r2.
Proof.
  intros cv self X.
  assert (Hstate : forall s, snd (PixelMapper_call X s) = s).
  { intros s. unfold PixelMapper_call, undistort.
    destruct (intrinsic_mtx s) as [K|]; [|reflexivity].
    destruct (fisheye s).
    - destruct (fisheye_undistortPoints X K (distortion s) (newcameramtx s)); reflexivity.
    - destruct (undistortPoints X K (distortion s) (newcameramtx s)); reflexivity. }
  pose proof (Hstate self) as H1.
  destruct (PixelMapper_call X self) as [r1 self1] eqn:E1.
  cbn [snd] in H1. subst self1. rewrite E1. auto.
Qed.

(** The attributes of the mapper change only by assignment from outside. *)
Lemma set_homography_changes_state :
  snd (set_homography None pm_scale) <> pm_scale.
Proof. discriminate. Qed.

(** C6 (the code lacks what the claim is about).  A [PixelMapper] has no
    attribute [inv]: [pm.inv(...)], which the header of the module shows as
    the world-to-pixel transform, raises [AttributeError]; and the module
    has no function of that name either. *)
Theorem PixelMapper_has_no_inv :
  forall self : PixelMapper,
    getattr self "inv" = raise AttributeError
    /\ ~ In "inv" pixelmapper_functions
    /\ ~ In "inverse" (PixelMapper_attributes ++ PixelMapper_methods ++ pixelmapper_functions).
Proof.
  intros self. split; [reflexivity|]. split.
  - intros H. simpl in H. repeat (destruct H as [H|H]; [discriminate H|]). exact H.
  - intros H. simpl in H. repeat (destruct H as [H|H]; [discriminate H|]). exact H.
Qed.

(** * Further properties of the code *)

(** ** [run_filter]: one estimate per frame *)

Lemma batch_filter_length :
  forall (zs : list (option mat)) (k k' : KalmanFilter) (ms cs : list mat),
    batch_filter k zs = ret (ms, cs, k') ->
    length ms = length zs /\ length cs = length zs.
Proof.
  induction zs as [|z zs IH]; intros k k' ms cs H.
  - cbn in H. apply ret_inj in H. injection H as <- <- _. split; reflexivity.
  - cbn [batch_filter] in H.
    destruct (update (predict k) z) as [e|k1]; [discriminate H|].
    cbn [bind] in H.
    destruct (batch_filter k1 zs) as [e|[[ms' cs'] k2]] eqn:E; [discriminate H|].
    cbn [bind] in H. apply ret_inj in H. injection H as <- <- _.
    destruct (IH _ _ _ _ E) as [L1 L2]. cbn [length]. split; congruence.
Qed.

Lemma run_block_length :
  forall (gdf : list Row) (k k' : KalmanFilter) (m c : list mat),
    run_block k gdf = ret (m, c, k') ->
    length m = length gdf /\ length c = length gdf.
Proof.
  intros gdf k k' m c H. unfold run_block in H.
  destruct gdf as [|r0 rest]; [discriminate H|].
  cbn [map iloc0 bind ret] in H.
  destruct (isna (row_x r0) || isna (row_y r0)).
  - apply batch_filter_length in H. rewrite repeat_length in H. exact H.
  - apply batch_filter_length in H. unfold xy_values in H.
    rewrite length_map in H. exact H.
Qed.

Lemma run_blocks_total_length :
  forall (rs : list (list Row)) (k k' : KalmanFilter) (ms cs : list (list mat)),
    run_blocks k rs = ret (ms, cs, k') ->
    length (concat ms) = length (concat rs) /\ length (concat cs) = length (concat rs).
Proof.
  induction rs as [|run more IH]; intros k k' ms cs H.
  - cbn in H. apply ret_inj in H. injection H as <- <- _. split; reflexivity.
  - cbn [run_blocks] in H.
    destruct (run_block k run) as [e|[[m c] k1]] eqn:Eb; [discriminate H|].
    cbn [bind] in H.
    destruct (run_blocks k1 more) as [e|[[ms' cs'] k2]] eqn:E; [discriminate H|].
    cbn [bind] in H. apply ret_inj in H. injection H as <- <- _.
    destruct (IH _ _ _ _ E) as [L1 L2].
    destruct (run_block_length _ _ _ _ _ Eb) as [B1 B2].
    cbn [concat]. rewrite !length_app. split; congruence.
Qed.

Lemma run_filter_length :
  forall (k k' : KalmanFilter) (df : list Row) (mu cov : list mat),
    run_filter k df = ret (mu, cov, k') ->
    length mu = length df /\ length cov = length df.
Proof.
  intros k k' df mu cov H.
  destruct df as [|r t] eqn:Edf; [discriminate H|]. rewrite <- Edf in *.
  assert (Hne : df <> []) by (rewrite Edf; discriminate).
  rewrite (run_filter_stacked k df Hne) in H. unfold stacked in H.
  destruct (run_blocks k (runs x_missing df)) as [e|[[ms cs] k1]] eqn:E;
    [discriminate H|].
  cbn [bind] in H. apply ret_inj in H. injection H as <- <- _.
  destruct (run_blocks_total_length _ _ _ _ _ E) as [L1 L2].
  destruct (runs_maximal x_missing df) as [Hc _]. rewrite Hc in L1, L2.
  split; assumption.
Qed.

(** X1.  [run_filter] raises [ValueError] on a frame without rows (there is
    nothing for [np.vstack] to stack), and whenever it returns it returns
    exactly one mean and one covariance per row of the frame, whatever is
    missing in the rows. *)
Theorem run_filter_one_estimate_per_row :
  forall (k : KalmanFilter) (df : list Row),
    (df = [] -> run_filter k df = raise ValueError)
    /\ (forall mu cov k',
          run_filter k df = ret (mu, cov, k') ->
          df <> [] /\ length mu = length df /\ length cov = length df).
Proof.
  intros k df. split.
  - intros ->. reflexivity.
  - intros mu cov k' H. split.
    + intros ->. discriminate H.
    + exact (run_filter_length k k' df mu cov H).
Qed.

Lemma run_filter_one_estimate_per_row_witness :
  exists mu cov k',
    run_filter kfilter_11 track_xy_gap = ret (mu, cov, k')
    /\ length mu = 4%nat /\ length cov = 4%nat.
Proof.
  destruct (run_filter kfilter_11 track_xy_gap) as [e|[[mu cov] k']] eqn:E.
  - vm_compute in E. discriminate E.
  - exists mu, cov, k'. split; [reflexivity|].
    exact (proj2 (proj2 (run_filter_one_estimate_per_row kfilter_11 track_xy_gap)
                    mu cov k' E)).
Defined.

(** ** [kalman]: what it leaves alone *)

Lemma untouched_refl : forall df, untouched df df.
Proof. intros df. split; [reflexivity | auto]. Qed.

Lemma untouched_trans :
  forall a b c, untouched a b -> untouched b c -> untouched a c.
Proof.
  intros a b c [R1 C1] [R2 C2]. split; [congruence|].
  intros i n v H Hn. apply C2; [|exact Hn]. apply C1; assumption.
Qed.

Lemma loc_set_untouched :
  forall (df : DataFrame) (labels : list Z) (c : string) (values : list num),
    In c twelve -> untouched df (loc_set labels c values df).
Proof.
  intros df labels c values Hc. split; [reflexivity|].
  intros i n v H Hn. unfold loc_set. cbn [cols].
  rewrite nth_error_map.
  assert (Hi : nth_error (if has_col c df then cols df
                          else cols df ++ [(c, repeat NaN (length (rows df)))]) i
               = Some (n, v)).
  { destruct (has_col c df); [exact H|].
    rewrite nth_error_app1; [exact H|].
    apply nth_error_Some. rewrite H. discriminate. }
  rewrite Hi. cbn [option_map fst snd].
  destruct (String.eqb_spec n c) as [->|Hne]; [contradiction | reflexivity].
Qed.

Lemma kalman_track_untouched :
  forall (gdf : list Row) (df df' : DataFrame) (r : result unit),
    kalman_track gdf df = (r, df') -> untouched df df'.
Proof.
  intros gdf df df' r H.
  unfold kalman_track, bindM, lift, modify in H.
  destruct (init_filter gdf) as [e|kf].
  { injection H as _ <-. apply untouched_refl. }
  destruct (run_filter kf gdf) as [e|[[mu cov] kf']].
  { injection H as _ <-. apply untouched_refl. }
  destruct (rts_smoother kf' mu cov) as [e|[[[mu_rts cov_rts] K] Pp]];
    injection H as _ <-;
    repeat (eapply untouched_trans;
            [|apply loc_set_untouched; apply existsb_eqb_In; reflexivity]);
    apply untouched_refl.
Qed.

Lemma for_each_track_untouched :
  forall (gs : list (Z * list Row)) (df df' : DataFrame) (r : result unit),
    for_each_track gs df = (r, df') -> untouched df df'.
Proof.
  induction gs as [|[tid gdf] gs IH]; intros df df' r H.
  - cbn in H. injection H as _ <-. apply untouched_refl.
  - cbn [for_each_track] in H. unfold bindM in H.
    destruct (kalman_track gdf df) as [[e|[]] d] eqn:Ek.
    + injection H as _ <-. exact (kalman_track_untouched _ _ _ _ Ek).
    + eapply untouched_trans; [exact (kalman_track_untouched _ _ _ _ Ek)|].
      exact (IH _ _ _ H).
Qed.

(** X2.  However a call of [kalman] ends, with the dataframe returned or
    with an exception in the middle of the work, and whatever columns the
    dataframe had, the rows (index, [trackingId], [x], [y]) are as they
    were, and so is every column whose name is not one of the twelve that
    [kalman] writes: same place, same values. *)
Theorem kalman_touches_only_its_columns :
  forall df df' : DataFrame,
    (kalman df = Returned df' \/ exists e, kalman df = Raised e df') ->
    rows df' = rows df
    /\ forall i n v,
         nth_error (cols df) i = Some (n, v) ->
         ~ In n (kalman_columns ++ rts_columns) ->
         nth_error (cols df') i = Some (n, v).
Proof.
  intros df df' Hk. unfold kalman in Hk.
  destruct (for_each_track (groupby row_trackingId (rows df)) df) as [r d] eqn:E.
  assert (d = df') as ->.
  { destruct Hk as [Hk|[e Hk]]; destruct r; congruence. }
  exact (for_each_track_untouched _ _ _ _ E).
Qed.

Lemma kalman_touches_only_its_columns_witness :
  exists df',
    kalman df_middle_bad_track_frames = Raised IndexError df'
    /\ rows df' = rows df_middle_bad_track_frames
    /\ nth_error (cols df') 1 = Some ("frame", [of_Z 0; of_Z 0; of_Z 0]).
Proof.
  destruct (kalman df_middle_bad_track_frames) as [d|e d] eqn:E.
  - vm_compute in E. discriminate E.
  - assert (e = IndexError) as ->
      by (vm_compute in E; injection E as <- _; reflexivity).
    exists d. split; [reflexivity|].
    destruct (kalman_touches_only_its_columns df_middle_bad_track_frames d
                (or_intror (ex_intro _ IndexError E))) as [Hrows Hcols].
    split; [exact Hrows|].
    apply Hcols; [reflexivity|].
    intros H. simpl in H. repeat (destruct H as [H|H]; [discriminate H|]). exact H.
Defined.

(** ** [kalman]: which columns it creates *)

Lemma loc_set_col_names :
  forall (df : DataFrame) (labels : list Z) (c : string) (values : list num),
    col_names (loc_set labels c values df) = add_name c (col_names df).
Proof.
  intros df labels c values. unfold loc_set, col_names, add_name, has_col. cbn [cols].
  rewrite map_map.
  assert (E : forall cs : list (string * list num),
            map (fun x => fst (if String.eqb (fst x) c
                               then (fst x, assign labels values (rows df) (snd x))
                               else x)) cs = map fst cs).
  { intros cs. apply map_ext. intros [n v]. cbn [fst snd].
    destruct (String.eqb n c); reflexivity. }
  rewrite E. unfold col_names.
  destruct (existsb (String.eqb c) (map fst (cols df))); [reflexivity|].
  rewrite map_app. reflexivity.
Qed.

Lemma add_name_present :
  forall (c : string) (ns : list string), In c ns -> add_name c ns = ns.
Proof.
  intros c ns H. unfold add_name.
  rewrite (proj2 (existsb_eqb_In c ns) H). reflexivity.
Qed.

(** Assigning to the columns [l] one after the other creates those that are
    missing, in the order of [l], after the columns that are there. *)
Lemma fold_add_name :
  forall (l ns : list string),
    NoDup l ->
    fold_left (fun ns c => add_name c ns) l ns
    = ns ++ filter (fun c => negb (existsb (String.eqb c) ns)) l.
Proof.
  induction l as [|c l IH]; intros ns Hnd.
  - cbn. rewrite app_nil_r. reflexivity.
  - inversion Hnd as [|? ? Hc Hl]; subst. cbn [fold_left filter].
    unfold add_name at 2.
    destruct (existsb (String.eqb c) ns) eqn:E; cbn [negb].
    + apply IH. exact Hl.
    + rewrite (IH _ Hl), <- app_assoc. cbn [app]. f_equal. f_equal.
      apply filter_ext_in. intros a Ha. rewrite existsb_app. cbn [existsb].
      destruct (String.eqb_spec a c) as [->|Hne]; [contradiction|].
      rewrite !Bool.orb_false_r. reflexivity.
Qed.

Lemma twelve_NoDup : NoDup twelve.
Proof.
  unfold twelve, kalman_columns, rts_columns. cbn [app].
  repeat (constructor;
          [intros H; simpl in H;
           repeat (destruct H as [H|H]; [discriminate H|]); exact H|]).
  constructor.
Qed.

Lemma names_after_missing :
  forall ns, names_after ns = ns ++ filter (fun c => negb (existsb (String.eqb c) ns)) twelve.
Proof. intros ns. apply fold_add_name. exact twelve_NoDup. Qed.

Lemma names_after_idempotent :
  forall ns, names_after (names_after ns) = names_after ns.
Proof.
  intros ns. rewrite (names_after_missing (names_after ns)).
  replace (filter _ twelve) with (@nil string); [apply app_nil_r|].
  symmetry.
  assert (H : forall c, In c twelve -> existsb (String.eqb c) (names_after ns) = true).
  { intros c Hc. apply existsb_eqb_In. rewrite names_after_missing.
    apply in_or_app.
    destruct (existsb (String.eqb c) ns) eqn:E.
    - left. apply existsb_eqb_In. exact E.
    - right. apply filter_In. split; [exact Hc|]. rewrite E. reflexivity. }
  revert H. generalize twelve as l.
  induction l as [|c l IH]; intros H; [reflexivity|].
  cbn [filter]. rewrite (H c (or_introl eq_refl)). cbn [negb].
  apply IH. intros a Ha. apply H. right. exact Ha.
Qed.

Lemma kalman_track_col_names :
  forall (gdf : list Row) (df df' : DataFrame),
    kalman_track gdf df = (ret tt, df') -> col_names df' = names_after (col_names df).
Proof.
  intros gdf df df' H.
  unfold kalman_track, bindM, lift, modify in H.
  destruct (init_filter gdf) as [e|kf]; [discriminate H|].
  destruct (run_filter kf gdf) as [e|[[mu cov] kf']]; [discriminate H|].
  destruct (rts_smoother kf' mu cov) as [e|[[[mu_rts cov_rts] K] Pp]];
    [discriminate H|].
  injection H as <-. rewrite !loc_set_col_names. reflexivity.
Qed.

Lemma for_each_track_col_names :
  forall (gs : list (Z * list Row)) (df df' : DataFrame),
    for_each_track gs df = (ret tt, df') ->
    col_names df' = match gs with
                    | [] => col_names df
                    | _ :: _ => names_after (col_names df)
                    end.
Proof.
  induction gs as [|[tid gdf] gs IH]; intros df df' H.
  - cbn in H. injection H as <-. reflexivity.
  - cbn [for_each_track] in H. unfold bindM in H.
    destruct (kalman_track gdf df) as [[e|[]] d] eqn:Ek; [discriminate H|].
    rewrite (IH _ _ H), (kalman_track_col_names _ _ _ Ek).
    destruct gs; [reflexivity | apply names_after_idempotent].
Qed.

Lemma kalman_returned :
  forall df df', kalman df = Returned df' ->
    for_each_track (groupby row_trackingId (rows df)) df = (ret tt, df').
Proof.
  intros df df' H. unfold kalman in H.
  destruct (for_each_track (groupby row_trackingId (rows df)) df) as [[e|[]] d];
    [discriminate H|]. injection H as ->. reflexivity.
Qed.

(** X3.  When [kalman] returns, a dataframe without rows comes back as it
    was, and a dataframe with rows has, after the columns it had, those of
    the twelve columns that it did not have yet, in the order in which the
    code writes them, and no other new column.  So a second call on the
    result creates no column. *)
Theorem kalman_creates_the_missing_columns :
  forall df df' : DataFrame,
    kalman df = Returned df' ->
    (rows df = [] -> df' = df)
    /\ (rows df <> [] ->
          col_names df' =
            col_names df ++ filter (fun c => negb (has_col c df))
                                   (kalman_columns ++ rts_columns))
    /\ (forall df'', kalman df' = Returned df'' -> col_names df'' = col_names df').
Proof.
  intros df df' H. pose proof (kalman_returned _ _ H) as E.
  assert (Hrows : rows df' = rows df).
  { apply (for_each_track_untouched _ _ _ _ E). }
  assert (Hnames : rows df <> [] -> col_names df' = names_after (col_names df)).
  { intros Hne. rewrite (for_each_track_col_names _ _ _ E).
    pose proof (groupby_nonempty _ row_trackingId (rows df) Hne) as G.
    destruct (groupby row_trackingId (rows df)); [congruence | reflexivity]. }
  split; [|split].
  - intros Hempty. rewrite Hempty in E. cbn in E. injection E as <-. reflexivity.
  - intros Hne. rewrite (Hnames Hne). apply names_after_missing.
  - intros df'' H2. pose proof (kalman_returned _ _ H2) as E2.
    rewrite (for_each_track_col_names _ _ _ E2).
    destruct (groupby row_trackingId (rows df')) as [|g gs] eqn:G; [reflexivity|].
    assert (Hne : rows df <> []).
    { intros Hempty. rewrite Hrows, Hempty in G. discriminate G. }
    rewrite (Hnames Hne). apply names_after_idempotent.
Qed.

Lemma kalman_creates_the_missing_columns_witness :
  exists df',
    kalman df_with_kalman_x = Returned df'
    /\ col_names df' =
         ["frame"; "kalman_x"; "kalman_dx_dt"; "kalman_dx_dt_dt";
          "kalman_y"; "kalman_dy_dt"; "kalman_dy_dt_dt";
          "rts_x"; "rts_dx_dt"; "rts_dx_dt_dt"; "rts_y"; "rts_dy_dt"; "rts_dy_dt_dt"].
Proof.
  destruct (kalman df_with_kalman_x) as [d|e d] eqn:E.
  - exists d. split; [reflexivity|].
    apply (proj1 (proj2 (kalman_creates_the_missing_columns df_with_kalman_x d E))).
    discriminate.
  - vm_compute in E. discriminate E.
Defined.

(** ** [kalman]: when it can return *)

Lemma groupby_has_group :
  forall (A : Type) (key : A -> Z) (l : list A) (a : A),
    In a l -> In (key a, filter (fun b => key b =? key a) l) (groupby key l).
Proof.
  intros A key l a H. unfold groupby.
  apply in_map_iff. exists (key a). split; [reflexivity|].
  apply sorted_keys_In. apply in_map. exact H.
Qed.

(** X4.  [kalman] returns only if every track can be initialised: for every
    row of the dataframe there is a row of the same [trackingId] in which
    both [x] and [y] are present. *)
Theorem kalman_returns_only_with_measurements :
  forall df df' : DataFrame,
    kalman df = Returned df' ->
    forall r, In r (rows df) ->
      exists r', In r' (rows df)
                 /\ row_trackingId r' = row_trackingId r
                 /\ isna (row_x r') = false /\ isna (row_y r') = false.
Proof.
  intros df df' H r Hr.
  set (gdf := filter (fun b => row_trackingId b =? row_trackingId r) (rows df)).
  destruct (existsb start_idx gdf) eqn:E.
  - apply existsb_exists in E. destruct E as [r' [Hin Hs]].
    apply filter_In in Hin. destruct Hin as [Hin Hk].
    exists r'. split; [exact Hin|]. split; [apply Z.eqb_eq; exact Hk|].
    unfold start_idx in Hs. apply Bool.negb_true_iff, Bool.orb_false_iff in Hs.
    exact Hs.
  - exfalso.
    destruct (track_without_measurement_aborts_batch df (row_trackingId r) gdf)
      as [e [d Hd]].
    + apply groupby_has_group. exact Hr.
    + intros q Hq. destruct (start_idx q) eqn:Sq; [|reflexivity].
      assert (existsb start_idx gdf = true); [|congruence].
      apply existsb_exists. exists q. split; assumption.
    + rewrite H in Hd. discriminate Hd.
Qed.

Lemma kalman_returns_only_with_measurements_witness :
  exists r',
    In r' (rows df_two_tracks)
    /\ row_trackingId r' = 2
    /\ isna (row_x r') = false /\ isna (row_y r') = false.
Proof.
  destruct (kalman df_two_tracks) as [d|e d] eqn:E.
  - apply (kalman_returns_only_with_measurements df_two_tracks d E (mkRow 2 2 NaN NaN)).
    simpl. tauto.
  - vm_compute in E. discriminate E.
Defined.

(** ** [kalman_filter]: the measurement model *)

Lemma dot_app : forall (a b v : mat), dot (a ++ b) v = dot a v ++ dot b v.
Proof. intros a b v. unfold dot. apply map_app. Qed.

Lemma dot_concat_repeat :
  forall (n : nat) (b v : mat), dot (concat (repeat b n)) v = concat (repeat (dot b v) n).
Proof.
  induction n as [|n IH]; intros b v; [reflexivity|].
  cbn [repeat concat]. rewrite dot_app, IH. reflexivity.
Qed.

Lemma mat_eq_app :
  forall a a' b b' : mat, mat_eq a a' -> mat_eq b b' -> mat_eq (a ++ b) (a' ++ b').
Proof. intros a a' b b' H1 H2. apply Forall2_app; assumption. Qed.

Lemma kalman_filter_fields :
  forall (sx sy dt : num) (n : nat) (k : KalmanFilter),
    kalman_filter sx sy dt (S n) = ret k ->
    dim_z k = (2 * S n)%nat
    /\ kf_F k = transition dt
    /\ kf_H k = concat (repeat [ [of_Z 1; of_Z 0; of_Z 0; of_Z 0; of_Z 0; of_Z 0];
                                 [of_Z 0; of_Z 0; of_Z 0; of_Z 1; of_Z 0; of_Z 0] ] (S n))
    /\ kf_R k = mscale (eye (2 * S n)) (nmul (of_Z 15) (of_Z 15))
    /\ kf_x k = column [sx; of_Z 0; of_Z 0; sy; of_Z 0; of_Z 0]
    /\ kf_P k = mscale (eye 6) (of_Z 15).
Proof.
  intros sx sy dt n k H. unfold kalman_filter, KalmanFilter_init in H.
  change (6 <? 1)%nat with false in H.
  replace (2 * S n <? 1)%nat with false in H
    by (symmetry; apply Nat.ltb_ge; lia).
  cbv beta iota delta [bind] in H. apply ret_inj in H. subst k.
  repeat split.
Qed.

(** X5.  [kalman_filter] refuses zero sensors with [ValueError] (filterpy
    wants a measurement of dimension 1 at least).  With [k >= 1] sensors the
    measurement has dimension [2 k], the noise matrix has [2 k] rows, and
    the measurement matrix takes a state to [k] copies of its position
    [(x, y)]; velocity and acceleration are not measured. *)
Theorem measurement_model_selects_position :
  forall (sx sy dt : num) (n : nat),
    kalman_filter sx sy dt 0 = raise ValueError
    /\ forall (k : KalmanFilter) (px vx ax py vy ay : Q),
         kalman_filter sx sy dt (S n) = ret k ->
         dim_z k = (2 * S n)%nat
         /\ length (kf_H k) = (2 * S n)%nat
         /\ length (kf_R k) = (2 * S n)%nat
         /\ mat_eq (dot (kf_H k) (state px vx ax py vy ay))
                   (column (concat (repeat [Some px; Some py] (S n)))).
Proof.
  intros sx sy dt n. split; [reflexivity|].
  intros k px vx ax py vy ay H.
  destruct (kalman_filter_fields _ _ _ _ _ H) as [Hz [_ [HH [HR _]]]].
  split; [exact Hz|]. rewrite HH, HR. split; [|split].
  - rewrite length_concat, map_repeat. cbn [length].
    generalize (S n). intros m. induction m as [|m IH]; [reflexivity|].
    cbn [repeat].
    change (list_sum (2 :: repeat 2 m))%nat with (2 + list_sum (repeat 2 m))%nat.
    rewrite IH. lia.
  - unfold mscale, eye. rewrite !length_map, length_seq. reflexivity.
  - rewrite dot_concat_repeat.
    assert (B : mat_eq (dot [ [of_Z 1; of_Z 0; of_Z 0; of_Z 0; of_Z 0; of_Z 0];
                              [of_Z 0; of_Z 0; of_Z 0; of_Z 1; of_Z 0; of_Z 0] ]
                            (state px vx ax py vy ay))
                       (column [Some px; Some py])).
    { unfold mat_eq, state, column. cbn -[Qred Qplus Qmult Qminus].
      repeat constructor; cbn -[Qred Qplus Qmult Qminus]; rewrite ?Qred_eq; ring. }
    generalize (S n). intros m. induction m as [|m IH]; [constructor|].
    cbn [repeat concat]. unfold column in *. rewrite map_app.
    apply mat_eq_app; [exact B | exact IH].
Qed.

Lemma measurement_model_selects_position_witness :
  mat_eq (dot (kf_H kfilter_11) (state 3 1 0 4 (-1) 0)) (column [Some 3%Q; Some 4%Q]).
Proof.
  exact (proj2 (proj2 (proj2 (proj2 (measurement_model_selects_position
                                       (of_Z 1) (of_Z 1) (ndiv (of_Z 1) (of_Z 30)) 0)
                                      kfilter_11 3%Q 1%Q 0%Q 4%Q (-1)%Q 0%Q eq_refl)))).
Defined.

(** ** Gaps: motion at constant acceleration *)

Lemma num_eq_Some :
  forall (a : num) (q : Q), num_eq a (Some q) -> exists p, a = Some p /\ p == q.
Proof.
  intros [p|] q H; cbn in H; [|contradiction]. exists p. split; [reflexivity | exact H].
Qed.

Lemma mat_eq_state :
  forall (x : mat) (p v a p' v' a' : Q),
    mat_eq x (state p v a p' v' a') ->
    exists q0 q1 q2 q3 q4 q5,
      x = state q0 q1 q2 q3 q4 q5
      /\ q0 == p /\ q1 == v /\ q2 == a /\ q3 == p' /\ q4 == v' /\ q5 == a'.
Proof.
  intros x p v a p' v' a' H. unfold mat_eq, state, column in H. cbn [map] in H.
  repeat match goal with
         | H : Forall2 _ _ (_ :: _) |- _ =>
             apply Forall2_cons_iff_r in H || (inversion H; subst; clear H)
         | H : Forall2 _ _ [] |- _ => inversion H; subst; clear H
         | H : num_eq _ (Some _) |- _ =>
             apply num_eq_Some in H; destruct H as [? [-> ?]]
         end.
  do 6 eexists. split; [reflexivity|]. repeat split; assumption.
Qed.

Lemma state_eq :
  forall p v a p' v' a' q0 q1 q2 q3 q4 q5 : Q,
    q0 == p -> q1 == v -> q2 == a -> q3 == p' -> q4 == v' -> q5 == a' ->
    mat_eq (state q0 q1 q2 q3 q4 q5) (state p v a p' v' a').
Proof.
  intros. unfold mat_eq, state, column. cbn [map].
  repeat constructor; assumption.
Qed.

Lemma mat_eq_trans_state :
  forall (x : mat) (p v a p' v' a' q0 q1 q2 q3 q4 q5 : Q),
    mat_eq x (state q0 q1 q2 q3 q4 q5) ->
    q0 == p -> q1 == v -> q2 == a -> q3 == p' -> q4 == v' -> q5 == a' ->
    mat_eq x (state p v a p' v' a').
Proof.
  intros x p v a p' v' a' q0 q1 q2 q3 q4 q5 H E0 E1 E2 E3 E4 E5.
  destruct (mat_eq_state _ _ _ _ _ _ _ H) as [r0 [r1 [r2 [r3 [r4 [r5 [-> Hr]]]]]]].
  destruct Hr as [R0 [R1 [R2 [R3 [R4 R5]]]]].
  apply state_eq.
  - rewrite R0. exact E0.
  - rewrite R1. exact E1.
  - rewrite R2. exact E2.
  - rewrite R3. exact E3.
  - rewrite R4. exact E4.
  - rewrite R5. exact E5.
Qed.

(** One prediction, from any state that is the given one up to the
    representation of its numbers. *)
Lemma predict_state :
  forall (k : KalmanFilter) (dt px vx ax py vy ay : Q),
    kf_F k = transition (Some dt) ->
    mat_eq (kf_x k) (state px vx ax py vy ay) ->
    kf_F (predict k) = transition (Some dt)
    /\ mat_eq (kf_x (predict k)) (extrapolate px vx ax py vy ay dt 1).
Proof.
  intros k dt px vx ax py vy ay HF Hx. split; [exact HF|].
  destruct (mat_eq_state _ _ _ _ _ _ _ Hx) as [q0 [q1 [q2 [q3 [q4 [q5 [Ex Hq]]]]]]].
  destruct Hq as [E0 [E1 [E2 [E3 [E4 E5]]]]].
  unfold predict. cbn [kf_x set_P set_x]. rewrite HF, Ex.
  unfold mat_eq, extrapolate, state, column, transition.
  cbn -[Qred Qplus Qmult Qminus inject_Z].
  repeat constructor; cbn -[Qred Qplus Qmult Qminus inject_Z];
    rewrite ?Qred_eq, ?E0, ?E1, ?E2, ?E3, ?E4, ?E5;
    change (inject_Z (Z.of_nat 1)) with 1%Q; ring.
Qed.

Lemma inject_succ :
  forall n : nat, inject_Z (Z.of_nat (S n)) == inject_Z (Z.of_nat n) + 1.
Proof.
  intros n. rewrite Nat2Z.inj_succ. unfold Z.succ. rewrite inject_Z_plus. reflexivity.
Qed.

(** A run of predict-only steps: the mean after the [i]-th of them is the
    motion at constant acceleration over [i] steps. *)
Lemma spec_run_false_extrapolates :
  forall (run : list Row) (k : KalmanFilter) (dt px vx ax py vy ay : Q),
    kf_F k = transition (Some dt) ->
    mat_eq (kf_x k) (state px vx ax py vy ay) ->
    exists ms cs k',
      spec_run false k run = ret (ms, cs, k')
      /\ length ms = length run
      /\ forall i, (i < length run)%nat ->
           mat_eq (nth i ms []) (extrapolate px vx ax py vy ay dt (S i)).
Proof.
  induction run as [|r rest IH]; intros k dt px vx ax py vy ay HF Hx.
  - exists [], [], k. split; [reflexivity|]. split; [reflexivity|].
    intros i Hi. cbn in Hi. lia.
  - destruct (predict_state k dt px vx ax py vy ay HF Hx) as [HF1 Hx1].
    unfold extrapolate in Hx1.
    destruct (IH (predict k) dt _ _ _ _ _ _ HF1 Hx1) as [ms [cs [k' [E [L Hn]]]]].
    exists (kf_x (predict k) :: ms), (kf_P (predict k) :: cs), k'.
    split; [cbn [spec_run bind ret]; rewrite E; reflexivity|].
    split; [cbn [length]; congruence|].
    intros [|i] Hi; cbn [nth].
    + exact Hx1.
    + assert (Hi' : (i < length rest)%nat) by (cbn [length] in Hi; lia).
      specialize (Hn i Hi'). unfold extrapolate in *.
      eapply mat_eq_trans_state; [exact Hn| | | | | |]; cbv zeta;
        try rewrite (inject_succ (S i)); change (inject_Z (Z.of_nat 1)) with 1%Q; ring.
Qed.

(** X6.  In a group of [run_filter] whose first row has no [x], nothing is
    measured: from a filter built by [kalman_filter] with step [dt] whose
    state is position [p], velocity [v], acceleration [a] on each axis, the
    mean recorded for the [i]-th row of the group (counting from 1) is
    [p + v t + a t^2 / 2], [v + a t], [a] with [t = i dt], and no row of the
    group can make the filter fail. *)
Theorem gap_is_extrapolated :
  forall (sx sy : num) (nsensors : nat) (k0 k : KalmanFilter)
         (dt px vx ax py vy ay : Q) (r0 : Row) (rest : list Row),
    kalman_filter sx sy (Some dt) nsensors = ret k0 ->
    kf_F k = kf_F k0 ->
    mat_eq (kf_x k) (state px vx ax py vy ay) ->
    isna (row_x r0) = true ->
    exists ms cs k',
      run_block k (r0 :: rest) = ret (ms, cs, k')
      /\ length ms = S (length rest)
      /\ forall i, (i < S (length rest))%nat ->
           mat_eq (nth i ms []) (extrapolate px vx ax py vy ay dt (S i)).
Proof.
  intros sx sy nsensors k0 k dt px vx ax py vy ay r0 rest H0 HF Hx Hna.
  destruct nsensors as [|n]; [discriminate H0|].
  destruct (kalman_filter_fields _ _ _ _ _ H0) as [_ [HF0 _]].
  rewrite HF0 in HF.
  rewrite run_block_first_row, Hna. cbn [orb].
  exact (spec_run_false_extrapolates (r0 :: rest) k dt px vx ax py vy ay HF Hx).
Qed.

Lemma gap_is_extrapolated_witness :
  exists ms cs k',
    run_block kfilter_11 [mkRow 1 1 NaN NaN; mkRow 2 1 NaN (of_Z 5)] = ret (ms, cs, k')
    /\ length ms = 2%nat
    /\ forall i, (i < 2)%nat ->
         mat_eq (nth i ms []) (extrapolate 1 0 0 1 0 0 (1 # 30) (S i)).
Proof.
  apply (gap_is_extrapolated (of_Z 1) (of_Z 1) 1 kfilter_11 kfilter_11
           (1 # 30)%Q 1%Q 0%Q 0%Q 1%Q 0%Q 0%Q (mkRow 1 1 NaN NaN) [mkRow 2 1 NaN (of_Z 5)]).
  - reflexivity.
  - reflexivity.
  - apply state_eq; reflexivity.
  - reflexivity.
Defined.

(** ** Frames before the first measurement *)

Lemma runs_leading :
  forall (A : Type) (st : A -> bool) (gap : list A) (r : A) (rest : list A),
    gap <> [] ->
    (forall g, In g gap -> st g = true) ->
    st r = false ->
    runs st (gap ++ r :: rest) = gap :: runs st (r :: rest).
Proof.
  intros A st gap r rest Hne Hgap Hr.
  induction gap as [|g gap IH]; [congruence|].
  destruct gap as [|g' gap'].
  - cbn [app]. destruct (runs_head st r rest) as [run [more E]].
    rewrite (runs_cons st g r rest _ _ E), E.
    rewrite (Hgap g (or_introl eq_refl)), Hr. reflexivity.
  - assert (E : runs st ((g' :: gap') ++ r :: rest) = (g' :: gap') :: runs st (r :: rest)).
    { apply IH; [discriminate|]. intros x Hx. apply Hgap. right. exact Hx. }
    cbn [app] in *. rewrite (runs_cons st g g' _ _ _ E).
    rewrite (Hgap g (or_introl eq_refl)), (Hgap g' (or_intror (or_introl eq_refl))).
    reflexivity.
Qed.

Lemma find_after_gap :
  forall (gap : list Row) (r : Row) (rest : list Row),
    (forall g, In g gap -> isna (row_x g) = true) ->
    start_idx r = true ->
    find start_idx (gap ++ r :: rest) = Some r.
Proof.
  induction gap as [|g gap IH]; intros r rest Hgap Hr.
  - cbn. rewrite Hr. reflexivity.
  - cbn [app find]. unfold start_idx at 1. rewrite (Hgap g (or_introl eq_refl)).
    cbn [orb negb]. apply IH; [|exact Hr]. intros x Hx. apply Hgap. right. exact Hx.
Qed.

(** X7.  When a track begins with rows that have no [x] and [r] is the
    first row with both coordinates, the filter that [kalman] builds starts
    at [r]'s position, and the forward mean that [run_filter] returns for
    every row before [r] is that position, with zero velocity and zero
    acceleration: the frames before the first measurement are filled with
    the first measurement. *)
Theorem leading_gap_is_backfilled :
  forall (gap : list Row) (r : Row) (rest : list Row),
    gap <> [] ->
    (forall g, In g gap -> isna (row_x g) = true) ->
    start_idx r = true ->
    exists (kf : KalmanFilter) (qx qy : Q),
      init_filter (gap ++ r :: rest) = ret kf
      /\ row_x r = Some qx /\ row_y r = Some qy
      /\ forall mu cov kf',
           run_filter kf (gap ++ r :: rest) = ret (mu, cov, kf') ->
           forall i, (i < length gap)%nat ->
             mat_eq (nth i mu []) (state qx 0 0 qy 0 0).
Proof.
  intros gap r rest Hne Hgap Hr.
  assert (Hxy : exists qx qy, row_x r = Some qx /\ row_y r = Some qy).
  { unfold start_idx in Hr. destruct (row_x r) as [qx|], (row_y r) as [qy|];
      try discriminate Hr. exists qx, qy. split; reflexivity. }
  destruct Hxy as [qx [qy [Ex Ey]]].
  pose proof (find_after_gap gap r rest Hgap Hr) as Hfind.
  destruct (kalman_filter (row_x r) (row_y r) (ndiv (of_Z 1) (of_Z 30)) 1)
    as [e|kf] eqn:Ekf.
  { unfold kalman_filter, KalmanFilter_init in Ekf.
    change (6 <? 1)%nat with false in Ekf. change (2 * 1 <? 1)%nat with false in Ekf.
    cbv beta iota delta [bind ret] in Ekf. discriminate Ekf. }
  exists kf, qx, qy.
  split.
  { unfold init_filter.
    rewrite (iloc0_filter_find _ _ start_idx row_x _ r Hfind).
    rewrite (iloc0_filter_find _ _ start_idx row_y _ r Hfind).
    cbn [bind ret]. exact Ekf. }
  split; [exact Ex|]. split; [exact Ey|].
  intros mu cov kf' Hrun i Hi.
  destruct (kalman_filter_fields _ _ _ _ _ Ekf) as [_ [HF [_ [_ [Hx0 _]]]]].
  change (ndiv (of_Z 1) (of_Z 30)) with (Some (Qred (inject_Z 1 / inject_Z 30))) in HF.
  rewrite Ex, Ey in Hx0.
  assert (Hst : mat_eq (kf_x kf) (state qx 0 0 qy 0 0)).
  { rewrite Hx0. apply state_eq; reflexivity. }
  rewrite run_filter_stacked in Hrun by (destruct gap; [congruence | discriminate]).
  rewrite (runs_leading _ x_missing gap r rest Hne) in Hrun.
  2:{ intros g Hg. unfold x_missing. apply Hgap. exact Hg. }
  2:{ unfold x_missing. rewrite Ex. reflexivity. }
  unfold stacked in Hrun. cbn [run_blocks] in Hrun.
  destruct gap as [|g0 gap']; [congruence|].
  rewrite run_block_first_row in Hrun.
  rewrite (Hgap g0 (or_introl eq_refl)) in Hrun. cbn [orb] in Hrun.
  destruct (spec_run_false_extrapolates (g0 :: gap') kf _ _ _ _ _ _ _ HF Hst)
    as [ms [cs [k1 [E [L Hn]]]]].
  rewrite E in Hrun. cbn [bind ret] in Hrun.
  destruct (run_blocks k1 (runs x_missing (r :: rest))) as [e|[[ms' cs'] k2]];
    cbn [bind ret] in Hrun; [discriminate Hrun|].
  apply ret_inj in Hrun. injection Hrun as <- _ _.
  cbn [concat]. rewrite app_nth1 by (rewrite L; exact Hi).
  specialize (Hn i Hi). unfold extrapolate in Hn. cbv zeta in Hn.
  eapply mat_eq_trans_state; [exact Hn| | | | | |]; ring.
Qed.

Lemma leading_gap_is_backfilled_witness :
  exists (kf : KalmanFilter) (qx qy : Q),
    init_filter track_leading_gap = ret kf
    /\ Some qx = of_Z 4 /\ Some qy = of_Z 9
    /\ forall mu cov kf',
         run_filter kf track_leading_gap = ret (mu, cov, kf') ->
         forall i, (i < 2)%nat -> mat_eq (nth i mu []) (state qx 0 0 qy 0 0).
Proof.
  destruct (leading_gap_is_backfilled
              [mkRow 0 7 NaN NaN; mkRow 1 7 NaN (of_Z 3)]
              (mkRow 2 7 (of_Z 4) (of_Z 9)) [mkRow 3 7 (of_Z 5) (of_Z 8)])
    as [kf [qx [qy [Hi [Hx [Hy H]]]]]].
  - discriminate.
  - intros g Hg. simpl in Hg.
    repeat (destruct Hg as [<-|Hg]; [reflexivity|]). contradiction.
  - reflexivity.
  - exists kf, qx, qy. cbn [row_x row_y] in Hx, Hy.
    split; [exact Hi|]. split; [symmetry; exact Hx|]. split; [symmetry; exact Hy|].
    exact H.
Defined.

(** ** [kalman]: every row gets the estimates of its own track *)

Lemma position_nth :
  forall (rws : list Row) (l : Z) (i : nat),
    position l rws = Some i -> exists r, nth_error rws i = Some r /\ row_index r = l.
Proof.
  induction rws as [|r t IH]; intros l i H; [discriminate H|].
  cbn [position] in H. destruct (Z.eqb_spec (row_index r) l) as [E|E].
  - injection H as <-. exists r. split; [reflexivity | exact E].
  - destruct (position l t) as [i'|] eqn:P; [|discriminate H].
    cbn in H. injection H as <-. exact (IH l i' P).
Qed.

Lemma position_In :
  forall (rws : list Row) (r : Row),
    In r rws -> exists i, position (row_index r) rws = Some i.
Proof.
  induction rws as [|q t IH]; intros r H; [contradiction|].
  cbn [position]. destruct (Z.eqb_spec (row_index q) (row_index r)) as [E|E].
  - exists 0%nat. reflexivity.
  - destruct H as [->|H]; [congruence|].
    destruct (IH r H) as [i ->]. exists (S i). reflexivity.
Qed.

Lemma lookup_label_nth :
  forall (L : list Z) (V : list num) (j : nat) (l : Z),
    NoDup L -> nth_error L j = Some l -> length V = length L ->
    lookup_label l L V = nth_error V j.
Proof.
  induction L as [|k ks IH]; intros V j l Hnd Hj Hlen.
  - destruct j; discriminate Hj.
  - destruct V as [|v vs]; [discriminate Hlen|].
    inversion Hnd as [|? ? Hk Hks]; subst.
    cbn [lookup_label]. destruct j as [|j].
    + cbn in Hj. injection Hj as ->. rewrite Z.eqb_refl. reflexivity.
    + cbn [nth_error] in *.
      destruct (Z.eqb_spec l k) as [->|Hne].
      * exfalso. apply Hk. eapply nth_error_In. exact Hj.
      * apply IH; [exact Hks | exact Hj |]. cbn [length] in Hlen. lia.
Qed.

Lemma lookup_label_notin :
  forall (L : list Z) (V : list num) (l : Z), ~ In l L -> lookup_label l L V = None.
Proof.
  induction L as [|k ks IH]; intros V l H; [reflexivity|].
  destruct V as [|v vs]; [reflexivity|]. cbn [lookup_label].
  destruct (Z.eqb_spec l k) as [->|Hne].
  - exfalso. apply H. left. reflexivity.
  - apply IH. intros Hin. apply H. right. exact Hin.
Qed.

Lemma nth_error_map2 :
  forall (A B C : Type) (f : A -> B -> C) (a : list A) (b : list B) (i : nat),
    nth_error (map2 f a b) i =
      match nth_error a i, nth_error b i with
      | Some x, Some y => Some (f x y)
      | _, _ => None
      end.
Proof.
  intros A B C f a. induction a as [|x a IH]; intros b i.
  - cbn. destruct i; reflexivity.
  - destruct b as [|y b].
    + cbn. destruct i; cbn; [reflexivity|]. destruct (nth_error a i); reflexivity.
    + destruct i as [|i]; cbn; [reflexivity | apply IH].
Qed.

Section ColumnUpdate.
Variables (c0 : string) (g : list num -> list num).

Let upd (nv : string * list num) : string * list num :=
  if String.eqb (fst nv) c0 then (fst nv, g (snd nv)) else nv.

Lemma get_col_update :
  forall (c : string) (cs : list (string * list num)),
    get_col c (map upd cs) =
      if String.eqb c c0 then option_map g (get_col c cs) else get_col c cs.
Proof.
  intros c cs. induction cs as [|[n v] cs IH]; cbn [map get_col].
  - destruct (String.eqb c c0); reflexivity.
  - unfold upd in *. cbn [fst snd].
    destruct (String.eqb_spec n c0) as [->|Hn]; cbn [fst snd].
    + destruct (String.eqb_spec c0 c) as [<-|Hc].
      * rewrite String.eqb_refl. reflexivity.
      * rewrite IH. reflexivity.
    + destruct (String.eqb_spec n c) as [->|Hc].
      * rewrite (proj2 (String.eqb_neq c c0) Hn). reflexivity.
      * exact IH.
Qed.
End ColumnUpdate.

Lemma get_col_app :
  forall (c : string) (cs cs' : list (string * list num)),
    get_col c (cs ++ cs') =
      match get_col c cs with
      | Some v => Some v
      | None => get_col c cs'
      end.
Proof.
  intros c cs cs'. induction cs as [|[n v] cs IH]; [reflexivity|].
  cbn [app get_col fst snd]. destruct (String.eqb n c); [reflexivity | exact IH].
Qed.

Lemma has_col_get_col :
  forall (c : string) (df : DataFrame),
    has_col c df = match get_col c (cols df) with Some _ => true | None => false end.
Proof.
  intros c df. unfold has_col, col_names.
  induction (cols df) as [|[n v] cs IH]; [reflexivity|].
  cbn [map existsb get_col fst snd]. rewrite String.eqb_sym.
  destruct (String.eqb n c); [reflexivity | exact IH].
Qed.

Lemma get_col_length :
  forall (c : string) (df : DataFrame) (v : list num),
    well_formed df -> get_col c (cols df) = Some v -> length v = length (rows df).
Proof.
  intros c df v Hwf. unfold well_formed in Hwf.
  induction (cols df) as [|[n w] cs IH]; intros H; [discriminate H|].
  apply Forall_cons_iff in Hwf. destruct Hwf as [Hw Hcs].
  cbn [get_col fst snd] in H. destruct (String.eqb n c).
  - injection H as <-. exact Hw.
  - exact (IH Hcs H).
Qed.

Lemma loc_set_well_formed :
  forall (df : DataFrame) (labels : list Z) (c : string) (values : list num),
    well_formed df -> well_formed (loc_set labels c values df).
Proof.
  intros df labels c values Hwf. unfold well_formed, loc_set in *. cbn [rows cols].
  apply Forall_forall. intros cv Hin. apply in_map_iff in Hin.
  destruct Hin as [[n v] [<- Hin]].
  assert (Hv : length v = length (rows df)).
  { destruct (has_col c df).
    - rewrite Forall_forall in Hwf. exact (Hwf _ Hin).
    - apply in_app_or in Hin. destruct Hin as [Hin|[E|[]]].
      + rewrite Forall_forall in Hwf. exact (Hwf _ Hin).
      + injection E as _ <-. apply repeat_length. }
  cbn [fst snd]. destruct (String.eqb n c); cbn [snd]; [|exact Hv].
  unfold assign. apply map2_length. symmetry. exact Hv.
Qed.

(** What an assignment does to a cell. *)
Lemma cell_loc_set :
  forall (df : DataFrame) (labels : list Z) (c0 : string) (values : list num)
         (c : string) (l : Z) (i : nat),
    well_formed df ->
    position l (rows df) = Some i ->
    cell (loc_set labels c0 values df) c l =
      if String.eqb c c0
      then match lookup_label l labels values with
           | Some v => Some v
           | None => match get_col c (cols df) with
                     | Some old => nth_error old i
                     | None => Some NaN
                     end
           end
      else cell df c l.
Proof.
  intros df labels c0 values c l i Hwf Hpos.
  unfold cell, loc_set. cbn [rows cols]. rewrite Hpos.
  rewrite (get_col_update c0 (assign labels values (rows df))).
  destruct (String.eqb_spec c c0) as [->|Hc].
  2:{ destruct (has_col c0 df); [reflexivity|].
      rewrite get_col_app. cbn [get_col fst snd].
      rewrite (proj2 (String.eqb_neq c0 c)) by congruence.
      destruct (get_col c (cols df)); reflexivity. }
  destruct (position_nth _ _ _ Hpos) as [r [Hr Hl]].
  assert (Hi : (i < length (rows df))%nat) by (apply nth_error_Some; congruence).
  rewrite has_col_get_col.
  destruct (get_col c0 (cols df)) as [old|] eqn:G; cbv iota.
  - rewrite G. cbn [option_map].
    pose proof (get_col_length _ _ _ Hwf G) as Hlen.
    unfold assign. rewrite nth_error_map2, Hr, Hl.
    destruct (nth_error old i) as [o|] eqn:O.
    + destruct (lookup_label l labels values); reflexivity.
    + apply nth_error_None in O. lia.
  - rewrite get_col_app, G. cbn [get_col fst snd]. rewrite String.eqb_refl.
    cbn [option_map]. unfold assign. rewrite nth_error_map2, Hr, Hl.
    rewrite nth_error_repeat by exact Hi.
    destruct (lookup_label l labels values); reflexivity.
Qed.

Lemma add_name_incl :
  forall (c x : string) (ns : list string), In x ns -> In x (add_name c ns).
Proof.
  intros c x ns H. unfold add_name.
  destruct (existsb (String.eqb c) ns); [exact H | apply in_or_app; left; exact H].
Qed.

Lemma add_name_In : forall (c : string) (ns : list string), In c (add_name c ns).
Proof.
  intros c ns. unfold add_name. destruct (existsb (String.eqb c) ns) eqn:E.
  - apply existsb_eqb_In. exact E.
  - apply in_or_app. right. left. reflexivity.
Qed.

Lemma has_col_In : forall c df, has_col c df = true <-> In c (col_names df).
Proof. intros c df. unfold has_col. apply existsb_eqb_In. Qed.

Lemma loc_set_has_col :
  forall df labels c0 values c,
    has_col c df = true \/ c = c0 -> has_col c (loc_set labels c0 values df) = true.
Proof.
  intros df labels c0 values c H. apply has_col_In. rewrite loc_set_col_names.
  destruct H as [H| ->]; [apply add_name_incl, has_col_In; exact H | apply add_name_In].
Qed.

Lemma write_all_rows :
  forall ws L df, rows (write_all L ws df) = rows df.
Proof.
  induction ws as [|w ws IH]; intros L df; [reflexivity|].
  unfold write_all in *. cbn [fold_left]. rewrite IH. reflexivity.
Qed.

Lemma write_all_well_formed :
  forall ws L df, well_formed df -> well_formed (write_all L ws df).
Proof.
  induction ws as [|w ws IH]; intros L df H; [exact H|].
  unfold write_all in *. cbn [fold_left]. apply IH, loc_set_well_formed, H.
Qed.

Lemma write_all_has_col :
  forall ws L df c,
    has_col c df = true \/ In c (map fst ws) -> has_col c (write_all L ws df) = true.
Proof.
  induction ws as [|w ws IH]; intros L df c H.
  - destruct H as [H|[]]. exact H.
  - unfold write_all in *. cbn [fold_left]. apply IH.
    destruct H as [H|[H|H]].
    + left. apply loc_set_has_col. left. exact H.
    + left. apply loc_set_has_col. right. symmetry. exact H.
    + right. exact H.
Qed.

(** Assignments at labels other than [l] leave the cells of the row [l] in
    the columns that exist as they are. *)
Lemma cell_write_all_keep :
  forall ws L df c l i,
    well_formed df -> position l (rows df) = Some i ->
    ~ In l L -> has_col c df = true ->
    cell (write_all L ws df) c l = cell df c l.
Proof.
  induction ws as [|w ws IH]; intros L df c l i Hwf Hpos Hl Hc; [reflexivity|].
  unfold write_all in *. cbn [fold_left].
  rewrite (IH L _ c l i).
  - rewrite (cell_loc_set df L (fst w) (snd w) c l i Hwf Hpos).
    destruct (String.eqb_spec c (fst w)) as [E|E]; [|reflexivity].
    rewrite (lookup_label_notin L (snd w) l Hl).
    unfold cell. rewrite Hpos. rewrite has_col_get_col in Hc.
    destruct (get_col c (cols df)); [reflexivity | discriminate Hc].
  - apply loc_set_well_formed, Hwf.
  - exact Hpos.
  - exact Hl.
  - apply loc_set_has_col. left. exact Hc.
Qed.

Lemma cell_write_all_other :
  forall ws L df c l i,
    well_formed df -> position l (rows df) = Some i ->
    ~ In c (map fst ws) ->
    cell (write_all L ws df) c l = cell df c l.
Proof.
  induction ws as [|w ws IH]; intros L df c l i Hwf Hpos Hc; [reflexivity|].
  unfold write_all in *. cbn [fold_left].
  rewrite (IH L _ c l i).
  - rewrite (cell_loc_set df L (fst w) (snd w) c l i Hwf Hpos).
    destruct (String.eqb_spec c (fst w)) as [E|E]; [|reflexivity].
    exfalso. apply Hc. left. symmetry. exact E.
  - apply loc_set_well_formed, Hwf.
  - exact Hpos.
  - intros H. apply Hc. right. exact H.
Qed.

(** The assignment to column [c] decides the cell of a row among the
    labels, when no other of the assignments is to [c]. *)
Lemma cell_write_all_in :
  forall ws L df c V l i v,
    well_formed df -> position l (rows df) = Some i ->
    NoDup (map fst ws) -> In (c, V) ws ->
    lookup_label l L V = Some v ->
    cell (write_all L ws df) c l = Some v.
Proof.
  induction ws as [|w ws IH]; intros L df c V l i v Hwf Hpos Hnd Hin Hv;
    [contradiction|].
  inversion Hnd as [|? ? Hw Hws]; subst.
  unfold write_all in *. cbn [fold_left].
  destruct Hin as [->|Hin].
  - cbn [fst snd] in *. fold (write_all L ws (loc_set L c V df)).
    rewrite (cell_write_all_other ws L _ c l i).
    + rewrite (cell_loc_set df L c V c l i Hwf Hpos).
      rewrite String.eqb_refl, Hv. reflexivity.
    + apply loc_set_well_formed, Hwf.
    + exact Hpos.
    + exact Hw.
  - apply (IH L _ c V l i v).
    + apply loc_set_well_formed, Hwf.
    + exact Hpos.
    + exact Hws.
    + exact Hin.
    + exact Hv.
Qed.

Lemma kalman_track_success :
  forall (g : list Row) (d d' : DataFrame),
    kalman_track g d = (ret tt, d') ->
    exists kf mu cov kf' mu_rts cov_rts K Pp,
      init_filter g = ret kf
      /\ run_filter kf g = ret (mu, cov, kf')
      /\ rts_smoother kf' mu cov = ret (mu_rts, cov_rts, K, Pp)
      /\ d' = write_all (map row_index g) (track_writes mu mu_rts) d.
Proof.
  intros g d d' H. unfold kalman_track, bindM, lift, modify in H.
  destruct (init_filter g) as [e|kf] eqn:E1; [discriminate H|].
  destruct (run_filter kf g) as [e|[[mu cov] kf']] eqn:E2; [discriminate H|].
  destruct (rts_smoother kf' mu cov) as [e|[[[mu_rts cov_rts] K] Pp]] eqn:E3;
    [discriminate H|].
  injection H as <-.
  exists kf, mu, cov, kf', mu_rts, cov_rts, K, Pp.
  split; [reflexivity|]. split; [exact E2|]. split; [exact E3 | reflexivity].
Qed.

Lemma rts_loop_length :
  forall (F Q : mat) (rest : list (mat * mat)) (xk Pk : mat)
         (s : smoothed) (tl : list smoothed),
    rts_loop F Q xk Pk rest = ret (s, tl) -> length tl = length rest.
Proof.
  intros F Q. induction rest as [|[xn Pn] rest IH]; intros xk Pk s tl H.
  - cbn in H. apply ret_inj in H. injection H as _ <-. reflexivity.
  - cbn [rts_loop] in H.
    destruct (rts_loop F Q xn Pn rest) as [e|[next tl']] eqn:E; [discriminate H|].
    cbn [bind] in H. destruct next as [[[x1 P1] K1] Pp1].
    destruct (np_linalg_inv _) as [e|PI]; [discriminate H|].
    cbn [bind] in H. apply ret_inj in H. injection H as _ <-.
    cbn [length]. rewrite (IH _ _ _ _ E). reflexivity.
Qed.

(** The smoother gives back as many means as it was given. *)
Lemma rts_smoother_length :
  forall (k : KalmanFilter) (Xs Ps x P K Pp : list mat),
    rts_smoother k Xs Ps = ret (x, P, K, Pp) ->
    length Xs = length Ps /\ length x = length Xs.
Proof.
  intros k Xs Ps x P K Pp H. unfold rts_smoother in H.
  destruct (Nat.eqb_spec (length Xs) (length Ps)) as [L|L]; [|discriminate H].
  cbn [negb] in H. split; [exact L|].
  destruct Xs as [|x0 xs], Ps as [|P0 ps]; try discriminate L.
  - cbn in H. apply ret_inj in H. injection H as <- _ _ _. reflexivity.
  - cbn [combine] in H.
    destruct (rts_loop (kf_F k) (kf_Q k) x0 P0 (combine xs ps)) as [e|[s tl]] eqn:E;
      [discriminate H|].
    cbn [bind] in H. apply ret_inj in H. injection H as <- _ _ _.
    pose proof (rts_loop_length _ _ _ _ _ _ _ E) as Ltl.
    rewrite length_combine in Ltl.
    unfold smoothed in *. cbn [map length] in *. rewrite length_map. lia.
Qed.

Lemma comp_lookup :
  forall (g : list Row) (mu : list mat) (t j : nat) (r : Row),
    NoDup (map row_index g) ->
    length mu = length g ->
    nth_error g j = Some r ->
    lookup_label (row_index r) (map row_index g) (comp t mu)
    = Some (entry (nth j mu []) t 0).
Proof.
  intros g mu t j r Hnd Hlen Hj.
  rewrite (lookup_label_nth (map row_index g) (comp t mu) j (row_index r) Hnd).
  - unfold comp. rewrite nth_error_map.
    assert (Hlt : (j < length mu)%nat).
    { rewrite Hlen. apply nth_error_Some. congruence. }
    rewrite (nth_error_nth' mu [] Hlt). reflexivity.
  - apply map_nth_error. exact Hj.
  - unfold comp. rewrite !length_map. exact Hlen.
Qed.

Lemma track_writes_names :
  forall mu mu_rts, map fst (track_writes mu mu_rts) = twelve.
Proof. intros mu mu_rts. reflexivity. Qed.

(** One round of the loop that goes through: the rows of the track hold the
    track's estimates. *)
Lemma kalman_track_written :
  forall (g : list Row) (d d' : DataFrame),
    well_formed d ->
    NoDup (map row_index g) ->
    (forall r, In r g -> exists i, position (row_index r) (rows d) = Some i) ->
    kalman_track g d = (ret tt, d') ->
    track_written g d'
    /\ well_formed d' /\ rows d' = rows d
    /\ (forall c, In c twelve -> has_col c d' = true).
Proof.
  intros g d d' Hwf Hnd Hpos H.
  destruct (kalman_track_success g d d' H)
    as [kf [mu [cov [kf' [mu_rts [cov_rts [K [Pp [Hi [Hr [Hs ->]]]]]]]]]]].
  destruct (run_filter_length _ _ _ _ _ Hr) as [Lmu Lcov].
  destruct (rts_smoother_length _ _ _ _ _ _ _ Hs) as [_ Lrts].
  split; [|split; [apply write_all_well_formed, Hwf|split;
                   [apply write_all_rows|]]].
  - exists kf, mu, cov, kf', mu_rts, cov_rts, K, Pp.
    split; [exact Hi|]. split; [exact Hr|]. split; [exact Hs|].
    intros j r Hj t Ht.
    destruct (Hpos r (nth_error_In _ _ Hj)) as [i Hp].
    split.
    + apply (cell_write_all_in _ _ d _ (comp t mu) _ i _ Hwf Hp).
      * rewrite track_writes_names. exact twelve_NoDup.
      * do 6 (destruct t as [|t]; [simpl; tauto|]). lia.
      * apply comp_lookup; assumption.
    + apply (cell_write_all_in _ _ d _ (comp t mu_rts) _ i _ Hwf Hp).
      * rewrite track_writes_names. exact twelve_NoDup.
      * do 6 (destruct t as [|t]; [simpl; tauto|]). lia.
      * apply comp_lookup; [assumption | congruence | assumption].
  - intros c Hc. apply write_all_has_col. right.
    rewrite track_writes_names. exact Hc.
Qed.

Lemma NoDup_map_inj :
  forall (A B : Type) (f : A -> B) (l : list A) (a b : A),
    NoDup (map f l) -> In a l -> In b l -> f a = f b -> a = b.
Proof.
  intros A B f l. induction l as [|x l IH]; intros a b Hnd Ha Hb E; [contradiction|].
  cbn [map] in Hnd. inversion Hnd as [|? ? Hx Hl]; subst.
  destruct Ha as [->|Ha], Hb as [->|Hb].
  - reflexivity.
  - exfalso. apply Hx. rewrite E. apply in_map. exact Hb.
  - exfalso. apply Hx. rewrite <- E. apply in_map. exact Ha.
  - exact (IH a b Hl Ha Hb E).
Qed.

Lemma NoDup_map_filter :
  forall (A B : Type) (f : A -> B) (p : A -> bool) (l : list A),
    NoDup (map f l) -> NoDup (map f (filter p l)).
Proof.
  intros A B f p l. induction l as [|x l IH]; intros Hnd; [constructor|].
  cbn [map] in Hnd. inversion Hnd as [|? ? Hx Hl]; subst.
  cbn [filter]. destruct (p x); [|exact (IH Hl)].
  cbn [map]. constructor; [|exact (IH Hl)].
  intros Hin. apply Hx. apply in_map_iff in Hin. destruct Hin as [y [E Hy]].
  apply filter_In in Hy. rewrite <- E. apply in_map. tauto.
Qed.

Lemma groups_separated :
  forall (rws : list Row) (keys : list Z),
    NoDup (map row_index rws) ->
    ascending keys ->
    separated (map (fun k => (k, filter (fun a => row_trackingId a =? k) rws)) keys).
Proof.
  intros rws keys Hnd. induction keys as [|k ks IH]; intros Hasc; [exact I|].
  destruct Hasc as [Hk Hks]. cbn [map separated]. split; [|exact (IH Hks)].
  intros g' l Hg' Hl Hl'.
  apply in_map_iff in Hg'. destruct Hg' as [k' [<- Hk']].
  rewrite Forall_forall in Hk. specialize (Hk k' Hk').
  unfold labels_of in Hl, Hl'. cbn [snd] in Hl, Hl'.
  apply in_map_iff in Hl. destruct Hl as [r [Er Hr]].
  apply in_map_iff in Hl'. destruct Hl' as [r' [Er' Hr']].
  apply filter_In in Hr. apply filter_In in Hr'.
  destruct Hr as [Hr Hkr], Hr' as [Hr' Hkr'].
  assert (r = r') by (apply (NoDup_map_inj _ _ row_index rws); congruence).
  subst r'. apply Z.eqb_eq in Hkr, Hkr'. lia.
Qed.

(** Rounds of the loop for other tracks leave the cells of a row alone. *)
Lemma for_each_track_keeps_cell :
  forall (gs : list (Z * list Row)) (d df' : DataFrame) (c : string) (l : Z) (i : nat),
    well_formed d -> position l (rows d) = Some i -> has_col c d = true ->
    (forall g, In g gs -> ~ In l (labels_of g)) ->
    for_each_track gs d = (ret tt, df') ->
    cell df' c l = cell d c l.
Proof.
  induction gs as [|[tid g] gs IH]; intros d df' c l i Hwf Hpos Hc Hl H.
  - cbn in H. injection H as <-. reflexivity.
  - cbn [for_each_track] in H. unfold bindM in H.
    destruct (kalman_track g d) as [[e|[]] d1] eqn:Ek; [discriminate H|].
    destruct (kalman_track_success g d d1 Ek)
      as [kf [mu [cov [kf' [mu_rts [cov_rts [K [Pp [_ [_ [_ E]]]]]]]]]]].
    assert (Hg : ~ In l (map row_index g)).
    { apply (Hl (tid, g)). left. reflexivity. }
    rewrite (IH d1 df' c l i).
    + rewrite E. apply (cell_write_all_keep _ _ d c l i Hwf Hpos Hg Hc).
    + rewrite E. apply write_all_well_formed, Hwf.
    + rewrite E, write_all_rows. exact Hpos.
    + rewrite E. apply write_all_has_col. left. exact Hc.
    + intros g' Hg'. apply Hl. right. exact Hg'.
    + exact H.
Qed.

Lemma for_each_track_written :
  forall (gs : list (Z * list Row)) (d df' : DataFrame),
    well_formed d ->
    separated gs ->
    (forall g, In g gs ->
       NoDup (labels_of g)
       /\ forall r, In r (snd g) -> exists i, position (row_index r) (rows d) = Some i) ->
    for_each_track gs d = (ret tt, df') ->
    forall g, In g gs -> track_written (snd g) df'.
Proof.
  induction gs as [|[tid0 g0] gs IH]; intros d df' Hwf Hsep Hgs H g Hin.
  - contradiction.
  - cbn [for_each_track] in H. unfold bindM in H.
    destruct (kalman_track g0 d) as [[e|[]] d1] eqn:Ek; [discriminate H|].
    destruct (Hgs (tid0, g0) (or_introl eq_refl)) as [Hnd0 Hpos0].
    destruct (kalman_track_written g0 d d1 Hwf Hnd0 Hpos0 Ek)
      as [Hw [Hwf1 [Hrows1 Hcols1]]].
    destruct Hsep as [Hsep0 Hsep].
    destruct Hin as [<-|Hin].
    + cbn [snd].
      destruct Hw as [kf [mu [cov [kf' [mu_rts [cov_rts [K [Pp [Hi [Hr [Hs Hcells]]]]]]]]]]].
      exists kf, mu, cov, kf', mu_rts, cov_rts, K, Pp.
      split; [exact Hi|]. split; [exact Hr|]. split; [exact Hs|].
      intros j r Hj t Ht.
      destruct (Hpos0 r (nth_error_In _ _ Hj)) as [i Hp].
      assert (Hkeep : forall c, In c twelve ->
                cell df' c (row_index r) = cell d1 c (row_index r)).
      { intros c Hc.
        apply (for_each_track_keeps_cell gs d1 df' c (row_index r) i Hwf1).
        - rewrite Hrows1. exact Hp.
        - apply Hcols1. exact Hc.
        - intros g' Hg'. apply (Hsep0 g' (row_index r) Hg').
          unfold labels_of. cbn [snd]. apply in_map. eapply nth_error_In. exact Hj.
        - exact H. }
      destruct (Hcells j r Hj t Ht) as [C1 C2].
      assert (In1 : In (nth t kalman_columns "") twelve).
      { do 6 (destruct t as [|t]; [simpl; tauto|]). lia. }
      assert (In2 : In (nth t rts_columns "") twelve).
      { do 6 (destruct t as [|t]; [simpl; tauto|]). lia. }
      rewrite (Hkeep _ In1), (Hkeep _ In2). split; assumption.
    + apply (IH d1 df' Hwf1 Hsep).
      * intros g' Hg'. destruct (Hgs g' (or_intror Hg')) as [Hnd Hpos].
        split; [exact Hnd|]. rewrite Hrows1. exact Hpos.
      * exact H.
      * exact Hin.
Qed.

(** X8.  In a dataframe with distinct index labels and one value per row in
    every column, when [kalman] returns every row holds the estimates of its
    own track: the loop body's filter, forward pass and smoother for the
    rows of that [trackingId], taken in their order in the dataframe, go
    through, and the row that is number [j] among them has in the six
    [kalman_] columns the components of the [j]-th forward mean and in the
    six [rts_] columns the components of the [j]-th smoothed mean.  Rounds
    for other tracks do not overwrite them. *)
Theorem kalman_writes_each_track_estimates :
  forall df df' : DataFrame,
    NoDup (map row_index (rows df)) ->
    well_formed df ->
    kalman df = Returned df' ->
    forall r, In r (rows df) ->
      let gdf := filter (fun q => row_trackingId q =? row_trackingId r) (rows df) in
      In r gdf /\ track_written gdf df'.
Proof.
  intros df df' Hnd Hwf Hk r Hr gdf.
  split.
  { apply filter_In. split; [exact Hr | apply Z.eqb_refl]. }
  pose proof (kalman_returned _ _ Hk) as E.
  apply (for_each_track_written (groupby row_trackingId (rows df)) df df' Hwf
           (groups_separated _ _ Hnd (sorted_keys_ascending _)))
    with (g := (row_trackingId r, gdf)).
  - intros [tid g] Hg. apply groupby_members in Hg. subst g. split.
    + unfold labels_of. cbn [snd]. apply NoDup_map_filter. exact Hnd.
    + intros q Hq. cbn [snd] in Hq. apply filter_In in Hq.
      apply position_In. tauto.
  - exact E.
  - apply groupby_has_group. exact Hr.
Qed.

Lemma kalman_writes_each_track_estimates_witness :
  exists df',
    kalman df_two_tracks = Returned df'
    /\ track_written [mkRow 0 2 (of_Z 1) (of_Z 1); mkRow 2 2 NaN NaN;
                      mkRow 4 2 (of_Z 3) (of_Z 3)] df'.
Proof.
  destruct (kalman df_two_tracks) as [d|e d] eqn:E.
  - exists d. split; [reflexivity|].
    refine (proj2 (kalman_writes_each_track_estimates df_two_tracks d _ _ E
                     (mkRow 2 2 NaN NaN) _)).
    + simpl. repeat constructor; simpl; intuition discriminate.
    + repeat constructor.
    + simpl. tauto.
  - vm_compute in E. discriminate E.
Defined.

(** ** The smoother at the last frame *)

Lemma last_indep :
  forall (A : Type) (l : list A) (d d' : A), l <> [] -> last l d = last l d'.
Proof.
  intros A l d d' H. induction l as [|a l IH]; [congruence|].
  destruct l as [|b l]; [reflexivity|]. cbn [last] in *. apply IH. discriminate.
Qed.

Lemma rts_loop_last :
  forall (F Q : mat) (rest : list (mat * mat)) (xk Pk : mat)
         (s : smoothed) (tl : list smoothed),
    rts_loop F Q xk Pk rest = ret (s, tl) ->
    fst (fst (fst (last (s :: tl) s))) = fst (last ((xk, Pk) :: rest) (xk, Pk)).
Proof.
  intros F Q. induction rest as [|[xn Pn] rest IH]; intros xk Pk s tl H.
  - cbn in H. apply ret_inj in H. injection H as <- <-. reflexivity.
  - cbn [rts_loop] in H.
    destruct (rts_loop F Q xn Pn rest) as [e|[next tl']] eqn:E; [discriminate H|].
    cbn [bind] in H. destruct next as [[[x1 P1] K1] Pp1].
    destruct (np_linalg_inv _) as [e|PI]; [discriminate H|].
    cbn [bind] in H. apply ret_inj in H. injection H as <- <-.
    specialize (IH _ _ _ _ E).
    change (last ((xk, Pk) :: (xn, Pn) :: rest) (xk, Pk))
      with (last ((xn, Pn) :: rest) (xk, Pk)).
    rewrite (last_indep _ ((xn, Pn) :: rest) (xk, Pk) (xn, Pn)) by discriminate.
    rewrite <- IH.
    match goal with
    | |- context [last (?a :: ?b :: ?l) ?d] =>
        change (last (a :: b :: l) d) with (last (b :: l) d)
    end.
    rewrite (last_indep _ ((x1, P1, K1, Pp1) :: tl') _ (x1, P1, K1, Pp1)) by discriminate.
    reflexivity.
Qed.

Lemma last_map :
  forall (A B : Type) (f : A -> B) (l : list A) (d : A),
    last (map f l) (f d) = f (last l d).
Proof.
  intros A B f l d. induction l as [|a l IH]; [reflexivity|].
  destruct l as [|b l]; [reflexivity|]. cbn [map] in *. exact IH.
Qed.

Lemma last_combine_fst :
  forall (A B : Type) (l : list A) (l' : list B) (d : A) (d' : B),
    length l = length l' -> fst (last (combine l l') (d, d')) = last l d.
Proof.
  intros A B l. induction l as [|a l IH]; intros l' d d' H.
  - reflexivity.
  - destruct l' as [|b l']; [discriminate H|].
    destruct l as [|a2 l]; destruct l' as [|b2 l']; try discriminate H;
      [reflexivity|].
    cbn [combine] in *. cbn [last] in *. apply (IH (b2 :: l')).
    cbn [length] in *. lia.
Qed.

(** The smoother leaves the last mean as the forward pass gave it. *)
Lemma rts_smoother_last :
  forall (k : KalmanFilter) (Xs Ps x P K Pp : list mat),
    rts_smoother k Xs Ps = ret (x, P, K, Pp) -> last x [] = last Xs [].
Proof.
  intros k Xs Ps x P K Pp H.
  destruct (rts_smoother_length _ _ _ _ _ _ _ H) as [L _].
  unfold rts_smoother in H. rewrite L, Nat.eqb_refl in H. cbn [negb] in H.
  destruct Xs as [|x0 xs], Ps as [|P0 ps]; try discriminate L.
  - cbn in H. apply ret_inj in H. injection H as <- _ _ _. reflexivity.
  - cbn [combine] in H.
    destruct (rts_loop (kf_F k) (kf_Q k) x0 P0 (combine xs ps)) as [e|[s tl]] eqn:E;
      [discriminate H|].
    cbn [bind] in H. apply ret_inj in H. injection H as <- _ _ _.
    pose proof (rts_loop_last _ _ _ _ _ _ _ E) as Hl.
    change ((x0, P0) :: combine xs ps) with (combine (x0 :: xs) (P0 :: ps)) in Hl.
    rewrite (last_combine_fst _ _ (x0 :: xs) (P0 :: ps) x0 P0 L) in Hl.
    unfold smoothed in *.
    set (f := fun q : mat * mat * mat * mat => fst (fst (fst q))) in *.
    change (last (map f (s :: tl)) [] = last (x0 :: xs) []).
    rewrite (last_indep _ (map f (s :: tl)) [] (f s)) by discriminate.
    rewrite (last_map _ _ f (s :: tl) s).
    rewrite (last_indep _ (x0 :: xs) [] x0) by discriminate.
    rewrite <- Hl. reflexivity.
Qed.

(** X9.  In a dataframe with distinct index labels and one value per row in
    every column, when [kalman] returns, the last row of every track has in
    each [rts_] column the value of the corresponding [kalman_] column:
    smoothing does not change the estimate of the last frame of a track (and
    so changes nothing in a track of one frame). *)
Theorem last_frame_is_not_smoothed :
  forall df df' : DataFrame,
    NoDup (map row_index (rows df)) ->
    well_formed df ->
    kalman df = Returned df' ->
    forall r, In r (rows df) ->
      let gdf := filter (fun q => row_trackingId q =? row_trackingId r) (rows df) in
      last gdf r = r ->
      forall t, (t < 6)%nat ->
        cell df' (nth t rts_columns "") (row_index r)
        = cell df' (nth t kalman_columns "") (row_index r).
Proof.
  intros df df' Hnd Hwf Hk r Hr gdf Hlast t Ht.
  assert (Hin : In r gdf) by (apply filter_In; split; [exact Hr | apply Z.eqb_refl]).
  pose proof (kalman_returned _ _ Hk) as E.
  assert (Hw : track_written gdf df').
  { apply (for_each_track_written (groupby row_trackingId (rows df)) df df' Hwf
             (groups_separated _ _ Hnd (sorted_keys_ascending _)))
      with (g := (row_trackingId r, gdf)).
    - intros [tid g] Hg. apply groupby_members in Hg. subst g. split.
      + unfold labels_of. cbn [snd]. apply NoDup_map_filter. exact Hnd.
      + intros q Hq. cbn [snd] in Hq. apply filter_In in Hq.
        apply position_In. tauto.
    - exact E.
    - apply groupby_has_group. exact Hr. }
  destruct Hw as [kf [mu [cov [kf' [mu_rts [cov_rts [K [Pp [Hi [Hrun [Hs Hcells]]]]]]]]]]].
  destruct (run_filter_length _ _ _ _ _ Hrun) as [Lmu _].
  destruct (rts_smoother_length _ _ _ _ _ _ _ Hs) as [_ Lrts].
  pose proof (rts_smoother_last _ _ _ _ _ _ _ Hs) as Hl.
  assert (Hne : gdf <> []) by (intros Z0; rewrite Z0 in Hin; contradiction).
  set (j := (length gdf - 1)%nat).
  assert (Hj : nth_error gdf j = Some r).
  { destruct (exists_last Hne) as [l' [a Ea]].
    unfold j. rewrite Ea in *. rewrite last_last in Hlast. subst a.
    rewrite length_app. cbn [length].
    replace (length l' + 1 - 1)%nat with (length l') by lia.
    rewrite nth_error_app2 by lia. rewrite Nat.sub_diag. reflexivity. }
  destruct (Hcells j r Hj t Ht) as [C1 C2]. rewrite C1, C2.
  assert (Hnth : forall l : list mat, l <> [] -> nth (length l - 1) l [] = last l []).
  { intros l Hl0. destruct (exists_last Hl0) as [l' [a ->]].
    rewrite last_last, length_app. cbn [length].
    replace (length l' + 1 - 1)%nat with (length l') by lia.
    rewrite app_nth2 by lia. rewrite Nat.sub_diag. reflexivity. }
  assert (Hmu : mu <> []) by (intros Z0; rewrite Z0 in Lmu; destruct gdf; [congruence|discriminate]).
  assert (Hmr : mu_rts <> []).
  { intros Z0. rewrite Z0 in Lrts. destruct mu; [congruence | discriminate]. }
  unfold j. rewrite <- Lmu at 1. rewrite <- Lmu, <- Lrts.
  rewrite (Hnth mu_rts Hmr). rewrite Lrts. rewrite (Hnth mu Hmu).
  rewrite Hl. reflexivity.
Qed.

Lemma last_frame_is_not_smoothed_witness :
  exists df',
    kalman df_two_tracks = Returned df'
    /\ forall t, (t < 6)%nat ->
         cell df' (nth t rts_columns "") 4 = cell df' (nth t kalman_columns "") 4.
Proof.
  destruct (kalman df_two_tracks) as [d|e d] eqn:E.
  - exists d. split; [reflexivity|].
    refine (last_frame_is_not_smoothed df_two_tracks d _ _ E
              (mkRow 4 2 (of_Z 3) (of_Z 3)) _ _).
    + simpl. repeat constructor; simpl; intuition discriminate.
    + repeat constructor.
    + simpl. tauto.
    + reflexivity.
  - vm_compute in E. discriminate E.
Defined.

(** ** A NaN measurement *)

Lemma nbin_nan_r : forall f a, nbin f a NaN = NaN.
Proof. intros f [q|]; reflexivity. Qed.

Lemma fold_nadd_nan : forall l, fold_left nadd l NaN = NaN.
Proof. induction l as [|a l IH]; [reflexivity|]. cbn [fold_left]. exact IH. Qed.

Lemma fold_nadd_In_nan :
  forall l acc, In NaN l -> fold_left nadd l acc = NaN.
Proof.
  induction l as [|a l IH]; intros acc H; [contradiction|].
  cbn [fold_left]. destruct H as [->|H].
  - unfold nadd. rewrite nbin_nan_r. apply fold_nadd_nan.
  - apply IH. exact H.
Qed.

(** A NaN in a vector, opposite an entry of the other vector, makes the dot
    product NaN. *)
Lemma dotv_nan :
  forall (a b : vec) (i : nat),
    (i < length a)%nat -> nth_error b i = Some NaN -> dotv a b = NaN.
Proof.
  intros a b i Hi Hb. unfold dotv. apply fold_nadd_In_nan.
  assert (H : nth_error (map2 nmul a b) i = Some NaN).
  { rewrite nth_error_map2, Hb. destruct (nth_error a i) as [x|] eqn:E.
    - unfold nmul. rewrite nbin_nan_r. reflexivity.
    - apply nth_error_None in E. lia. }
  eapply nth_error_In. exact H.
Qed.

Lemma rect_nth :
  forall n w m i r, rect n w m -> nth_error m i = Some r -> length r = w.
Proof.
  intros n w m i r [_ H] Hi. rewrite Forall_forall in H.
  apply H. eapply nth_error_In. exact Hi.
Qed.

Lemma transpose_rect :
  forall (m : mat) (n w : nat), rect (S n) w m -> rect w (S n) (transpose m).
Proof.
  induction m as [|r rs IH]; intros n w [Hl Hw]; [discriminate Hl|].
  apply Forall_cons_iff in Hw. destruct Hw as [Hr Hrs].
  destruct rs as [|r2 rs];
    [change (transpose [r]) with (map (fun a : num => [a]) r)
    |change (transpose (r :: r2 :: rs)) with (map2 cons r (transpose (r2 :: rs)))].
  - cbn [length] in Hl. injection Hl as <-. split.
    + rewrite length_map. exact Hr.
    + apply Forall_forall. intros x Hx. apply in_map_iff in Hx.
      destruct Hx as [a [<- _]]. reflexivity.
  - destruct n as [|n]; [discriminate Hl|].
    assert (Hrec : rect w (S n) (transpose (r2 :: rs))).
    { apply IH. split; [cbn [length] in *; lia | exact Hrs]. }
    destruct Hrec as [Tl Tw]. split.
    + rewrite map2_length; [exact Hr|].
      transitivity w; [exact Hr | symmetry; exact Tl].
    + clear - Hr Tl Tw. revert r w Hr Tl Tw.
      generalize (transpose (r2 :: rs)) as t.
      induction t as [|c t IHt]; intros r w Hr Tl Tw.
      * destruct r; constructor.
      * destruct r as [|a r]; [constructor|].
        apply Forall_cons_iff in Tw. destruct Tw as [Hc Ht].
        cbn [map2]. constructor.
        -- cbn [length]. congruence.
        -- destruct w as [|w]; [discriminate Hr|].
           apply (IHt r w); [cbn [length] in Hr; lia | cbn [length] in Tl; lia | exact Ht].
Qed.

Lemma dot_rect :
  forall (a b : mat) (n w : nat),
    length a = n -> length (transpose b) = w -> rect n w (dot a b).
Proof.
  intros a b n w Ha Hb. unfold dot. split.
  - rewrite length_map. exact Ha.
  - apply Forall_forall. intros r Hr. apply in_map_iff in Hr.
    destruct Hr as [x [<- _]]. rewrite length_map. exact Hb.
Qed.

Lemma map2_rect :
  forall (f : num -> num -> num) (a b : mat) (n w : nat),
    rect n w a -> rect n w b -> rect n w (map2 (map2 f) a b).
Proof.
  intros f a b n w [La Wa] [Lb Wb]. split.
  - rewrite map2_length; [exact La|].
    transitivity n; [exact La | symmetry; exact Lb].
  - clear La Lb. revert b Wb. induction a as [|x a IH]; intros b Wb; [constructor|].
    destruct b as [|y b]; [constructor|].
    apply Forall_cons_iff in Wa. apply Forall_cons_iff in Wb.
    destruct Wa as [Hx Ha], Wb as [Hy Hb]. cbn [map2]. constructor.
    + rewrite map2_length; [exact Hx|].
      transitivity w; [exact Hx | symmetry; exact Hy].
    + exact (IH Ha b Hb).
Qed.

Lemma find_pivot_spec :
  forall (c : nat) (rws : list vec) (p : vec) (rest : list vec),
    find_pivot c rws = Some (p, rest) ->
    In p rws /\ (forall x, In x rest -> In x rws).
Proof.
  intros c rws. induction rws as [|r rs IH]; intros p rest H; [discriminate H|].
  cbn [find_pivot] in H. destruct (is_zero (nth c r NaN)).
  - destruct (find_pivot c rs) as [[p' rest']|] eqn:E; [|discriminate H].
    injection H as <- <-. destruct (IH _ _ eq_refl) as [Hp Hrest].
    split; [right; exact Hp|]. intros x [<-|Hx]; [left; reflexivity|].
    right. apply Hrest. exact Hx.
  - injection H as <- <-. split; [left; reflexivity|].
    intros x Hx. right. exact Hx.
Qed.

Lemma gauss_jordan_shape :
  forall (fuel c : nat) (done rest out : list vec) (w : nat),
    Forall (fun r => length r = w) done ->
    Forall (fun r => length r = w) rest ->
    gauss_jordan fuel c done rest = ret out ->
    length out = (length done + fuel)%nat /\ Forall (fun r => length r = w) out.
Proof.
  induction fuel as [|fuel IH]; intros c done rest out w Hd Hr H.
  - cbn in H. apply ret_inj in H. subst out. split; [lia | exact Hd].
  - cbn [gauss_jordan] in H.
    destruct (find_pivot c rest) as [[p rest']|] eqn:E; [|discriminate H].
    destruct (find_pivot_spec _ _ _ _ E) as [Hp Hrest].
    rewrite Forall_forall in Hr.
    set (p' := map (fun a => ndiv a (nth c p NaN)) p) in *.
    assert (Lp : length p' = w).
    { unfold p'. rewrite length_map. apply Hr. exact Hp. }
    assert (Helim : forall r, length r = w ->
              length (map2 nsub r (map (nmul (nth c r NaN)) p')) = w).
    { intros r Lr. rewrite map2_length; [exact Lr|]. rewrite length_map.
      transitivity w; [exact Lr | symmetry; exact Lp]. }
    apply IH with (w := w) in H.
    + destruct H as [L F]. split; [|exact F].
      rewrite L, length_app, length_map. cbn [length].
      rewrite <- Nat.add_assoc. reflexivity.
    + apply Forall_app. split.
      * apply Forall_forall. intros x Hx. apply in_map_iff in Hx.
        destruct Hx as [r [<- Hin]]. apply Helim.
        rewrite Forall_forall in Hd. apply Hd. exact Hin.
      * constructor; [exact Lp | constructor].
    + apply Forall_forall. intros x Hx. apply in_map_iff in Hx.
      destruct Hx as [r [<- Hin]]. apply Helim. apply Hr, Hrest. exact Hin.
Qed.

Lemma eye_rect : forall n, rect n n (eye n).
Proof.
  intros n. unfold eye. split.
  - rewrite length_map, length_seq. reflexivity.
  - apply Forall_forall. intros r Hr. apply in_map_iff in Hr.
    destruct Hr as [i [<- _]]. unfold unit_row. rewrite length_map, length_seq.
    reflexivity.
Qed.

(** When [np.linalg.inv] returns, the inverse has the shape of the matrix. *)
Lemma np_linalg_inv_rect :
  forall (m r : mat) (n : nat),
    rect n n m -> np_linalg_inv m = ret r -> rect n n r.
Proof.
  intros m r n [Lm Wm] H. unfold np_linalg_inv in H. rewrite Lm in H.
  destruct (gauss_jordan n 0 [] (map2 (@app num) m (eye n))) as [e|out] eqn:E;
    [discriminate H|].
  cbn [bind] in H. apply ret_inj in H. subst r.
  assert (Haug : Forall (fun r => length r = (n + n)%nat) (map2 (@app num) m (eye n))).
  { destruct (eye_rect n) as [_ We]. clear - Wm We.
    revert We. generalize (eye n) as b. induction m as [|x m IH]; intros b We;
      [constructor|].
    destruct b as [|y b]; [constructor|].
    apply Forall_cons_iff in Wm. apply Forall_cons_iff in We.
    destruct Wm as [Hx Hm], We as [Hy Hb]. cbn [map2]. constructor.
    - rewrite length_app. lia.
    - exact (IH Hm b Hb). }
  destruct (gauss_jordan_shape n 0 [] _ out (n + n) (Forall_nil _) Haug E) as [L F].
  split.
  - rewrite length_map. exact L.
  - apply Forall_forall. intros x Hx. apply in_map_iff in Hx.
    destruct Hx as [y [<- Hy]]. rewrite length_skipn.
    rewrite Forall_forall in F. rewrite (F y Hy). lia.
Qed.

Lemma dot_shape :
  forall (a b : mat) (n m w : nat),
    length a = n -> rect (S m) w b -> rect n w (dot a b).
Proof.
  intros a b n m w Ha Hb. apply dot_rect; [exact Ha|].
  destruct (transpose_rect b m w Hb) as [L _]. exact L.
Qed.

Lemma rect_length : forall n w m, rect n w m -> length m = n.
Proof. intros n w m [L _]. exact L. Qed.

Lemma nan_column_rect : forall n, rect n 1 (column (repeat NaN n)).
Proof.
  intros n. unfold column. split.
  - rewrite length_map, repeat_length. reflexivity.
  - apply Forall_forall. intros r Hr. apply in_map_iff in Hr.
    destruct Hr as [a [<- _]]. reflexivity.
Qed.

(** NaN is absorbing entry by entry: on the left ... *)
Lemma map2_nan_l :
  forall (f : Q -> Q -> Q) (n : nat) (m : mat),
    rect n 1 m ->
    map2 (map2 (nbin f)) (column (repeat NaN n)) m = column (repeat NaN n).
Proof.
  intros f. induction n as [|n IH]; intros m [L W]; [reflexivity|].
  destruct m as [|r m]; [discriminate L|].
  apply Forall_cons_iff in W. destruct W as [Hr Hm].
  destruct r as [|a [|b r]]; try discriminate Hr.
  cbn [repeat column map map2]. cbn [nbin]. f_equal.
  apply IH. split; [cbn [length] in L; lia | exact Hm].
Qed.

(** ... and on the right. *)
Lemma map2_nan_r :
  forall (f : Q -> Q -> Q) (n : nat) (m : mat),
    rect n 1 m ->
    map2 (map2 (nbin f)) m (column (repeat NaN n)) = column (repeat NaN n).
Proof.
  intros f. induction n as [|n IH]; intros m [L W].
  - destruct m; [reflexivity | discriminate L].
  - destruct m as [|r m]; [discriminate L|].
    apply Forall_cons_iff in W. destruct W as [Hr Hm].
    destruct r as [|a [|b r]]; try discriminate Hr.
    cbn [repeat column map map2]. rewrite nbin_nan_r. f_equal.
    apply IH. split; [cbn [length] in L; lia | exact Hm].
Qed.

(** A product with a column that holds a NaN opposite every row's entries
    is all NaN. *)
Lemma dot_nan_column :
  forall (a : mat) (v : vec) (i : nat),
    v <> [] ->
    nth_error v i = Some NaN ->
    Forall (fun r => (i < length r)%nat) a ->
    dot a (column v) = column (repeat NaN (length a)).
Proof.
  intros a v i Hv Hi Ha. unfold dot.
  assert (T : transpose (column v) = [v]).
  { clear Hi. destruct v as [|x v]; [congruence|]. clear Hv. revert x.
    induction v as [|y v IH]; intros x; [reflexivity|].
    change (transpose (column (x :: y :: v)))
      with (map2 cons [x] (transpose (column (y :: v)))).
    rewrite IH. reflexivity. }
  rewrite T. induction a as [|r a IH]; [reflexivity|].
  apply Forall_cons_iff in Ha. destruct Ha as [Hr Ha].
  cbn [map length repeat column]. rewrite (dotv_nan r v i Hr Hi). f_equal.
  apply IH. exact Ha.
Qed.

Lemma transition_rect : forall dt, rect 6 6 (transition dt).
Proof. intros dt. split; [reflexivity | repeat constructor]. Qed.

Lemma H1_rect : rect 2 6 H1.
Proof. split; [reflexivity | repeat constructor]. Qed.

Lemma R1_rect : rect 2 2 R1.
Proof. split; [reflexivity | repeat constructor]. Qed.

Lemma rect_2_1 : forall m, rect 2 1 m -> exists s0 s1, m = [[s0]; [s1]].
Proof.
  intros m [L W].
  destruct m as [|r0 [|r1 [|r2 m]]]; try discriminate L.
  apply Forall_cons_iff in W. destruct W as [W0 W].
  apply Forall_cons_iff in W. destruct W as [W1 _].
  destruct r0 as [|s0 [|? ?]]; try discriminate W0.
  destruct r1 as [|s1 [|? ?]]; try discriminate W1.
  exists s0, s1. reflexivity.
Qed.

(** [predict] keeps the shapes, gives a 6 x 6 covariance whatever it was,
    and keeps a state that is all NaN. *)
Lemma predict_shaped :
  forall (dt : num) (k : KalmanFilter),
    kalman_shaped dt k ->
    kalman_shaped dt (predict k)
    /\ rect 6 6 (kf_P (predict k))
    /\ (kf_x k = nan6 -> kf_x (predict k) = nan6).
Proof.
  intros dt k [Hd [HF [HH [HR [HQ Hx]]]]].
  pose proof (transition_rect dt) as RF.
  unfold predict. cbn [kf_x kf_P kf_F kf_H kf_R kf_Q dim_x set_x set_P].
  split; [|split].
  - unfold kalman_shaped. cbn [kf_x kf_P kf_F kf_H kf_R kf_Q dim_x].
    repeat (split; [assumption|]).
    rewrite HF. exact (dot_shape _ _ 6 5 1 (rect_length _ _ _ RF) Hx).
  - apply map2_rect; [|exact HQ]. rewrite HF.
    apply (dot_shape _ _ 6 5 6).
    + unfold dot. rewrite length_map. exact (rect_length _ _ _ RF).
    + exact (transpose_rect _ 5 6 RF).
  - intros E. rewrite E, HF.
    apply (dot_nan_column (transition dt) (repeat NaN 6) 0); [discriminate | reflexivity|].
    repeat constructor.
Qed.

(** [update] with a measurement of two entries: the shapes are kept; the
    state comes out all NaN when it was all NaN, and when an entry of the
    measurement is NaN. *)
Lemma update_shaped :
  forall (dt : num) (k k1 : KalmanFilter) (a b : num),
    kalman_shaped dt k -> rect 6 6 (kf_P k) ->
    update k (Some (column [a; b])) = ret k1 ->
    kalman_shaped dt k1
    /\ rect 6 6 (kf_P k1)
    /\ (kf_x k = nan6 \/ a = NaN \/ b = NaN -> kf_x k1 = nan6).
Proof.
  intros dt k k1 a b [Hd [HF [HH [HR [HQ Hx]]]]] HP H.
  unfold update in H. rewrite HH, HR, Hd in H.
  set (PHT := dot (kf_P k) (transpose H1)) in *.
  set (S0 := madd (dot H1 PHT) R1) in *.
  destruct (np_linalg_inv S0) as [e|SI] eqn:E; [discriminate H|].
  cbn [bind] in H. apply ret_inj in H.
  set (K := dot PHT SI) in *.
  set (y := msub (column [a; b]) (dot H1 (kf_x k))) in *.
  assert (RPHT : rect 6 2 PHT).
  { apply dot_rect; [exact (rect_length _ _ _ HP) | reflexivity]. }
  assert (RS : rect 2 2 S0).
  { apply map2_rect; [|exact R1_rect].
    exact (dot_shape H1 PHT 2 5 2 (rect_length _ _ _ H1_rect) RPHT). }
  pose proof (np_linalg_inv_rect _ _ _ RS E) as RSI.
  assert (RK : rect 6 2 K).
  { exact (dot_shape _ _ 6 1 2 (rect_length _ _ _ RPHT) RSI). }
  assert (Ry : rect 2 1 y).
  { apply map2_rect; [split; [reflexivity | repeat constructor]|].
    exact (dot_shape H1 (kf_x k) 2 5 1 (rect_length _ _ _ H1_rect) Hx). }
  assert (RKy : rect 6 1 (dot K y)).
  { exact (dot_shape _ _ 6 1 1 (rect_length _ _ _ RK) Ry). }
  assert (RI : rect 6 6 (msub (eye 6) (dot K H1))).
  { apply map2_rect; [exact (eye_rect 6)|].
    exact (dot_shape _ _ 6 1 6 (rect_length _ _ _ RK) H1_rect). }
  subst k1. cbn [kf_x kf_P kf_F kf_H kf_R kf_Q dim_x set_x set_P].
  split; [|split].
  - unfold kalman_shaped. cbn [kf_x kf_P kf_F kf_H kf_R kf_Q dim_x].
    repeat (split; [assumption|]).
    apply map2_rect; assumption.
  - apply map2_rect.
    + apply (dot_shape _ _ 6 5 6).
      * unfold dot. rewrite length_map. exact (rect_length _ _ _ RI).
      * exact (transpose_rect _ 5 6 RI).
    + apply (dot_shape _ _ 6 1 6).
      * unfold dot. rewrite length_map. exact (rect_length _ _ _ RK).
      * exact (transpose_rect _ 5 2 RK).
  - intros [Ex|Hab].
    + rewrite Ex. exact (map2_nan_l Qplus 6 _ RKy).
    + assert (Ky : dot K y = nan6).
      { destruct (rect_2_1 _ (dot_shape H1 (kf_x k) 2 5 1 (rect_length _ _ _ H1_rect) Hx)) as [s0 [s1 Es]].
        unfold y. rewrite Es.
        change (msub (column [a; b]) [[s0]; [s1]])
          with (column [nsub a s0; nsub b s1]).
        destruct RK as [LK WK]. unfold nan6. rewrite <- LK.
        destruct Hab as [-> | ->].
        - apply (dot_nan_column K _ 0); [discriminate | reflexivity|].
          eapply Forall_impl; [|exact WK]. cbv beta. intros r ->. lia.
        - apply (dot_nan_column K _ 1); [discriminate | |].
          + cbn. unfold nsub. reflexivity.
          + eapply Forall_impl; [|exact WK]. cbv beta. intros r ->. lia. }
      rewrite Ky. exact (map2_nan_r Qplus 6 _ Hx).
Qed.

(** One step of [batch_filter], for no measurement or one of two entries. *)
Lemma step_shaped :
  forall (dt : num) (k k1 : KalmanFilter) (z : option mat),
    kalman_shaped dt k ->
    (z = None \/ exists a b, z = Some (column [a; b])) ->
    update (predict k) z = ret k1 ->
    kalman_shaped dt k1
    /\ rect 6 6 (kf_P k1)
    /\ (kf_x k = nan6 -> kf_x k1 = nan6)
    /\ (forall a b, z = Some (column [a; b]) -> a = NaN \/ b = NaN -> kf_x k1 = nan6).
Proof.
  intros dt k k1 z Hk Hz H.
  destruct (predict_shaped dt k Hk) as [Hp [HP Hn]].
  destruct Hz as [-> | [a [b ->]]].
  - cbn [update] in H. apply ret_inj in H. subst k1.
    split; [exact Hp|]. split; [exact HP|]. split; [exact Hn|].
    intros a b Ez. discriminate Ez.
  - destruct (update_shaped dt _ _ a b Hp HP H) as [H1' [H2' H3']].
    split; [exact H1'|]. split; [exact H2'|]. split.
    + intros E. apply H3'. left. apply Hn. exact E.
    + intros a' b' Ez Hab. apply H3'. right.
      assert (Ec : [a; b] = [a'; b']).
      { unfold column in Ez. cbn [map] in Ez. injection Ez as -> ->. reflexivity. }
      injection Ec as -> ->. exact Hab.
Qed.

Lemma batch_filter_shaped :
  forall (dt : num) (zs : list (option mat)) (k k' : KalmanFilter) (ms cs : list mat),
    kalman_shaped dt k ->
    Forall (fun z => z = None \/ exists a b, z = Some (column [a; b])) zs ->
    batch_filter k zs = ret (ms, cs, k') ->
    kalman_shaped dt k'
    /\ Forall (rect 6 1) ms /\ Forall (rect 6 6) cs
    /\ (kf_x k = nan6 -> kf_x k' = nan6 /\ Forall (eq nan6) ms).
Proof.
  intros dt. induction zs as [|z zs IH]; intros k k' ms cs Hk Hz H.
  - cbn in H. apply ret_inj in H. injection H as <- <- <-.
    split; [exact Hk|]. split; [constructor|]. split; [constructor|].
    intros E. split; [exact E | constructor].
  - apply Forall_cons_iff in Hz. destruct Hz as [Hz Hzs].
    cbn [batch_filter] in H.
    destruct (update (predict k) z) as [e|k1] eqn:E1; [discriminate H|].
    cbn [bind] in H.
    destruct (batch_filter k1 zs) as [e|[[ms' cs'] k2]] eqn:E; [discriminate H|].
    cbn [bind] in H. apply ret_inj in H. injection H as <- <- <-.
    destruct (step_shaped dt k k1 z Hk Hz E1) as [S1 [S2 [S3 _]]].
    destruct (IH _ _ _ _ S1 Hzs E) as [I1 [I2 [I3 I4]]].
    split; [exact I1|].
    split; [constructor; [destruct S1 as [_ [_ [_ [_ [_ Hx]]]]]; exact Hx | exact I2]|].
    split; [constructor; [exact S2 | exact I3]|].
    intros En. destruct (I4 (S3 En)) as [J1 J2].
    split; [exact J1|]. constructor; [symmetry; exact (S3 En) | exact J2].
Qed.

(** From a measurement with a NaN entry on, the means of [batch_filter] are
    all NaN, and so is the state it ends with. *)
Lemma batch_filter_poisoned :
  forall (dt : num) (zs : list (option mat)) (i : nat) (a b : num)
         (k k' : KalmanFilter) (ms cs : list mat),
    kalman_shaped dt k ->
    Forall (fun z => z = None \/ exists a b, z = Some (column [a; b])) zs ->
    nth_error zs i = Some (Some (column [a; b])) ->
    a = NaN \/ b = NaN ->
    batch_filter k zs = ret (ms, cs, k') ->
    kf_x k' = nan6
    /\ forall j, (i <= j)%nat -> (j < length zs)%nat -> nth j ms [] = nan6.
Proof.
  intros dt. induction zs as [|z zs IH]; intros i a b k k' ms cs Hk Hz Hi Hab H.
  - destruct i; discriminate Hi.
  - apply Forall_cons_iff in Hz. destruct Hz as [Hz Hzs].
    cbn [batch_filter] in H.
    destruct (update (predict k) z) as [e|k1] eqn:E1; [discriminate H|].
    cbn [bind] in H.
    destruct (batch_filter k1 zs) as [e|[[ms' cs'] k2]] eqn:E; [discriminate H|].
    cbn [bind] in H. apply ret_inj in H. injection H as <- <- <-.
    destruct (step_shaped dt k k1 z Hk Hz E1) as [S1 [_ [_ S4]]].
    destruct (batch_filter_length _ _ _ _ _ E) as [L _].
    destruct i as [|i].
    + cbn [nth_error] in Hi. injection Hi as ->.
      pose proof (S4 a b eq_refl Hab) as En.
      destruct (batch_filter_shaped dt zs k1 k2 ms' cs' S1 Hzs E) as [_ [_ [_ I4]]].
      destruct (I4 En) as [J1 J2]. split; [exact J1|].
      intros [|j] _ Hj; cbn [nth]; [exact En|].
      rewrite Forall_forall in J2. symmetry. apply J2. apply nth_In.
      rewrite L. cbn [length] in Hj. lia.
    + cbn [nth_error] in Hi.
      destruct (IH i a b k1 k2 ms' cs' S1 Hzs Hi Hab E) as [J1 J2].
      split; [exact J1|].
      intros [|j] Hij Hj; [lia|]. cbn [nth]. apply J2; [lia|].
      cbn [length] in Hj. lia.
Qed.

Lemma measurements_form :
  forall gdf : list Row,
    Forall (fun z => z = None \/ exists a b, z = Some (column [a; b])) (xy_values gdf).
Proof.
  intros gdf. apply Forall_forall. intros z Hz. unfold xy_values in Hz.
  apply in_map_iff in Hz. destruct Hz as [r [<- _]]. right.
  exists (row_x r), (row_y r). reflexivity.
Qed.

Lemma no_measurements_form :
  forall n : nat,
    Forall (fun z : option mat => z = None \/ exists a b, z = Some (column [a; b]))
           (repeat None n).
Proof.
  intros n. apply Forall_forall. intros z Hz. apply repeat_spec in Hz. left. exact Hz.
Qed.

Lemma run_block_shaped :
  forall (dt : num) (gdf : list Row) (k k' : KalmanFilter) (ms cs : list mat),
    kalman_shaped dt k ->
    run_block k gdf = ret (ms, cs, k') ->
    kalman_shaped dt k'
    /\ Forall (rect 6 1) ms /\ Forall (rect 6 6) cs
    /\ (kf_x k = nan6 -> kf_x k' = nan6 /\ Forall (eq nan6) ms).
Proof.
  intros dt gdf k k' ms cs Hk H. unfold run_block in H.
  destruct gdf as [|r0 rest]; [discriminate H|].
  cbn [map iloc0 bind ret] in H.
  destruct (isna (row_x r0) || isna (row_y r0)).
  - exact (batch_filter_shaped dt _ _ _ _ _ Hk (no_measurements_form _) H).
  - exact (batch_filter_shaped dt _ _ _ _ _ Hk (measurements_form _) H).
Qed.

Lemma run_block_poisoned :
  forall (dt : num) (r0 : Row) (rest : list Row) (i : nat) (r : Row)
         (k k' : KalmanFilter) (ms cs : list mat),
    kalman_shaped dt k ->
    start_idx r0 = true ->
    nth_error (r0 :: rest) i = Some r ->
    isna (row_y r) = true ->
    run_block k (r0 :: rest) = ret (ms, cs, k') ->
    kf_x k' = nan6
    /\ forall j, (i <= j)%nat -> (j < length (r0 :: rest))%nat -> nth j ms [] = nan6.
Proof.
  intros dt r0 rest i r k k' ms cs Hk H0 Hi Hy H. unfold run_block in H.
  cbn [map iloc0 bind ret] in H. unfold start_idx in H0.
  apply negb_true_iff in H0. rewrite H0 in H.
  assert (Hz : nth_error (xy_values (r0 :: rest)) i
               = Some (Some (column [row_x r; row_y r]))).
  { unfold xy_values. rewrite nth_error_map, Hi. reflexivity. }
  assert (Hn : row_x r = NaN \/ row_y r = NaN).
  { right. destruct (row_y r); [discriminate Hy | reflexivity]. }
  destruct (batch_filter_poisoned dt _ i _ _ k k' ms cs Hk (measurements_form _) Hz Hn H)
    as [J1 J2].
  split; [exact J1|]. intros j Hij Hj. apply J2; [exact Hij|].
  unfold xy_values. rewrite length_map. exact Hj.
Qed.

Lemma run_blocks_shaped :
  forall (dt : num) (gs : list (list Row)) (k k' : KalmanFilter)
         (mss css : list (list mat)),
    kalman_shaped dt k ->
    run_blocks k gs = ret (mss, css, k') ->
    kalman_shaped dt k'
    /\ Forall (rect 6 1) (concat mss) /\ Forall (rect 6 6) (concat css)
    /\ (kf_x k = nan6 -> kf_x k' = nan6 /\ Forall (eq nan6) (concat mss)).
Proof.
  intros dt. induction gs as [|g gs IH]; intros k k' mss css Hk H.
  - cbn in H. apply ret_inj in H. injection H as <- <- <-.
    split; [exact Hk|]. split; [constructor|]. split; [constructor|].
    intros E. split; [exact E | constructor].
  - cbn [run_blocks] in H.
    destruct (run_block k g) as [e|[[m c] k1]] eqn:Eb; [discriminate H|].
    cbn [bind] in H.
    destruct (run_blocks k1 gs) as [e|[[ms' cs'] k2]] eqn:E; [discriminate H|].
    cbn [bind] in H. apply ret_inj in H. injection H as <- <- <-.
    destruct (run_block_shaped dt g k k1 m c Hk Eb) as [B1 [B2 [B3 B4]]].
    destruct (IH _ _ _ _ B1 E) as [I1 [I2 [I3 I4]]].
    cbn [concat]. split; [exact I1|].
    split; [apply Forall_app; split; assumption|].
    split; [apply Forall_app; split; assumption|].
    intros En. destruct (B4 En) as [C1 C2]. destruct (I4 C1) as [D1 D2].
    split; [exact D1|]. apply Forall_app. split; assumption.
Qed.

Lemma kalman_filter_shaped :
  forall (sx sy dt : num) (k : KalmanFilter),
    kalman_filter sx sy dt 1 = ret k -> kalman_shaped dt k.
Proof.
  intros sx sy dt k H. unfold kalman_filter, KalmanFilter_init in H.
  change (6 <? 1)%nat with false in H. change (2 * 1 <? 1)%nat with false in H.
  cbv beta iota delta [bind] in H. apply ret_inj in H. subst k.
  unfold kalman_shaped. cbn [dim_x kf_F kf_H kf_R kf_Q kf_x set_F set_H set_R set_Q set_x set_P].
  split; [reflexivity|]. split; [reflexivity|]. split; [reflexivity|].
  split; [reflexivity|]. split.
  - split; [reflexivity | repeat constructor].
  - split; [reflexivity | repeat constructor].
Qed.

(** A stretch of rows of one status at the head of a list is the head of
    the first run. *)
Lemma runs_prefix :
  forall (A : Type) (st : A -> bool) (l1 l2 : list A),
    l1 <> [] ->
    (forall a b, In a l1 -> In b l1 -> st a = st b) ->
    exists tail more,
      runs st (l1 ++ l2) = (l1 ++ tail) :: more.
Proof.
  intros A st l1 l2 Hne Hst. induction l1 as [|a l1 IH]; [congruence|].
  destruct l1 as [|a' l1].
  - cbn [app]. destruct (runs_head st a l2) as [run [more E]].
    exists run, more. exact E.
  - destruct IH as [tail [more E]]; [discriminate| |].
    { intros x y Hx Hy. apply Hst; right; assumption. }
    exists tail, more. cbn [app] in *.
    rewrite (runs_cons st a a' _ _ _ E).
    rewrite (Hst a a' (or_introl eq_refl) (or_intror (or_introl eq_refl))).
    rewrite Bool.eqb_reflx. reflexivity.
Qed.

(** The forward pass over a track whose first row has both coordinates and
    in which a later row [r], with [x] present on all rows up to it, has no
    [y]. *)
Lemma run_filter_poisoned :
  forall (dt : num) (kf kf' : KalmanFilter) (r0 : Row) (mid : list Row) (r : Row)
         (post : list Row) (mu cov : list mat),
    kalman_shaped dt kf ->
    start_idx r0 = true ->
    (forall a, In a mid -> isna (row_x a) = false) ->
    isna (row_x r) = false ->
    isna (row_y r) = true ->
    run_filter kf (r0 :: mid ++ r :: post) = ret (mu, cov, kf') ->
    kalman_shaped dt kf'
    /\ Forall (rect 6 1) mu /\ Forall (rect 6 6) cov
    /\ kf_x kf' = nan6
    /\ forall j, (S (length mid) <= j)%nat -> (j < length (r0 :: mid ++ r :: post))%nat ->
         nth j mu [] = nan6.
Proof.
  intros dt kf kf' r0 mid r post mu cov Hk H0 Hmid Hx Hy H.
  destruct (run_filter_length _ _ _ _ _ H) as [Lmu _].
  rewrite run_filter_stacked in H by discriminate.
  assert (Hx0 : isna (row_x r0) = false).
  { unfold start_idx in H0. apply negb_true_iff, orb_false_iff in H0. tauto. }
  destruct (runs_prefix Row x_missing (r0 :: mid ++ [r]) post) as [tail [more E]];
    [discriminate| |].
  { assert (Hall : forall a, In a (r0 :: mid ++ [r]) -> x_missing a = false).
    { intros a [<-|Ha]; [exact Hx0|]. apply in_app_or in Ha.
      destruct Ha as [Ha|[<-|[]]]; [apply Hmid; exact Ha | exact Hx]. }
    intros a b Ha Hb. rewrite (Hall a Ha), (Hall b Hb). reflexivity. }
  replace ((r0 :: mid ++ [r]) ++ post) with (r0 :: mid ++ r :: post) in E
    by (cbn [app]; rewrite <- app_assoc; reflexivity).
  rewrite E in H. unfold stacked in H. cbn [run_blocks] in H.
  change ((r0 :: mid ++ [r]) ++ tail) with (r0 :: (mid ++ [r]) ++ tail) in H.
  destruct (run_block kf (r0 :: (mid ++ [r]) ++ tail)) as [e|[[m c] k1]] eqn:Eb;
    [discriminate H|].
  cbn [bind] in H.
  destruct (run_blocks k1 more) as [e|[[ms' cs'] k2]] eqn:Em; [discriminate H|].
  cbn [bind] in H. apply ret_inj in H. injection H as <- <- <-.
  destruct (run_block_shaped dt _ _ _ _ _ Hk Eb) as [B1 [B2 [B3 _]]].
  assert (Hi : nth_error (r0 :: (mid ++ [r]) ++ tail) (S (length mid)) = Some r).
  { cbn [nth_error]. rewrite <- app_assoc. rewrite nth_error_app2 by lia.
    rewrite Nat.sub_diag. reflexivity. }
  destruct (run_block_poisoned dt _ _ _ _ _ _ _ _ Hk H0 Hi Hy Eb) as [P1 P2].
  destruct (run_blocks_shaped dt _ _ _ _ _ B1 Em) as [I1 [I2 [I3 I4]]].
  destruct (I4 P1) as [J1 J2].
  destruct (run_block_length _ _ _ _ _ Eb) as [Lm _].
  cbn [concat] in *.
  split; [exact I1|].
  split; [apply Forall_app; split; assumption|].
  split; [apply Forall_app; split; assumption|].
  split; [exact J1|].
  intros j Hij Hj.
  destruct (Nat.lt_ge_cases j (length m)) as [Hlt|Hge].
  - rewrite app_nth1 by exact Hlt. apply P2; [exact Hij|]. rewrite <- Lm. exact Hlt.
  - rewrite app_nth2 by exact Hge. rewrite Forall_forall in J2. symmetry.
    apply J2. apply nth_In. rewrite length_app in Lmu. lia.
Qed.

(** The backward pass: when the last forward mean is all NaN, every smoothed
    mean is. *)
Lemma rts_loop_nan :
  forall (F Q : mat) (rest : list (mat * mat)) (xk Pk : mat)
         (s : smoothed) (tl : list smoothed),
    rect 6 6 F -> rect 6 6 Q ->
    Forall (fun xp => rect 6 1 (fst xp) /\ rect 6 6 (snd xp)) ((xk, Pk) :: rest) ->
    fst (last ((xk, Pk) :: rest) (xk, Pk)) = nan6 ->
    rts_loop F Q xk Pk rest = ret (s, tl) ->
    Forall (fun q : smoothed => fst (fst (fst q)) = nan6) (s :: tl).
Proof.
  intros F Q. induction rest as [|[xn Pn] rest IH]; intros xk Pk s tl RF RQ Hall Hlast H.
  - cbn in H. apply ret_inj in H. injection H as <- <-.
    constructor; [exact Hlast | constructor].
  - apply Forall_cons_iff in Hall. destruct Hall as [[Rx RP] Hrest].
    cbn [fst snd] in Rx, RP.
    cbn [rts_loop] in H.
    destruct (rts_loop F Q xn Pn rest) as [e|[next tl']] eqn:E; [discriminate H|].
    cbn [bind] in H. destruct next as [[[x1 P1] K1] Pp1].
    set (Pp := madd (dot (dot F Pk) (transpose F)) Q) in *.
    destruct (np_linalg_inv Pp) as [e|PI] eqn:EI; [discriminate H|].
    cbn [bind] in H. apply ret_inj in H. injection H as <- <-.
    assert (Hl : fst (last ((xn, Pn) :: rest) (xn, Pn)) = nan6).
    { rewrite <- Hlast.
      change (last ((xk, Pk) :: (xn, Pn) :: rest) (xk, Pk))
        with (last ((xn, Pn) :: rest) (xk, Pk)).
      rewrite (last_indep _ ((xn, Pn) :: rest) (xk, Pk) (xn, Pn)) by discriminate.
      reflexivity. }
    pose proof (IH xn Pn _ _ RF RQ Hrest Hl E) as Hn.
    constructor; [|exact Hn].
    apply Forall_cons_iff in Hn. destruct Hn as [Hx1 _]. cbn [fst] in Hx1. subst x1.
    cbn [fst].
    assert (RPp : rect 6 6 Pp).
    { apply map2_rect; [|exact RQ]. apply (dot_shape _ _ 6 5 6).
      - unfold dot. rewrite length_map. exact (rect_length _ _ _ RF).
      - exact (transpose_rect _ 5 6 RF). }
    pose proof (np_linalg_inv_rect _ _ _ RPp EI) as RPI.
    assert (RK : rect 6 6 (dot (dot Pk (transpose F)) PI)).
    { apply (dot_shape _ _ 6 5 6); [|exact RPI].
      unfold dot. rewrite length_map. exact (rect_length _ _ _ RP). }
    change (msub nan6 (dot F xk))
      with (map2 (map2 (nbin Qminus)) (column (repeat NaN 6)) (dot F xk)).
    rewrite (map2_nan_l Qminus 6 (dot F xk)
               (dot_shape F xk 6 5 1 (rect_length _ _ _ RF) Rx)).
    rewrite (dot_nan_column _ (repeat NaN 6) 0); [|discriminate|reflexivity|].
    + rewrite (rect_length _ _ _ RK). exact (map2_nan_r Qplus 6 _ Rx).
    + destruct RK as [_ WK]. eapply Forall_impl; [|exact WK].
      cbv beta. intros r0 ->. lia.
Qed.

Lemma Forall_combine :
  forall (A B : Type) (P : A -> Prop) (R : B -> Prop) (l : list A) (l' : list B),
    Forall P l -> Forall R l' ->
    Forall (fun ab => P (fst ab) /\ R (snd ab)) (combine l l').
Proof.
  intros A B P R l. induction l as [|a l IH]; intros l' Hl Hl'; [constructor|].
  destruct l' as [|b l']; [constructor|].
  apply Forall_cons_iff in Hl. apply Forall_cons_iff in Hl'.
  cbn [combine]. constructor; [cbn [fst snd]; tauto|]. apply IH; tauto.
Qed.

Lemma rts_smoother_nan :
  forall (dt : num) (k : KalmanFilter) (Xs Ps x P K Pp : list mat),
    kalman_shaped dt k ->
    Forall (rect 6 1) Xs -> Forall (rect 6 6) Ps ->
    Xs <> [] -> last Xs [] = nan6 ->
    rts_smoother k Xs Ps = ret (x, P, K, Pp) ->
    Forall (fun m => m = nan6) x.
Proof.
  intros dt k Xs Ps x P K Pp [_ [HF [_ [_ [HQ _]]]]] HX HP Hne Hlast H.
  destruct (rts_smoother_length _ _ _ _ _ _ _ H) as [L _].
  unfold rts_smoother in H. rewrite L, Nat.eqb_refl in H. cbn [negb] in H.
  destruct Xs as [|x0 xs]; [congruence|].
  destruct Ps as [|P0 ps]; [discriminate L|].
  cbn [combine] in H.
  destruct (rts_loop (kf_F k) (kf_Q k) x0 P0 (combine xs ps)) as [e|[s tl]] eqn:E;
    [discriminate H|].
  cbn [bind] in H. apply ret_inj in H. injection H as <- _ _ _.
  assert (Hl : fst (last ((x0, P0) :: combine xs ps) (x0, P0)) = nan6).
  { change ((x0, P0) :: combine xs ps) with (combine (x0 :: xs) (P0 :: ps)).
    rewrite (last_combine_fst _ _ (x0 :: xs) (P0 :: ps) x0 P0 L).
    rewrite (last_indep _ (x0 :: xs) x0 []) by discriminate. exact Hlast. }
  assert (Hall : Forall (fun xp : mat * mat => rect 6 1 (fst xp) /\ rect 6 6 (snd xp))
                        ((x0, P0) :: combine xs ps)).
  { change ((x0, P0) :: combine xs ps) with (combine (x0 :: xs) (P0 :: ps)).
    apply Forall_combine; assumption. }
  rewrite HF in E.
  pose proof (rts_loop_nan _ _ _ _ _ _ _ (transition_rect dt) HQ Hall Hl E) as Hn.
  unfold smoothed in *.
  set (f := fun q : mat * mat * mat * mat => fst (fst (fst q))) in *.
  change (Forall (fun m => m = nan6) (map f (s :: tl))).
  apply Forall_forall. intros m Hm. apply in_map_iff in Hm.
  destruct Hm as [q [<- Hq]]. rewrite Forall_forall in Hn. exact (Hn q Hq).
Qed.

Lemma init_filter_shaped :
  forall (gdf : list Row) (kf : KalmanFilter),
    init_filter gdf = ret kf -> kalman_shaped (ndiv (of_Z 1) (of_Z 30)) kf.
Proof.
  intros gdf kf H. unfold init_filter in H.
  destruct (iloc0 (map row_x (filter start_idx gdf))) as [e|sx]; [discriminate H|].
  cbn [bind] in H.
  destruct (iloc0 (map row_y (filter start_idx gdf))) as [e|sy]; [discriminate H|].
  cbn [bind] in H. exact (kalman_filter_shaped _ _ _ _ H).
Qed.

Lemma nth_last :
  forall (A : Type) (l : list A) (d : A),
    l <> [] -> nth (length l - 1) l d = last l d.
Proof.
  intros A l d Hl. destruct (exists_last Hl) as [l' [a ->]].
  rewrite last_last, length_app. cbn [length].
  replace (length l' + 1 - 1)%nat with (length l') by lia.
  rewrite app_nth2 by lia. rewrite Nat.sub_diag. reflexivity.
Qed.

Lemma entry_nan6 : forall t, (t < 6)%nat -> entry nan6 t 0 = NaN.
Proof. intros t Ht. do 6 (destruct t as [|t]; [reflexivity|]). lia. Qed.

(** X10.  A row that has [x] but no [y], in a track whose first row has
    both coordinates and whose rows up to it all have [x], is fed to the
    filter as a measurement: [run_filter], started on a filter built by
    [kalman_filter], returns for that row and for every row after it, to the
    end of the track, a mean whose six components are all NaN, and leaves
    the filter with such a state. *)
Theorem missing_y_turns_the_estimates_nan :
  forall (sx sy dt : num) (kf kf' : KalmanFilter) (r0 : Row) (mid : list Row) (r : Row)
         (post : list Row) (mu cov : list mat),
    kalman_filter sx sy dt 1 = ret kf ->
    start_idx r0 = true ->
    (forall a, In a mid -> isna (row_x a) = false) ->
    isna (row_x r) = false ->
    isna (row_y r) = true ->
    run_filter kf (r0 :: mid ++ r :: post) = ret (mu, cov, kf') ->
    kf_x kf' = nan6
    /\ forall j, (S (length mid) <= j)%nat -> (j < length (r0 :: mid ++ r :: post))%nat ->
         nth j mu [] = nan6.
Proof.
  intros sx sy dt kf kf' r0 mid r post mu cov Hkf H0 Hmid Hx Hy H.
  pose proof (kalman_filter_shaped _ _ _ _ Hkf) as Hk.
  destruct (run_filter_poisoned dt kf kf' r0 mid r post mu cov Hk H0 Hmid Hx Hy H)
    as [_ [_ [_ [E Hn]]]].
  split; [exact E | exact Hn].
Qed.

Lemma missing_y_turns_the_estimates_nan_witness :
  exists mu cov kf',
    run_filter kfilter_11 track_y_gap = ret (mu, cov, kf')
    /\ kf_x kf' = nan6
    /\ forall j, (1 <= j)%nat -> (j < 3)%nat -> nth j mu [] = nan6.
Proof.
  destruct (run_filter kfilter_11 track_y_gap) as [e|[[mu cov] kf']] eqn:E.
  - vm_compute in E. discriminate E.
  - exists mu, cov, kf'. split; [reflexivity|].
    apply (missing_y_turns_the_estimates_nan
             (of_Z 1) (of_Z 1) (ndiv (of_Z 1) (of_Z 30)) kfilter_11 kf'
             (mkRow 0 1 (of_Z 1) (of_Z 1)) [] (mkRow 1 1 (of_Z 2) NaN)
             [mkRow 2 1 (of_Z 3) (of_Z 3)] mu cov).
    + reflexivity.
    + reflexivity.
    + intros a [].
    + reflexivity.
    + reflexivity.
    + exact E.
Defined.

Lemma kalman_writes_track :
  forall (df df' : DataFrame) (r : Row),
    NoDup (map row_index (rows df)) ->
    well_formed df ->
    kalman df = Returned df' ->
    In r (rows df) ->
    track_written (filter (fun q => row_trackingId q =? row_trackingId r) (rows df)) df'.
Proof.
  intros df df' r Hnd Hwf Hk Hr.
  pose proof (kalman_returned _ _ Hk) as E.
  apply (for_each_track_written (groupby row_trackingId (rows df)) df df' Hwf
           (groups_separated _ _ Hnd (sorted_keys_ascending _)))
    with (g := (row_trackingId r,
                filter (fun q => row_trackingId q =? row_trackingId r) (rows df))).
  - intros [tid g] Hg. apply groupby_members in Hg. subst g. split.
    + unfold labels_of. cbn [snd]. apply NoDup_map_filter. exact Hnd.
    + intros q Hq. cbn [snd] in Hq. apply filter_In in Hq.
      apply position_In. tauto.
  - exact E.
  - apply groupby_has_group. exact Hr.
Qed.

(** X11.  In a dataframe with distinct index labels and one value per row in
    every column, take a track whose first row has both coordinates and in
    which a later row [r], with [x] present on all rows up to it, has no
    [y].  When [kalman] returns, every row of the track has NaN in all six
    [rts_] columns, and [r] and the rows of the track after it have NaN in
    all six [kalman_] columns: one frame with half a measurement erases the
    whole smoothed track. *)
Theorem missing_y_erases_the_smoothed_track :
  forall (df df' : DataFrame) (tid : Z) (r0 : Row) (mid : list Row) (r : Row)
         (post : list Row),
    NoDup (map row_index (rows df)) ->
    well_formed df ->
    kalman df = Returned df' ->
    filter (fun q => row_trackingId q =? tid) (rows df) = r0 :: mid ++ r :: post ->
    start_idx r0 = true ->
    (forall a, In a mid -> isna (row_x a) = false) ->
    isna (row_x r) = false ->
    isna (row_y r) = true ->
    forall t, (t < 6)%nat ->
      (forall a, In a (r0 :: mid ++ r :: post) ->
         cell df' (nth t rts_columns "") (row_index a) = Some NaN)
      /\ (forall a, In a (r :: post) ->
         cell df' (nth t kalman_columns "") (row_index a) = Some NaN).
Proof.
  intros df df' tid r0 mid r post Hnd Hwf Hk Hg H0 Hmid Hx Hy t Ht.
  assert (Hr0 : In r0 (rows df) /\ row_trackingId r0 = tid).
  { assert (Hin : In r0 (filter (fun q => row_trackingId q =? tid) (rows df)))
      by (rewrite Hg; left; reflexivity).
    apply filter_In in Hin. destruct Hin as [Hin Ht0].
    split; [exact Hin | apply Z.eqb_eq; exact Ht0]. }
  destruct Hr0 as [Hr0 Etid].
  pose proof (kalman_writes_track df df' r0 Hnd Hwf Hk Hr0) as Hw.
  rewrite Etid, Hg in Hw.
  destruct Hw as [kf [mu [cov [kf' [mu_rts [cov_rts [K [Pp [Hi [Hrun [Hs Hcells]]]]]]]]]]].
  pose proof (init_filter_shaped _ _ Hi) as Hsh.
  destruct (run_filter_poisoned _ kf kf' r0 mid r post mu cov Hsh H0 Hmid Hx Hy Hrun)
    as [Hsh' [Rmu [Rcov [_ Hnan]]]].
  destruct (run_filter_length _ _ _ _ _ Hrun) as [Lmu _].
  destruct (rts_smoother_length _ _ _ _ _ _ _ Hs) as [_ Lrts].
  assert (Lg : length (r0 :: mid ++ r :: post) = S (length mid + S (length post))).
  { cbn [length]. rewrite length_app. reflexivity. }
  assert (Hne : mu <> []).
  { intros Z0. rewrite Z0 in Lmu. rewrite Lg in Lmu. discriminate Lmu. }
  assert (Hlast : last mu [] = nan6).
  { rewrite <- (nth_last _ mu [] Hne). apply Hnan; rewrite Lmu, Lg; lia. }
  pose proof (rts_smoother_nan _ kf' mu cov mu_rts cov_rts K Pp Hsh' Rmu Rcov Hne Hlast Hs)
    as Hall.
  split.
  - intros a Ha. apply In_nth_error in Ha. destruct Ha as [j Hj].
    destruct (Hcells j a Hj t Ht) as [_ C2]. rewrite C2.
    assert (Hlt : (j < length mu_rts)%nat).
    { rewrite Lrts, Lmu. apply nth_error_Some. rewrite Hj. discriminate. }
    rewrite Forall_forall in Hall. rewrite (Hall _ (nth_In mu_rts [] Hlt)).
    rewrite (entry_nan6 t Ht). reflexivity.
  - intros a Ha. apply In_nth_error in Ha. destruct Ha as [i Hi'].
    assert (Hj : nth_error (r0 :: mid ++ r :: post) (S (length mid) + i) = Some a).
    { cbn [Nat.add nth_error]. rewrite nth_error_app2 by lia.
      replace (length mid + i - length mid)%nat with i by lia. exact Hi'. }
    destruct (Hcells _ a Hj t Ht) as [C1 _]. rewrite C1.
    rewrite Hnan.
    + rewrite (entry_nan6 t Ht). reflexivity.
    + lia.
    + apply nth_error_Some. rewrite Hj. discriminate.
Qed.

Lemma missing_y_erases_the_smoothed_track_witness :
  exists df',
    kalman df_y_gap = Returned df'
    /\ forall t, (t < 6)%nat ->
         (forall a, In a [mkRow 0 1 (of_Z 1) (of_Z 1); mkRow 2 1 (of_Z 2) NaN;
                          mkRow 4 1 (of_Z 3) (of_Z 3)] ->
            cell df' (nth t rts_columns "") (row_index a) = Some NaN)
         /\ (forall a, In a [mkRow 2 1 (of_Z 2) NaN; mkRow 4 1 (of_Z 3) (of_Z 3)] ->
            cell df' (nth t kalman_columns "") (row_index a) = Some NaN).
Proof.
  destruct (kalman df_y_gap) as [d|e d] eqn:E.
  - exists d. split; [reflexivity|].
    refine (missing_y_erases_the_smoothed_track df_y_gap d 1
              (mkRow 0 1 (of_Z 1) (of_Z 1)) [] (mkRow 2 1 (of_Z 2) NaN)
              [mkRow 4 1 (of_Z 3) (of_Z 3)] _ _ E _ _ _ _ _).
    + simpl. repeat constructor; simpl; intuition discriminate.
    + repeat constructor.
    + reflexivity.
    + reflexivity.
    + intros a [].
    + reflexivity.
    + reflexivity.
  - vm_compute in E. discriminate E.
Defined.

(** ** Tracks without half a measurement *)


























(** ** [pad]: homogeneous coordinates *)

Lemma nth_map2 :
  forall (A B C : Type) (f : A -> B -> C) (l : list A) (l' : list B) (i : nat)
         (d : C) (da : A) (db : B),
    (i < length l)%nat -> (i < length l')%nat ->
    nth i (map2 f l l') d = f (nth i l da) (nth i l' db).
Proof.
  intros A B C f l. induction l as [|a l IH]; intros l' i d da db Hl Hl'.
  - cbn in Hl. lia.
  - destruct l' as [|b l']; [cbn in Hl'; lia|].
    destruct i as [|i]; [reflexivity|]. cbn [map2 nth].
    apply IH; cbn [length] in *; lia.
Qed.

(** Transposition swaps the indices. *)
Lemma transpose_entry :
  forall (m : mat) (n w i j : nat),
    rect (S n) w m -> (i < w)%nat -> (j < S n)%nat ->
    entry (transpose m) i j = entry m j i.
Proof.
  induction m as [|r rs IH]; intros n w i j [Hl Hw] Hi Hj; [discriminate Hl|].
  pose proof Hw as Hw0.
  apply Forall_cons_iff in Hw. destruct Hw as [Hr Hrs].
  destruct rs as [|r2 rs];
    [change (transpose [r]) with (map (fun a : num => [a]) r)
    |change (transpose (r :: r2 :: rs)) with (map2 cons r (transpose (r2 :: rs)))].
  - cbn [length] in Hl. assert (j = 0%nat) as -> by lia.
    unfold entry. cbn [nth].
    rewrite (nth_indep _ [] [NaN]) by (rewrite length_map; lia).
    rewrite (map_nth (fun a : num => [a]) r NaN i). reflexivity.
  - destruct n as [|n]; [discriminate Hl|].
    assert (Hrec : rect (S n) w (r2 :: rs)).
    { split; [cbn [length] in *; lia | exact Hrs]. }
    destruct (transpose_rect _ _ _ Hrec) as [Tl _].
    assert (L1 : (i < length r)%nat) by (rewrite Hr; exact Hi).
    assert (L2 : (i < length (transpose (r2 :: rs)))%nat) by (rewrite Tl; exact Hi).
    unfold entry.
    change (@nth vec) with (@nth (list num)).
    rewrite (nth_map2 num (list num) (list num) (@cons num) r (transpose (r2 :: rs)) i
               [] NaN [] L1 L2).
    destruct j as [|j]; [reflexivity|]. cbn [nth].
    apply (IH n w i j Hrec Hi). lia.
Qed.

(** X13.  [pad] turns [n >= 1] points of [w] coordinates, one per row, into
    homogeneous coordinates, one point per column: the result has [w + 1]
    rows of [n] entries, the first [w] rows are the coordinates (entry
    [(i, j)] is coordinate [i] of point [j]) and the last row is [val]
    throughout. *)
Theorem pad_gives_homogeneous_columns :
  forall (X : mat) (val : num) (n w : nat),
    rect (S n) w X ->
    rect (S w) (S n) (pad X val)
    /\ (forall i j, (i < w)%nat -> (j < S n)%nat -> entry (pad X val) i j = entry X j i)
    /\ (forall j, (j < S n)%nat -> entry (pad X val) w j = val).
Proof.
  intros X val n w [Hl Hw]. unfold mat, vec in *.
  assert (HR : rect (S n) (S w) (map (fun r => r ++ [val]) X)).
  { split; [rewrite length_map; exact Hl|].
    apply Forall_forall. intros x Hx. apply in_map_iff in Hx.
    destruct Hx as [r [<- Hr]]. rewrite length_app. cbn [length].
    rewrite Forall_forall in Hw. rewrite (Hw r Hr). lia. }
  assert (Hrow : forall j, (j < S n)%nat ->
            nth j (map (fun r => r ++ [val]) X) [] = nth j X [] ++ [val]
            /\ length (nth j X []) = w).
  { intros j Hj. split.
    - rewrite (nth_indep _ [] ([] ++ [val])) by (rewrite length_map, Hl; exact Hj).
      exact (map_nth (fun r => r ++ [val]) X [] j).
    - rewrite Forall_forall in Hw. apply Hw. apply nth_In. rewrite Hl. exact Hj. }
  unfold pad. split; [exact (transpose_rect _ _ _ HR)|]. split.
  - intros i j Hi Hj. rewrite (transpose_entry _ n (S w) i j HR) by lia.
    unfold entry. unfold mat, vec in *. destruct (Hrow j Hj) as [-> L]. apply app_nth1.
    rewrite L. exact Hi.
  - intros j Hj. rewrite (transpose_entry _ n (S w) w j HR) by lia.
    unfold entry. unfold mat, vec in *. destruct (Hrow j Hj) as [-> L].
    rewrite app_nth2 by (rewrite L; apply Nat.le_refl).
    rewrite L, Nat.sub_diag. reflexivity.
Qed.

Lemma pad_gives_homogeneous_columns_witness :
  pad [ [of_Z 3; of_Z 4]; [of_Z 5; of_Z 6]; [of_Z 7; of_Z 8] ] pad_default_val
  = [ [of_Z 3; of_Z 5; of_Z 7]; [of_Z 4; of_Z 6; of_Z 8]; [of_Z 1; of_Z 1; of_Z 1] ]
  /\ rect 3 3 (pad [ [of_Z 3; of_Z 4]; [of_Z 5; of_Z 6]; [of_Z 7; of_Z 8] ] pad_default_val).
Proof.
  split; [reflexivity|].
  apply (pad_gives_homogeneous_columns
           [ [of_Z 3; of_Z 4]; [of_Z 5; of_Z 6]; [of_Z 7; of_Z 8] ] pad_default_val 2 2).
  split; [reflexivity | repeat constructor].
Defined.

(** ** The mapper and [pixels2world] *)



(** ** The covariances do not look at the values *)

Lemma predict_same_model :
  forall k1 k2 : KalmanFilter, same_model k1 k2 -> same_model (predict k1) (predict k2).
Proof.
  intros [d1 z1 F1 H1' R1' Q1 x1 P1] [d2 z2 F2 H2' R2' Q2 x2 P2] H.
  unfold same_model in *.
  cbn [dim_x kf_F kf_H kf_R kf_Q kf_P kf_x predict set_x set_P] in *.
  destruct H as [-> [-> [-> [-> [-> ->]]]]]. repeat split.
Qed.

Lemma update_same_model :
  forall (k1 k2 : KalmanFilter) (z1 z2 : option mat),
    same_model k1 k2 -> (z1 = None <-> z2 = None) ->
    match update k1 z1, update k2 z2 with
    | inr a, inr b => same_model a b
    | inl e1, inl e2 => e1 = e2
    | _, _ => False
    end.
Proof.
  intros [d1 dz1 F1 H1' R1' Q1 x1 P1] [d2 dz2 F2 H2' R2' Q2 x2 P2] z1 z2 H Hz.
  unfold same_model in H.
  cbn [dim_x kf_F kf_H kf_R kf_Q kf_P kf_x] in H.
  destruct H as [-> [-> [-> [-> [-> ->]]]]].
  destruct z1 as [zc1|], z2 as [zc2|].
  - unfold update. cbn [dim_x kf_F kf_H kf_R kf_Q kf_P kf_x].
    destruct (np_linalg_inv (madd (dot H2' (dot P2 (transpose H2'))) R2')) as [e|SI];
      [reflexivity|].
    cbn [bind ret]. unfold same_model.
    cbn [dim_x kf_F kf_H kf_R kf_Q kf_P kf_x set_x set_P]. repeat split.
  - exfalso. assert (E : Some zc1 = None) by (apply Hz; reflexivity). discriminate E.
  - exfalso. assert (E : Some zc2 = None) by (apply Hz; reflexivity). discriminate E.
  - cbn [update ret]. unfold same_model.
    cbn [dim_x kf_F kf_H kf_R kf_Q kf_P kf_x]. repeat split.
Qed.

Lemma batch_filter_alike :
  forall (zs1 zs2 : list (option mat)) (k1 k2 : KalmanFilter),
    same_model k1 k2 ->
    Forall2 (fun z1 z2 : option mat => z1 = None <-> z2 = None) zs1 zs2 ->
    alike (batch_filter k1 zs1) (batch_filter k2 zs2).
Proof.
  intros zs1 zs2 k1 k2 Hk Hz. revert k1 k2 Hk.
  induction Hz as [|z1 z2 zs1 zs2 Hz Hzs IH]; intros k1 k2 Hk.
  - cbn. split; [reflexivity | exact Hk].
  - cbn [batch_filter].
    pose proof (update_same_model (predict k1) (predict k2) z1 z2
                  (predict_same_model k1 k2 Hk) Hz) as Hu.
    destruct (update (predict k1) z1) as [e1|a], (update (predict k2) z2) as [e2|b];
      try contradiction.
    + cbn. exact Hu.
    + cbn [bind]. specialize (IH a b Hu).
      destruct (batch_filter a zs1) as [e1|[[ms1 cs1] a']],
               (batch_filter b zs2) as [e2|[[ms2 cs2] b']]; try contradiction.
      * cbn. exact IH.
      * cbn in IH |- *. destruct IH as [-> Hk']. split; [|exact Hk'].
        destruct Hu as [_ [_ [_ [_ [_ ->]]]]]. reflexivity.
Qed.

Lemma status_cons :
  forall (a1 a2 : Row) (t1 t2 : list Row),
    map status (a1 :: t1) = map status (a2 :: t2) ->
    isna (row_x a1) = isna (row_x a2)
    /\ isna (row_y a1) = isna (row_y a2)
    /\ map status t1 = map status t2.
Proof.
  intros a1 a2 t1 t2 H. cbn [map] in H.
  assert (Hr : status a1 = status a2) by congruence.
  assert (Ht : map status t1 = map status t2) by congruence.
  unfold status in Hr.
  split; [congruence | split; [congruence | exact Ht]].
Qed.

Lemma run_block_alike :
  forall (g1 g2 : list Row) (k1 k2 : KalmanFilter),
    same_model k1 k2 -> map status g1 = map status g2 ->
    alike (run_block k1 g1) (run_block k2 g2).
Proof.
  intros g1 g2 k1 k2 Hk Hs.
  destruct g1 as [|r1 t1], g2 as [|r2 t2]; try discriminate Hs.
  - cbn. reflexivity.
  - destruct (status_cons _ _ _ _ Hs) as [Hx [Hy Ht]].
    assert (L : length t1 = length t2).
    { rewrite <- (length_map status t1), Ht, length_map. reflexivity. }
    unfold run_block. cbn [map iloc0 bind ret]. rewrite Hx, Hy.
    destruct (isna (row_x r2) || isna (row_y r2)).
    + apply batch_filter_alike; [exact Hk|]. cbn [length]. rewrite L.
      generalize (S (length t2)). intros n. induction n; constructor; tauto.
    + apply batch_filter_alike; [exact Hk|]. unfold xy_values. cbn [map].
      constructor; [split; discriminate|].
      clear - L. revert t2 L. induction t1 as [|a t1 IH]; intros [|b t2] L;
        try discriminate L; constructor.
      * split; discriminate.
      * apply IH. cbn [length] in L. lia.
Qed.

Lemma run_blocks_alike :
  forall (gs1 gs2 : list (list Row)) (k1 k2 : KalmanFilter),
    same_model k1 k2 ->
    Forall2 (fun g1 g2 => map status g1 = map status g2) gs1 gs2 ->
    match run_blocks k1 gs1, run_blocks k2 gs2 with
    | inr (_, c1, a), inr (_, c2, b) => c1 = c2 /\ same_model a b
    | inl e1, inl e2 => e1 = e2
    | _, _ => False
    end.
Proof.
  intros gs1 gs2 k1 k2 Hk Hg. revert k1 k2 Hk.
  induction Hg as [|g1 g2 gs1 gs2 Hg Hgs IH]; intros k1 k2 Hk.
  - cbn. split; [reflexivity | exact Hk].
  - cbn [run_blocks].
    pose proof (run_block_alike g1 g2 k1 k2 Hk Hg) as Hb. unfold alike in Hb.
    destruct (run_block k1 g1) as [e1|[[m1 c1] a]],
             (run_block k2 g2) as [e2|[[m2 c2] b]]; try contradiction.
    + cbn. exact Hb.
    + cbn [bind]. destruct Hb as [-> Hab]. specialize (IH a b Hab).
      destruct (run_blocks a gs1) as [e1|[[ms1 cs1] a']],
               (run_blocks b gs2) as [e2|[[ms2 cs2] b']]; try contradiction.
      * cbn. exact IH.
      * cbn in IH |- *. destruct IH as [-> Hk']. split; [reflexivity | exact Hk'].
Qed.

(** Rows with the same pattern of missing coordinates fall into the same
    groups. *)
Lemma runs_alike :
  forall df1 df2 : list Row,
    map status df1 = map status df2 ->
    Forall2 (fun g1 g2 => map status g1 = map status g2)
            (runs x_missing df1) (runs x_missing df2).
Proof.
  induction df1 as [|a1 t1 IH]; intros [|a2 t2] H; try discriminate H.
  - constructor.
  - destruct (status_cons _ _ _ _ H) as [Hxa [Hya Ht]].
    assert (Ha : status a1 = status a2).
    { unfold status. rewrite Hxa, Hya. reflexivity. }
    change (x_missing a1 = x_missing a2) in Hxa.
    specialize (IH t2 Ht).
    destruct t1 as [|b1 t1], t2 as [|b2 t2]; try discriminate Ht.
    + cbn. constructor; [cbn; rewrite Ha; reflexivity | constructor].
    + assert (Hxb : x_missing b1 = x_missing b2).
      { exact (proj1 (status_cons _ _ _ _ Ht)). }
      destruct (runs_head x_missing b1 t1) as [run1 [more1 E1]].
      destruct (runs_head x_missing b2 t2) as [run2 [more2 E2]].
      rewrite (runs_cons x_missing a1 b1 t1 _ _ E1).
      rewrite (runs_cons x_missing a2 b2 t2 _ _ E2).
      rewrite E1, E2 in IH. rewrite Hxa, Hxb.
      apply Forall2_cons_iff in IH. destruct IH as [Hrun Hmore].
      destruct (Bool.eqb (x_missing a2) (x_missing b2)).
      * constructor; [|exact Hmore]. cbn [map]. rewrite Ha. f_equal. exact Hrun.
      * constructor; [cbn [map]; rewrite Ha; reflexivity|].
        constructor; assumption.
Qed.

Lemma run_filter_alike :
  forall (k1 k2 : KalmanFilter) (df1 df2 : list Row),
    same_model k1 k2 -> map status df1 = map status df2 ->
    alike (run_filter k1 df1) (run_filter k2 df2).
Proof.
  intros k1 k2 df1 df2 Hk Hs.
  destruct df1 as [|a1 t1] eqn:E1, df2 as [|a2 t2] eqn:E2; try discriminate Hs.
  - cbn. reflexivity.
  - rewrite <- E1, <- E2 in *.
    rewrite (run_filter_stacked k1 df1) by (rewrite E1; discriminate).
    rewrite (run_filter_stacked k2 df2) by (rewrite E2; discriminate).
    pose proof (run_blocks_alike _ _ k1 k2 Hk (runs_alike df1 df2 Hs)) as H.
    unfold stacked, alike.
    destruct (run_blocks k1 (runs x_missing df1)) as [e1|[[ms1 cs1] a]],
             (run_blocks k2 (runs x_missing df2)) as [e2|[[ms2 cs2] b]];
      try contradiction.
    + cbn. exact H.
    + cbn. destruct H as [-> Hab]. split; [reflexivity | exact Hab].
Qed.

(** X15.  The covariances do not look at the values: for two tracks that
    lack the same coordinates in the same rows, and two filters that differ
    at most in their state, [run_filter] raises the same exception on both
    or returns on both, with the same covariance for every row and the same
    final covariance, whatever the coordinates are. *)
Theorem covariance_ignores_the_values :
  forall (k1 k2 : KalmanFilter) (df1 df2 : list Row),
    same_model k1 k2 ->
    map status df1 = map status df2 ->
    (forall e, run_filter k1 df1 = raise e -> run_filter k2 df2 = raise e)
    /\ (forall mu1 cov k1',
          run_filter k1 df1 = ret (mu1, cov, k1') ->
          exists mu2 k2',
            run_filter k2 df2 = ret (mu2, cov, k2') /\ kf_P k2' = kf_P k1').
Proof.
  intros k1 k2 df1 df2 Hk Hs.
  pose proof (run_filter_alike k1 k2 df1 df2 Hk Hs) as H. unfold alike in H.
  destruct (run_filter k1 df1) as [e1|[[mu1 c1] a]],
           (run_filter k2 df2) as [e2|[[mu2 c2] b]]; try contradiction.
  - split; [|intros ? ? ? E; discriminate E].
    intros e E. unfold raise in *. congruence.
  - split; [intros e E; discriminate E|].
    intros m c k E. apply ret_inj in E. injection E as <- <- <-.
    destruct H as [-> [_ [_ [_ [_ [_ HP]]]]]].
    exists mu2, b. split; [reflexivity | symmetry; exact HP].
Qed.

Lemma covariance_ignores_the_values_witness :
  exists mu1 mu2 cov k1' k2',
    run_filter kfilter_11 track_xy_gap = ret (mu1, cov, k1')
    /\ run_filter (set_x kfilter_11 (column [of_Z 10; of_Z 0; of_Z 0; of_Z 20; of_Z 0; of_Z 0]))
         track_xy_gap_far = ret (mu2, cov, k2')
    /\ kf_P k2' = kf_P k1'.
Proof.
  destruct (run_filter kfilter_11 track_xy_gap) as [e|[[mu1 cov] k1']] eqn:E.
  - vm_compute in E. discriminate E.
  - destruct (proj2 (covariance_ignores_the_values kfilter_11
                       (set_x kfilter_11 (column [of_Z 10; of_Z 0; of_Z 0; of_Z 20; of_Z 0; of_Z 0]))
                       track_xy_gap track_xy_gap_far
                       (conj eq_refl (conj eq_refl (conj eq_refl
                          (conj eq_refl (conj eq_refl eq_refl)))))
                       eq_refl)
                    mu1 cov k1' E) as [mu2 [k2' [E2 EP]]].
    exists mu1, mu2, cov, k1', k2'. split; [reflexivity|]. split; [exact E2 | exact EP].
Defined.

(** ** [kalman] on its own result *)

Lemma kalman_track_again :
  forall (g : list Row) (d1 d1' d2 : DataFrame),
    kalman_track g d1 = (ret tt, d1') ->
    exists d2', kalman_track g d2 = (ret tt, d2').
Proof.
  intros g d1 d1' d2 H. unfold kalman_track, bindM, lift, modify in *.
  destruct (init_filter g) as [e|kf]; [discriminate H|].
  destruct (run_filter kf g) as [e|[[mu cov] kf']]; [discriminate H|].
  destruct (rts_smoother kf' mu cov) as [e|[[[mu_rts cov_rts] K] Pp]];
    [discriminate H|].
  eexists. reflexivity.
Qed.

Lemma for_each_track_again :
  forall (gs : list (Z * list Row)) (d1 d1' d2 : DataFrame),
    for_each_track gs d1 = (ret tt, d1') ->
    exists d2', for_each_track gs d2 = (ret tt, d2').
Proof.
  induction gs as [|[tid g] gs IH]; intros d1 d1' d2 H.
  - exists d2. reflexivity.
  - cbn [for_each_track] in *. unfold bindM in *.
    destruct (kalman_track g d1) as [[e|[]] d1m] eqn:E1; [discriminate H|].
    destruct (kalman_track_again g d1 d1m d2 E1) as [d2m E2]. rewrite E2.
    exact (IH d1m d1' d2m H).
Qed.

Lemma for_each_track_well_formed :
  forall (gs : list (Z * list Row)) (d d' : DataFrame),
    well_formed d -> for_each_track gs d = (ret tt, d') -> well_formed d'.
Proof.
  induction gs as [|[tid g] gs IH]; intros d d' Hwf H.
  - cbn in H. injection H as <-. exact Hwf.
  - cbn [for_each_track] in H. unfold bindM in H.
    destruct (kalman_track g d) as [[e|[]] dm] eqn:E; [discriminate H|].
    apply (IH dm d'); [|exact H].
    destruct (kalman_track_success g d dm E)
      as [kf [mu [cov [kf' [mu_rts [cov_rts [K [Pp [_ [_ [_ ->]]]]]]]]]]].
    apply write_all_well_formed. exact Hwf.
Qed.

Lemma position_of_nth :
  forall (rws : list Row) (p : nat) (r : Row),
    NoDup (map row_index rws) -> nth_error rws p = Some r ->
    position (row_index r) rws = Some p.
Proof.
  induction rws as [|a rws IH]; intros p r Hnd Hp; [destruct p; discriminate Hp|].
  cbn [map] in Hnd. apply NoDup_cons_iff in Hnd. destruct Hnd as [Hnotin Hnd].
  destruct p as [|p].
  - cbn in Hp. injection Hp as ->. cbn [position]. rewrite Z.eqb_refl. reflexivity.
  - cbn [nth_error] in Hp. cbn [position].
    destruct (row_index a =? row_index r) eqn:E.
    + exfalso. apply Hnotin. apply Z.eqb_eq in E. rewrite E.
      apply in_map. eapply nth_error_In. exact Hp.
    + rewrite (IH p r Hnd Hp). reflexivity.
Qed.

Lemma get_col_nth :
  forall (cs : list (string * list num)) (i : nat) (n : string) (v : list num),
    NoDup (map fst cs) -> nth_error cs i = Some (n, v) -> get_col n cs = Some v.
Proof.
  induction cs as [|[n0 v0] cs IH]; intros i n v Hnd Hi; [destruct i; discriminate Hi|].
  cbn [map fst] in Hnd. apply NoDup_cons_iff in Hnd. destruct Hnd as [Hnotin Hnd].
  destruct i as [|i].
  - cbn in Hi. injection Hi as -> ->. cbn [get_col fst snd].
    rewrite String.eqb_refl. reflexivity.
  - cbn [nth_error] in Hi. cbn [get_col fst snd].
    destruct (String.eqb n0 n) eqn:E.
    + exfalso. apply Hnotin. apply String.eqb_eq in E. subst n0.
      change n with (fst (n, v)). apply in_map. eapply nth_error_In. exact Hi.
    + exact (IH i n v Hnd Hi).
Qed.

Lemma NoDup_append :
  forall (A : Type) (a b : list A),
    NoDup a -> NoDup b -> (forall x, In x a -> ~ In x b) -> NoDup (a ++ b).
Proof.
  intros A a b Ha Hb Hdis. induction a as [|x a IH]; [exact Hb|].
  apply NoDup_cons_iff in Ha. destruct Ha as [Hx Ha].
  cbn [app]. constructor.
  - intros Hin. apply in_app_or in Hin. destruct Hin as [Hin|Hin].
    + exact (Hx Hin).
    + exact (Hdis x (or_introl eq_refl) Hin).
  - apply IH; [exact Ha|]. intros y Hy. apply Hdis. right. exact Hy.
Qed.

Lemma names_after_NoDup : forall ns, NoDup ns -> NoDup (names_after ns).
Proof.
  intros ns Hnd. rewrite names_after_missing. apply NoDup_append.
  - exact Hnd.
  - apply NoDup_filter. exact twelve_NoDup.
  - intros c Hc Hin. apply filter_In in Hin. destruct Hin as [_ Hneg].
    apply negb_true_iff in Hneg.
    assert (Ht : existsb (String.eqb c) ns = true).
    { apply existsb_exists. exists c. split; [exact Hc | apply String.eqb_refl]. }
    congruence.
Qed.

Lemma list_ext :
  forall (A : Type) (l1 l2 : list A),
    length l1 = length l2 ->
    (forall i a b, nth_error l1 i = Some a -> nth_error l2 i = Some b -> a = b) ->
    l1 = l2.
Proof.
  intros A. induction l1 as [|x l1 IH]; intros [|y l2] L H; try discriminate L;
    [reflexivity|].
  f_equal.
  - exact (H 0%nat x y eq_refl eq_refl).
  - apply IH; [cbn [length] in L; lia|].
    intros i a b Ha Hb. exact (H (S i) a b Ha Hb).
Qed.

Lemma twelve_nth :
  forall n, In n twelve ->
    exists t, (t < 6)%nat /\ (n = nth t kalman_columns "" \/ n = nth t rts_columns "").
Proof.
  intros n H. unfold twelve, kalman_columns, rts_columns in H. cbn [app In] in H.
  destruct H as [<-|[<-|[<-|[<-|[<-|[<-|[<-|[<-|[<-|[<-|[<-|[<-|[]]]]]]]]]]]]];
    [exists 0%nat | exists 1%nat | exists 2%nat | exists 3%nat | exists 4%nat | exists 5%nat
    |exists 0%nat | exists 1%nat | exists 2%nat | exists 3%nat | exists 4%nat | exists 5%nat];
    (split; [lia | first [left; reflexivity | right; reflexivity]]).
Qed.

(** In a dataframe with distinct labels and distinct column names, the
    value of a cell read by position. *)
Lemma cell_nth :
  forall (d : DataFrame) (i p : nat) (n : string) (v : list num) (r : Row),
    NoDup (map row_index (rows d)) -> NoDup (col_names d) ->
    nth_error (cols d) i = Some (n, v) -> nth_error (rows d) p = Some r ->
    cell d n (row_index r) = nth_error v p.
Proof.
  intros d i p n v r Hnd Hcn Hi Hp. unfold cell.
  rewrite (get_col_nth (cols d) i n v Hcn Hi).
  rewrite (position_of_nth (rows d) p r Hnd Hp). reflexivity.
Qed.

(** X16.  [kalman] is idempotent on a dataframe with distinct index labels,
    distinct column names and one value per row in every column: when
    [kalman] returns, a further call on the dataframe it returned returns
    too, and changes nothing in it. *)
Theorem kalman_is_idempotent :
  forall df df' : DataFrame,
    NoDup (map row_index (rows df)) ->
    NoDup (col_names df) ->
    well_formed df ->
    kalman df = Returned df' ->
    kalman df' = Returned df'.
Proof.
  intros df df' Hnd Hcn Hwf Hk.
  pose proof (kalman_returned _ _ Hk) as E.
  destruct (for_each_track_untouched _ _ _ _ E) as [Hrows Hkeep].
  destruct (for_each_track_again _ df df' df' E) as [df'' E2].
  assert (Hk2 : kalman df' = Returned df'').
  { unfold kalman. rewrite Hrows, E2. reflexivity. }
  rewrite Hk2. f_equal.
  destruct (for_each_track_untouched _ _ _ _ E2) as [Hrows2 Hkeep2].
  pose proof (for_each_track_well_formed _ _ _ Hwf E) as Hwf1.
  pose proof (for_each_track_well_formed _ _ _ Hwf1 E2) as Hwf2.
  pose proof (for_each_track_col_names _ _ _ E) as N1.
  pose proof (for_each_track_col_names _ _ _ E2) as N2.
  destruct (groupby row_trackingId (rows df)) as [|g0 gs] eqn:G.
  { cbn in E, E2. injection E as <-. injection E2 as <-. reflexivity. }
  assert (Hn : col_names df'' = col_names df').
  { rewrite N2, N1. apply names_after_idempotent. }
  assert (Hcn1 : NoDup (col_names df')).
  { rewrite N1. apply names_after_NoDup. exact Hcn. }
  assert (Hnd1 : NoDup (map row_index (rows df'))) by (rewrite Hrows; exact Hnd).
  assert (Hcols : cols df'' = cols df').
  { apply list_ext.
    - unfold col_names in Hn. rewrite <- (length_map fst (cols df'')), Hn, length_map.
      reflexivity.
    - intros i [n2 v2] [n1 v1] H2 H1.
      assert (En : n2 = n1).
      { pose proof (map_nth_error fst i (cols df'') H2) as M2.
        pose proof (map_nth_error fst i (cols df') H1) as M1.
        unfold col_names in Hn. rewrite Hn in M2. cbn [fst] in M1, M2. congruence. }
      subst n2. f_equal.
      destruct (in_dec string_dec n1 twelve) as [Hin|Hout].
      + assert (L1 : length v1 = length (rows df')).
        { unfold well_formed in Hwf1. rewrite Forall_forall in Hwf1.
          exact (Hwf1 (n1, v1) (nth_error_In _ _ H1)). }
        assert (L2 : length v2 = length (rows df'')).
        { unfold well_formed in Hwf2. rewrite Forall_forall in Hwf2.
          exact (Hwf2 (n1, v2) (nth_error_In _ _ H2)). }
        apply list_ext; [rewrite L1, L2, Hrows2; reflexivity|].
        intros p a b Ha Hb.
        assert (Hp : (p < length (rows df'))%nat).
        { rewrite <- L1. apply nth_error_Some. rewrite Hb. discriminate. }
        destruct (nth_error (rows df') p) as [r|] eqn:Hr;
          [|apply nth_error_None in Hr; lia].
        assert (Hr2 : nth_error (rows df'') p = Some r) by (rewrite Hrows2; exact Hr).
        assert (Hcn2 : NoDup (col_names df'')) by (rewrite Hn; exact Hcn1).
        assert (Hnd2 : NoDup (map row_index (rows df''))) by (rewrite Hrows2; exact Hnd1).
        pose proof (cell_nth df' i p n1 v1 r Hnd1 Hcn1 H1 Hr) as C1.
        pose proof (cell_nth df'' i p n1 v2 r Hnd2 Hcn2 H2 Hr2) as C2.
        assert (Hin_r : In r (rows df)).
        { rewrite <- Hrows. eapply nth_error_In. exact Hr. }
        pose proof (kalman_writes_track df df' r Hnd Hwf Hk Hin_r) as W1.
        assert (Hin_r' : In r (rows df')) by (rewrite Hrows; exact Hin_r).
        pose proof (kalman_writes_track df' df'' r Hnd1 Hwf1 Hk2 Hin_r') as W2.
        rewrite Hrows in W2.
        set (gdf := filter (fun q => row_trackingId q =? row_trackingId r) (rows df)) in *.
        destruct W1 as [kf [mu [cov [kf' [mu_rts [cov_rts [K [Pp [I1 [R1' [S1 Cells1]]]]]]]]]]].
        destruct W2 as [kf2 [mu2 [cov2 [kf2' [mu_rts2 [cov_rts2 [K2 [Pp2 [I2 [R2' [S2 Cells2]]]]]]]]]]].
        rewrite I1 in I2. apply ret_inj in I2. subst kf2.
        rewrite R1' in R2'. apply ret_inj in R2'. injection R2' as <- <- <-.
        rewrite S1 in S2. apply ret_inj in S2. injection S2 as <- _ _ _.
        assert (Hg : In r gdf).
        { apply filter_In. split; [exact Hin_r | apply Z.eqb_refl]. }
        apply In_nth_error in Hg. destruct Hg as [j Hj].
        destruct (twelve_nth n1 Hin) as [t [Ht Hname]].
        destruct (Cells1 j r Hj t Ht) as [A1 B1].
        destruct (Cells2 j r Hj t Ht) as [A2 B2].
        assert (Hc : cell df'' n1 (row_index r) = cell df' n1 (row_index r)).
        { destruct Hname as [-> | ->]; congruence. }
        rewrite C1, C2 in Hc. congruence.
      + pose proof (Hkeep2 i n1 v1 H1 Hout) as H2'. congruence. }
  destruct df' as [rows1 cols1], df'' as [rows2 cols2].
  cbn [rows cols] in *. subst. reflexivity.
Qed.

Lemma kalman_is_idempotent_witness :
  exists df', kalman df_two_tracks = Returned df' /\ kalman df' = Returned df'.
Proof.
  destruct (kalman df_two_tracks) as [d|e d] eqn:E.
  - exists d. split; [reflexivity|].
    apply (kalman_is_idempotent df_two_tracks d).
    + simpl. repeat constructor; simpl; intuition discriminate.
    + simpl. repeat constructor; simpl; intuition discriminate.
    + repeat constructor.
    + exact E.
  - vm_compute in E. discriminate E.
Defined.
